(** * Settlers of Catan board generator (settlers.py): model and properties

    The Python objects live in an object store (an arena): a tile is
    addressed by its [id], which [Hex.__init__] draws from the class counter
    [Hex.next_id], and a reference to a tile is that id.  A neighbor slot
    holding [None] is an absent key of the tile's [neighbors] map.  The [y]
    coordinate only takes multiples of one half, so it is kept doubled
    ([y2] = 2 * y): the offsets of [angle_xy] become integers. *)

From stdpp Require Import gmap strings list fin_maps.
From Stdlib Require Import ZArith Lia Permutation Sorted.

(** ** Exceptions *)

Inductive exn :=
  | KeyError | ValueError | TypeError | NameError | IndexError | AttributeError
  | NoFuel (* the bound given to a [while True] loop of the model ran out *).

#[global] Instance exn_eq_dec : EqDecision exn.
Proof. solve_decision. Defined.

Inductive result (A : Type) :=
  | Ok (a : A)
  | Raise (e : exn).
Arguments Ok {A} a.
Arguments Raise {A} e.

#[global] Instance result_ret : MRet result := fun A a => Ok a.
#[global] Instance result_bind : MBind result := fun A B k r =>
  match r with
  | Ok a => k a
  | Raise e => Raise e
  end.

Definition is_ok {A} (r : result A) : bool :=
  match r with
  | Ok _ => true
  | Raise _ => false
  end.

(** The value of a result, [d] if it raised. *)
Definition ok_or {A} (r : result A) (d : A) : A :=
  match r with
  | Ok a => a
  | Raise _ => d
  end.

Fixpoint foldM {A B} (f : A -> B -> result A) (a : A) (l : list B) : result A :=
  match l with
  | [] => Ok a
  | b :: l' => a' ← f a b; foldM f a' l'
  end.

(** A call that changes the object store and may raise when part of its
    writes are done: [Failed e s] is the exception together with the state
    the caller finds afterwards. *)
Inductive attempt (S A : Type) :=
  | Done (a : A)
  | Failed (e : exn) (s : S).
Arguments Done {S A} a.
Arguments Failed {S A} e s.

#[global] Instance attempt_ret {S} : MRet (attempt S) := fun A a => Done a.
#[global] Instance attempt_bind {S} : MBind (attempt S) := fun A B k r =>
  match r with
  | Done a => k a
  | Failed e s => Failed e s
  end.

(** What the caller of a call sees of its outcome when it does not look at
    the store. *)
Definition outcome {S A} (r : attempt S A) : result A :=
  match r with
  | Done a => Ok a
  | Failed e _ => Raise e
  end.

Definition has_failed {S A} (r : attempt S A) (e : exn) : bool :=
  match r with
  | Done _ => false
  | Failed e' _ => bool_decide (e' = e)
  end.

(** The state a failed call leaves, [d] if it returned. *)
Definition left_by {S A} (r : attempt S A) (d : S) : S :=
  match r with
  | Done _ => d
  | Failed _ s => s
  end.

(** ** Values *)

(** A value the number lists hold and the [num] property is given: an
    integer or a string ([CatanMap.begin_num] ends with the empty
    string). *)
Inductive pyval :=
  | PInt (n : Z)
  | PStr (s : string).

#[global] Instance pyval_eq_dec : EqDecision pyval.
Proof. solve_decision. Defined.

(** ** Module constants *)

Definition PORT_TO_TERR : gmap string string :=
  <["BRICK" := "HILL"]> (<["GRAIN" := "FIELD"]> (<["ROCK" := "MNTN"]>
  (<["SHEEP" := "PSTR"]> (<["WOOD" := "FRST"]> ∅)))).

Definition TERR_TO_PORT : gmap string string :=
  <["FIELD" := "GRAIN"]> (<["FRST" := "WOOD"]> (<["HILLS" := "BRICK"]>
  (<["MNTN" := "ROCK"]> (<["PSTR" := "SHEEP"]> ∅)))).

(** ** class Hex / class CatanHex *)

Module Hex.

(** [CatanHex] extends [Hex] with [terr], [num] (the property backed by
    [_num]), [pips] and [port]; every tile of the maps below is a
    [CatanHex], so one record carries both layers. *)
Record t := mk {
  id : nat;
  x : Z;
  y2 : Z;
  neighbors : gmap Z nat;
  terr : string;
  num : pyval;
  pips : Z;
  port : bool
}.

Definition angles : list Z := [0; 60; 120; 180; 240; 300]%Z.

(** [angle_xy], with the [dy] component doubled. *)
Definition angle_xy : gmap Z (Z * Z) :=
  <[0%Z := (0, -2)%Z]> (<[60%Z := (1, -1)%Z]> (<[120%Z := (1, 1)%Z]>
  (<[180%Z := (0, 2)%Z]> (<[240%Z := (-1, 1)%Z]> (<[300%Z := (-1, -1)%Z]> ∅))))).

Definition set_x (v : Z) (h : t) : t :=
  mk (id h) v (y2 h) (neighbors h) (terr h) (num h) (pips h) (port h).
Definition set_y2 (v : Z) (h : t) : t :=
  mk (id h) (x h) v (neighbors h) (terr h) (num h) (pips h) (port h).
Definition set_neighbors (v : gmap Z nat) (h : t) : t :=
  mk (id h) (x h) (y2 h) v (terr h) (num h) (pips h) (port h).
Definition set_terr (v : string) (h : t) : t :=
  mk (id h) (x h) (y2 h) (neighbors h) v (num h) (pips h) (port h).

(** [self.neighbors[angle] = v], where [v] is a tile or [None]. *)
Definition set_slot (angle : Z) (v : option nat) (h : t) : t :=
  set_neighbors (match v with
                 | Some n => <[angle := n]> (neighbors h)
                 | None => delete angle (neighbors h)
                 end) h.

(** The first statement of the setter of [num], [self._num = value]. *)
Definition store_num (value : pyval) (h : t) : t :=
  mk (id h) (x h) (y2 h) (neighbors h) (terr h) value (pips h) (port h).

(** The setter of [num] called with an integer: both statements run,
    [_num] and [pips] change together. *)
Definition set_num (value : Z) (h : t) : t :=
  mk (id h) (x h) (y2 h) (neighbors h) (terr h) (PInt value)
     (6 - Z.abs (7 - value))%Z (port h).

(** The setter of the [num] property,

      self._num = value
      self.pips = 6 - abs(7 - value)

    With a string the subtraction raises [TypeError] when [_num] already
    holds the string; [pips] is left as it was. *)
Definition num_setter (value : pyval) (h : t) : attempt t t :=
  match value with
  | PInt n => Done (set_num n h)
  | PStr _ => Failed TypeError (store_num value h)
  end.

(** [CatanHex.__init__(terr, num, port)] followed by [Hex.__init__]. *)
Definition init (next_id : nat) (terr0 : string) (num0 : Z) (port0 : bool) : t :=
  set_num num0 (mk next_id 0 0 ∅ terr0 (PInt 0) 0 port0).

End Hex.

Abbreviation heap := (gmap nat Hex.t).

(** Attribute reads through a reference. *)
Definition neighbor (h : heap) (i : nat) (angle : Z) : option nat :=
  t ← h !! i; Hex.neighbors t !! angle.
Definition x_of (h : heap) (i : nat) : Z := from_option Hex.x 0%Z (h !! i).
Definition y2_of (h : heap) (i : nat) : Z := from_option Hex.y2 0%Z (h !! i).
Definition port_of (h : heap) (i : nat) : bool := from_option Hex.port false (h !! i).
Definition terr_of (h : heap) (i : nat) : string := from_option Hex.terr "NONE" (h !! i).
Definition num_of (h : heap) (i : nat) : pyval := from_option Hex.num (PInt 0) (h !! i).
Definition pips_of (h : heap) (i : nat) : Z := from_option Hex.pips (-1)%Z (h !! i).

Definition opposite (angle : Z) : Z := ((angle + 180) mod 360)%Z.

(** [Hex.new_neighbor]: the two links are written first, then the
    coordinates of [neighbor]; an angle that is no key of [angle_xy] raises
    [KeyError]. *)
Definition new_neighbor (h : heap) (self : nat) (angle : Z) (nb : nat) : result heap :=
  let h1 := alter (Hex.set_slot angle (Some nb)) self h in
  let h2 := alter (Hex.set_slot (opposite angle) (Some self)) nb h1 in
  match Hex.angle_xy !! angle with
  | None => Raise KeyError
  | Some (dx, dy2) =>
      let h3 := alter (Hex.set_x (x_of h2 self + dx)%Z) nb h2 in
      Ok (alter (Hex.set_y2 (y2_of h3 self + dy2)%Z) nb h3)
  end.

(** One turn of the loop of [Hex.delete_neighbors]. *)
Definition delete_step (self : nat) (h : heap) (angle : Z) : heap :=
  match neighbor h self angle with
  | Some target =>
      alter (Hex.set_slot angle None) self
        (alter (Hex.set_slot (opposite angle) None) target h)
  | None => h
  end.

Definition delete_neighbors (h : heap) (self : nat) : heap :=
  foldl (delete_step self) h Hex.angles.

(** One turn of the loop of [Hex.join_neighbors]. *)
Definition join_step (self : nat) (h : heap) (angle : Z) : result heap :=
  match neighbor h self angle, neighbor h self ((angle + 60) mod 360)%Z with
  | Some target, Some join => new_neighbor h target ((angle + 120) mod 360)%Z join
  | _, _ => Ok h
  end.

Definition join_neighbors (h : heap) (self : nat) : result heap :=
  foldM (join_step self) h Hex.angles.

(** ** class HexMap *)

(** Keyword parameters of a new tile ([hex_params]); a missing key takes the
    default of [CatanHex.__init__]. *)
Record hex_params := mk_params {
  p_terr : string;
  p_num : Z;
  p_port : bool
}.

Definition no_params : hex_params := mk_params "NONE" 0 false.
Definition port_params : hex_params := mk_params "NONE" 0 true.

Module HexMap.

Record bounds_t := mk_bounds { top : Z; left : Z; right : Z; bottom : Z }.

(** [next_id] is the class attribute [Hex.next_id] and [heap] the object
    store; they are threaded with the map because the map's methods are
    what allocates tiles.  The tile class is [CatanHex] throughout
    ([start_hex(CatanHex)]), so [_base_hex] is not represented. *)
Record t := mk {
  next_id : nat;
  heap : gmap nat Hex.t;
  hexes : list nat;
  base_params : hex_params;
  bounds : bounds_t
}.

Definition set_heap (h : gmap nat Hex.t) (m : t) : t :=
  mk (next_id m) h (hexes m) (base_params m) (bounds m).
Definition set_hexes (l : list nat) (m : t) : t :=
  mk (next_id m) (heap m) l (base_params m) (bounds m).
Definition set_bounds (b : bounds_t) (m : t) : t :=
  mk (next_id m) (heap m) (hexes m) (base_params m) b.

(** [hex_class( **hex_params )]: allocate a tile. *)
Definition new_hex (p : hex_params) (m : t) : nat * t :=
  let i := next_id m in
  (i, mk (S i) (<[i := Hex.init i (p_terr p) (p_num p) (p_port p)]> (heap m))
         (hexes m) (base_params m) (bounds m)).

Definition params_or_base (p : option hex_params) (m : t) : hex_params :=
  from_option (fun q => q) (base_params m) p.

(** The [for angle in angles] loop of [grow_hex]; [acc] is [new_hexes]. *)
Fixpoint grow_loop (tile : nat) (p : hex_params) (angles : list Z)
    (m : t) (acc : list nat) : result (t * list nat) :=
  match angles with
  | [] => Ok (m, acc)
  | angle :: rest =>
      if decide (angle ∈ Hex.angles) then
        match neighbor (heap m) tile angle with
        | None =>
            let '(new, m1) := new_hex p m in
            h ← new_neighbor (heap m1) tile angle new;
            grow_loop tile p rest (set_heap h m1) (acc ++ [new])
        | Some _ => grow_loop tile p rest m acc
        end
      else Raise KeyError
  end.

Definition grow_hex (m : t) (tile : nat) (angles : list Z)
    (p : option hex_params) : result (t * list nat) :=
  let q := params_or_base p m in
  '(m1, new_hexes) ← grow_loop tile q angles m [];
  h ← join_neighbors (heap m1) tile;
  Ok (set_hexes (hexes m1 ++ new_hexes) (set_heap h m1), new_hexes).

(** The loop of [grow_map] over the snapshot [self.hexes[:]]. *)
Fixpoint grow_map_loop (snapshot : list nat) (angles : list Z)
    (p : hex_params) (m : t) (acc : list nat) : result (t * list nat) :=
  match snapshot with
  | [] => Ok (m, acc)
  | tile :: rest =>
      '(m1, new) ← grow_hex m tile angles (Some p);
      grow_map_loop rest angles p m1 (acc ++ new)
  end.

Definition grow_map (m : t) (angles : list Z) (p : option hex_params)
    : result (t * list nat) :=
  grow_map_loop (hexes m) angles (params_or_base p m) m [].

Definition start_hex (m : t) (p : option hex_params) : t * nat :=
  let m0 := mk (next_id m) (heap m) (hexes m) (params_or_base p m) (bounds m) in
  let '(tile, m1) := new_hex (base_params m0) m0 in
  (set_hexes (hexes m1 ++ [tile]) m1, tile).

Definition surround_hex (m : t) (tile : nat) (p : option hex_params)
    : result (t * list nat) :=
  grow_hex m tile Hex.angles (Some (params_or_base p m)).

Definition surround_map (m : t) (p : option hex_params) : result (t * list nat) :=
  grow_map m Hex.angles (Some (params_or_base p m)).

Definition explore_step (h : gmap nat Hex.t) (b : bounds_t) (tile : nat) : bounds_t :=
  mk_bounds (Z.min (y2_of h tile) (top b)) (Z.min (x_of h tile) (left b))
            (Z.max (x_of h tile) (right b)) (Z.max (y2_of h tile) (bottom b)).

(** [_explore]; [top] and [bottom] are in half units like [y2]. *)
Definition explore (m : t) : t :=
  set_bounds (foldl (explore_step (heap m)) (mk_bounds 0 0 0 0) (hexes m)) m.

(** [find_hex(x, y)], with [y] doubled like [y2]: the first tile of
    [hexes] at these coordinates. *)
Definition find_hex (m : t) (x y2 : Z) : result nat :=
  match filter (fun tile => x_of (heap m) tile = x /\ y2_of (heap m) tile = y2)
               (hexes m) with
  | tile :: _ => Ok tile
  | [] => Raise ValueError
  end.

(** [HexMap.__init__] before [build]: a fresh interpreter, no tile yet. *)
Definition empty : t := mk 0 ∅ [] no_params (mk_bounds 0 0 0 0).

End HexMap.

(** ** class CatanMap *)

(** The key [math.atan2(tile.x, tile.y)] of the port sort, compared exactly.
    [atan2_class s c] ranks the value of [atan2(s, c)]: 3 for pi ([s = 0],
    [c < 0]), 2 for the open interval (0, pi), 1 for 0 and 0 for (-pi, 0);
    inside an open half plane the cross product decides.  The arguments are
    ([2 * x], [y2]), the same direction as ([x], [y]).  The candidate tiles
    lie on eighteen different rays from the origin, far more apart than the
    rounding of a floating point [atan2]. *)
Definition atan2_class (s c : Z) : Z :=
  if (0 <? s)%Z then 2%Z
  else if (s <? 0)%Z then 0%Z
  else if (c <? 0)%Z then 3%Z else 1%Z.

Definition atan2_ltb (p q : Z * Z) : bool :=
  let '(s1, c1) := p in
  let '(s2, c2) := q in
  let k1 := atan2_class s1 c1 in
  let k2 := atan2_class s2 c2 in
  if (k1 <? k2)%Z then true
  else if (k2 <? k1)%Z then false
  else ((k1 =? 2)%Z || (k1 =? 0)%Z) && (0 <? c1 * s2 - s1 * c2)%Z.

Definition polar_key (h : heap) (tile : nat) : Z * Z :=
  ((2 * x_of h tile)%Z, y2_of h tile).

(** [list.sort(key = ..., reverse = True)]: a stable sort in descending key
    order, as an insertion sort. *)
Fixpoint insert_desc (h : heap) (tile : nat) (l : list nat) : list nat :=
  match l with
  | [] => [tile]
  | u :: l' =>
      if atan2_ltb (polar_key h tile) (polar_key h u)
      then u :: insert_desc h tile l'
      else tile :: l
  end.

Definition sort_desc (h : heap) (l : list nat) : list nat :=
  foldr (insert_desc h) [] l.

(** The slice [l[1::2]]. *)
Fixpoint every_other (l : list nat) : list nat :=
  match l with
  | _ :: b :: l' => b :: every_other l'
  | _ => []
  end.

(** [inter.sort(key = lambda tile: tile.id)]; a reference is the id. *)
Fixpoint insert_id (tile : nat) (l : list nat) : list nat :=
  match l with
  | [] => [tile]
  | u :: l' => if tile <? u then tile :: l else u :: insert_id tile l'
  end.

Definition sort_id (l : list nat) : list nat := foldr insert_id [] l.

Module CatanMap.

Definition begin_num : list pyval :=
  (PInt <$> [5; 6; 11; 5; 8; 10; 9; 2; 10; 12; 9; 8; 3; 4; 3; 4; 6; 11]%Z) ++ [PStr ""].
Definition begin_terr : list string :=
  ["FRST"; "PSTR"; "DSRT"; "MNTN"; "HILLS"; "HILLS"; "FRST"; "FIELD"; "FIELD";
   "PSTR"; "HILLS"; "FRST"; "FRST"; "MNTN"; "PSTR"; "PSTR"; "MNTN"; "FIELD"; "FIELD"].
Definition begin_port : list string :=
  ["ROCK"; "ANY"; "SHEEP"; "ANY"; "ANY"; "BRICK"; "WOOD"; "ANY"; "GRAIN"].
Definition standard_num : list pyval :=
  PInt <$> [5; 2; 6; 3; 8; 10; 9; 12; 11; 4; 8; 10; 9; 4; 5; 6; 3; 11]%Z.

(** The class attributes the methods read through [self]; a subclass
    overrides them ([Catan56Map] does, all four). *)
Record class_attrs := mk_attrs {
  cls_begin_num : list pyval;
  cls_begin_port : list string;
  cls_begin_terr : list string;
  cls_standard_num : list pyval
}.

(** Those of [CatanMap] itself. *)
Definition attrs : class_attrs := mk_attrs begin_num begin_port begin_terr standard_num.

(** The attributes [CatanMap] adds to [HexMap]; [base] is the inherited
    part and [klass] the class of the object, as far as the methods look
    at it. *)
Record t := mk {
  base : HexMap.t;
  use_frame : bool;
  terrain : list nat;
  ports : list nat;
  columns : list nat;
  spiral : list nat;
  intersections : gset (list nat);
  tries : Z;
  klass : class_attrs
}.

Definition heap (m : t) : gmap nat Hex.t := HexMap.heap (base m).
Definition hexes (m : t) : list nat := HexMap.hexes (base m).

Definition set_base (b : HexMap.t) (m : t) : t :=
  mk b (use_frame m) (terrain m) (ports m) (columns m) (spiral m) (intersections m) (tries m)
     (klass m).
Definition set_heap (h : gmap nat Hex.t) (m : t) : t :=
  set_base (HexMap.set_heap h (base m)) m.
Definition set_columns (l : list nat) (m : t) : t :=
  mk (base m) (use_frame m) (terrain m) (ports m) l (spiral m) (intersections m) (tries m)
     (klass m).
Definition set_spiral (l : list nat) (m : t) : t :=
  mk (base m) (use_frame m) (terrain m) (ports m) (columns m) l (intersections m) (tries m)
     (klass m).
Definition set_intersections (s : gset (list nat)) (m : t) : t :=
  mk (base m) (use_frame m) (terrain m) (ports m) (columns m) (spiral m) s (tries m)
     (klass m).
Definition set_tries (n : Z) (m : t) : t :=
  mk (base m) (use_frame m) (terrain m) (ports m) (columns m) (spiral m) (intersections m) n
     (klass m).

(** *** build *)

(** The map after [start_hex(CatanHex)], and the center tile. *)
Definition build_start (b : HexMap.t) : HexMap.t * nat := HexMap.start_hex b None.

(** ... after [surround_hex(start)], with [mid_loop]. *)
Definition build_ring1 (b : HexMap.t) : result (HexMap.t * list nat) :=
  let '(b1, start) := build_start b in
  HexMap.surround_hex b1 start None.

(** ... after the first [surround_map()], with [edge_hexes]. *)
Definition build_ring2 (b : HexMap.t) : result (HexMap.t * list nat) :=
  '(b2, _) ← build_ring1 b;
  HexMap.surround_map b2 None.

(** ... after [surround_map(hex_params = {'port': True})], with the
    terrain list taken just before and the unsorted port candidates. *)
Definition build_ring3 (b : HexMap.t) : result (HexMap.t * list nat * list nat) :=
  '(b3, _) ← build_ring2 b;
  let terrain := HexMap.hexes b3 in
  '(b4, candidates) ← HexMap.surround_map b3 (Some port_params);
  Ok (b4, terrain, candidates).

Definition sorted_candidates (b : HexMap.t) : result (list nat) :=
  '(b4, _, candidates) ← build_ring3 b;
  Ok (sort_desc (HexMap.heap b4) candidates).

Definition build (m : t) : result t :=
  '(b4, terrain, candidates) ← build_ring3 (base m);
  let ports := every_other (sort_desc (HexMap.heap b4) candidates) in
  Ok (mk (HexMap.set_hexes (terrain ++ ports) b4) (use_frame m) terrain ports
         (columns m) (spiral m) (intersections m) (tries m) (klass m)).

(** *** arrange_columns, arrange_spiral, arrange_intersections *)

(** The [for angle in ...] scan of the two searches: the first listed
    angle whose neighbor exists and is no port. *)
Fixpoint first_open (h : gmap nat Hex.t) (tile : nat) (angles : list Z) : option nat :=
  match angles with
  | [] => None
  | angle :: rest =>
      match neighbor h tile angle with
      | Some n => if port_of h n then first_open h tile rest else Some n
      | None => first_open h tile rest
      end
  end.

(** The [while True] search for the top-most or bottom-most tile. *)
Fixpoint climb (fuel : nat) (h : gmap nat Hex.t) (cur : nat) (angles : list Z)
    : result nat :=
  match fuel with
  | 0 => Raise NoFuel
  | S f =>
      match first_open h cur angles with
      | Some n => climb f h n angles
      | None => Ok cur
      end
  end.

(** The loop that extends [right] and [left]; only their last elements
    are read, so these are what the model keeps. *)
Fixpoint toppers_loop (fuel : nat) (h : gmap nat Hex.t) (right_last left_last : nat)
    (toppers : list nat) : result (list nat) :=
  match fuel with
  | 0 => Raise NoFuel
  | S f =>
      let '(right_last1, toppers1, count1) :=
        match neighbor h right_last 120 with
        | Some n => (n, toppers ++ [n], 1)
        | None => (right_last, toppers, 0)
        end in
      let '(left_last1, toppers2, count2) :=
        match neighbor h left_last 240 with
        | Some n => (n, toppers1 ++ [n], S count1)
        | None => (left_last, toppers1, count1)
        end in
      if count2 =? 0 then Ok toppers2
      else toppers_loop f h right_last1 left_last1 toppers2
  end.

(** The walk down from one topper; [last] is [self.columns[-1]]. *)
Fixpoint descend (fuel : nat) (h : gmap nat Hex.t) (cols : list nat) (last : nat)
    : result (list nat) :=
  match fuel with
  | 0 => Raise NoFuel
  | S f =>
      match neighbor h last 180 with
      | None => Ok cols
      | Some lower =>
          if port_of h lower then Ok cols
          else descend f h (cols ++ [lower]) lower
      end
  end.

Definition arrange_columns (fuel : nat) (m : t) : result t :=
  let h := heap m in
  match hexes m with
  | [] => Raise IndexError
  | first :: _ =>
      top ← climb fuel h first [0; 60; 300]%Z;
      match neighbor h top 120, neighbor h top 240 with
      | Some r, Some l =>
          toppers ← toppers_loop fuel h r l [top; r; l];
          cols ← foldM (fun cols topper => descend fuel h (cols ++ [topper]) topper)
                       [] toppers;
          Ok (set_columns cols m)
      | _, _ => Raise AttributeError (* [None.neighbors] *)
      end
  end.

(** [target is None or target in self.spiral or target.port] *)
Definition blocked (h : gmap nat Hex.t) (sp : list nat) (target : option nat) : bool :=
  match target with
  | None => true
  | Some u => bool_decide (u ∈ sp) || port_of h u
  end.

(** The inner [while True] of [arrange_spiral]: turn by -60 until the
    tile ahead is free; back at [start_angle] is the dead end. *)
Fixpoint spiral_turn (fuel : nat) (h : gmap nat Hex.t) (sp : list nat) (cur : nat)
    (angle start_angle : Z) : result Z :=
  match fuel with
  | 0 => Raise NoFuel
  | S f =>
      if blocked h sp (neighbor h cur angle) then
        let angle1 := ((angle - 60) mod 360)%Z in
        if (angle1 =? start_angle)%Z then Raise ValueError
        else spiral_turn f h sp cur angle1 start_angle
      else Ok angle
  end.

(** The outer [while len(self.spiral) < len(self.terrain)]; six turns
    bring the angle back to [start_angle], so the inner loop gets 6. *)
Fixpoint spiral_loop (fuel : nat) (h : gmap nat Hex.t) (n : nat) (sp : list nat)
    (angle : Z) : result (list nat) :=
  if length sp <? n then
    match fuel with
    | 0 => Raise NoFuel
    | S f =>
        match last sp with
        | None => Raise IndexError
        | Some cur =>
            angle1 ← spiral_turn 6 h sp cur angle angle;
            match neighbor h cur angle1 with
            | Some next => spiral_loop f h n (sp ++ [next]) angle1
            | None => Raise AttributeError (* [None] appended, then read *)
            end
        end
    end
  else Ok sp.

Definition arrange_spiral (fuel : nat) (m : t) : result t :=
  let h := heap m in
  match hexes m with
  | [] => Raise IndexError
  | first :: _ =>
      bottom ← climb fuel h first [180; 120; 240]%Z;
      sp ← spiral_loop fuel h (length (terrain m)) [bottom] 60;
      Ok (set_spiral sp m)
  end.

(** [possible] when it is a tile and no port. *)
Definition open_at (h : gmap nat Hex.t) (tile : nat) (angle : Z) : list nat :=
  match neighbor h tile angle with
  | Some u => if port_of h u then [] else [u]
  | None => []
  end.

(** The tuple added for one tile and one [turn]. *)
Definition group (h : gmap nat Hex.t) (tile : nat) (turn : Z) : list nat :=
  sort_id ([tile] ++ open_at h tile turn ++ open_at h tile ((60 + turn) mod 360)%Z).

(** Every tuple added, in the order of the two loops; [range(0, 360, 60)]
    lists the same numbers as [Hex.angles]. *)
Definition all_groups (h : gmap nat Hex.t) (terrain : list nat) : list (list nat) :=
  tile ← terrain; (group h tile <$> Hex.angles).

Definition arrange_intersections (m : t) : t :=
  set_intersections (list_to_set (all_groups (heap m) (terrain m))) m.

Definition arrange (fuel : nat) (m : t) : result t :=
  m1 ← arrange_columns fuel m;
  m2 ← arrange_spiral fuel m1;
  Ok (arrange_intersections m2).

(** [CatanMap(use_frame)] in a fresh interpreter: [HexMap.__init__] runs
    [build], [_explore] and [arrange]. *)
Definition fresh (use_frame0 : bool) : t :=
  mk HexMap.empty use_frame0 [] [] [] [] ∅ 0 attrs.

Definition init (fuel : nat) (use_frame0 : bool) : result t :=
  m1 ← build (fresh use_frame0);
  arrange fuel (set_base (HexMap.explore (base m1)) m1).

(** *** calc_terr_pips, get_n_pips *)

(** [{terr: [0, 0] for terr in set(self.begin_terr)}] *)
Definition terr_pips_start (m : t) : gmap string (Z * Z) :=
  list_to_map ((fun terr => (terr, (0, 0)%Z)) <$> cls_begin_terr (klass m)).

(** One turn of the loop of [calc_terr_pips]; a terrain that is no key
    raises [KeyError]. *)
Definition terr_pips_step (h : gmap nat Hex.t) (d : gmap string (Z * Z)) (tile : nat)
    : result (gmap string (Z * Z)) :=
  match d !! terr_of h tile with
  | None => Raise KeyError
  | Some (n, pips) =>
      Ok (<[terr_of h tile := ((n + 1)%Z, (pips + pips_of h tile)%Z)]> d)
  end.

Definition calc_terr_pips (m : t) : result (gmap string (Z * Z)) :=
  foldM (terr_pips_step (heap m)) (terr_pips_start m) (terrain m).

(** [get_n_pips(n)]; the order of the result is the iteration order of the
    set, which the model takes from [elements]. *)
Definition get_n_pips (m : t) (n : nat) : list Z :=
  let inters := filter (fun inter => length inter = n) (elements (intersections m)) in
  let pips := (fun inter => pips_of (heap m) <$> inter) <$> inters in
  (fun sub_pips => foldr Z.add 0%Z sub_pips)
    <$> filter (fun sub_pips => (-1)%Z ∉ sub_pips) pips.

(** *** layout *)

Definition write_terr (h : gmap nat Hex.t) (p : nat * string) : gmap nat Hex.t :=
  alter (Hex.set_terr p.2) p.1 h.

(** [tile.num = value], the setter [Hex.num_setter] run on a tile of the
    store: with a string, [abs(7 - '')] raises [TypeError] and the store
    keeps the string in [_num] beside the old [pips]. *)
Definition assign_num (h : gmap nat Hex.t) (tile : nat) (value : pyval)
    : attempt (gmap nat Hex.t) (gmap nat Hex.t) :=
  match value with
  | PInt n => Done (alter (Hex.set_num n) tile h)
  | PStr _ => Failed TypeError (alter (Hex.store_num value) tile h)
  end.

(** The loop of [set_numbers] over the two iterators; [StopIteration]
    from [next(numbers)] ends it. *)
Fixpoint numbers_loop (h : gmap nat Hex.t) (tiles : list nat) (numbers : list pyval)
    : attempt (gmap nat Hex.t) (gmap nat Hex.t) :=
  match tiles with
  | [] => Done h
  | tile :: tiles' =>
      if decide (terr_of h tile = "DSRT") then
        numbers_loop (alter (Hex.set_num 0) tile h) tiles' numbers
      else
        match numbers with
        | [] => Done h
        | value :: numbers' =>
            h1 ← assign_num h tile value;
            numbers_loop h1 tiles' numbers'
        end
  end.

Section Layout.

(** [random.shuffle]: [rng] is the state of the generator. *)
Context {rng : Type} (shuffle : forall A : Type, rng -> list A -> list A * rng).

Definition shuffled {A} (g : rng) (order : string) (l : list A) : list A * rng :=
  if decide (order = "shuffle") then shuffle A g l else (l, g).

Definition set_terrain (g : rng) (order : string) (m : t) : t * rng :=
  let '(rezes, g1) := shuffled g order (cls_begin_terr (klass m)) in
  (set_heap (foldl write_terr (heap m) (zip (columns m) rezes)) m, g1).

(** When the setter raises, the map and the generator are left as they
    are at that moment. *)
Definition set_numbers (g : rng) (order : string) (m : t)
    : attempt (t * rng) (t * rng) :=
  let numbers := if decide (order = "beginner") then cls_begin_num (klass m)
                 else cls_standard_num (klass m) in
  let '(numbers1, g1) := shuffled g order numbers in
  match numbers_loop (heap m) (spiral m) numbers1 with
  | Done h => Done (set_heap h m, g1)
  | Failed e h => Failed e (set_heap h m, g1)
  end.

Definition set_ports (g : rng) (order : string) (m : t) : t * rng :=
  let '(ports1, g1) := shuffled g order (cls_begin_port (klass m)) in
  (set_heap (foldl write_terr (heap m) (zip (ports m) ports1)) m, g1).

(** One turn of the [while True] of [layout], up to the validators. *)
Definition layout_pass (g : rng) (num port terr : string) (m : t) : result (t * rng) :=
  let '(m1, g1) := set_terrain g terr m in
  '(m2, g2) ← outcome (set_numbers g1 num m1);
  Ok (set_ports g2 port m2).

(** The [for validator in validate] loop: [true] when its [else] branch
    runs. *)
Fixpoint run_validators (validate : list (t -> result bool)) (m : t) : result bool :=
  match validate with
  | [] => Ok true
  | validator :: rest =>
      ok ← validator m;
      if ok : bool then run_validators rest m else Ok false
  end.

Fixpoint layout_loop (fuel : nat) (g : rng) (num port terr : string)
    (validate : list (t -> result bool)) (m : t) : result (t * rng) :=
  match fuel with
  | 0 => Raise NoFuel
  | S f =>
      '(m1, g1) ← layout_pass g num port terr m;
      ok ← run_validators validate m1;
      if ok : bool then Ok (m1, g1)
      else layout_loop f g1 num port terr validate (set_tries (tries m1 + 1) m1)
  end.

Definition layout (fuel : nat) (g : rng) (num port terr : string)
    (validate : list (t -> result bool)) (m : t) : result (t * rng) :=
  layout_loop fuel g num port terr validate
    (set_tries (match validate with [] => 0 | _ => 1 end) m).

End Layout.

End CatanMap.

(** ** class Catan56Map *)

Module Catan56Map.

Definition begin_num : list Z :=
  [2; 5; 4; 6; 3; 9; 8; 11; 11; 10; 6; 3; 8; 4; 8; 10; 11; 12; 10; 5; 4;
   9; 5; 9; 12; 3; 2; 6]%Z.
Definition begin_port : list string :=
  ["ANY"; "ANY"; "BRICK"; "SHEEP"; "WOOD"; "ANY"; "GRAIN"; "ANY"; "ROCK";
   "ANY"; "SHEEP"].
Definition begin_terr : list string :=
  ["FIELD"; "HILLS"; "FIELD"; "MNTN"; "MNTN"; "HILLS"; "PSTR"; "FRST";
   "HILLS"; "FIELD"; "PSTR"; "MNTN"; "PSTR"; "MNTN"; "FRST"; "FRST"; "PSTR";
   "FIELD"; "HILLS"; "DSRT"; "PSTR"; "FIELD"; "FRST"; "HILLS"; "DSRT"; "FIELD";
   "FRST"; "PSTR"; "MNTN"; "FRST"].
Definition frame_ports : list nat := [1; 4; 6; 7; 9; 11; 13; 14; 16; 19; 21].
Definition standard_num : list Z :=
  [2; 5; 4; 6; 3; 9; 8; 11; 11; 10; 6; 3; 8; 4; 8; 10; 11; 12; 10; 5; 4;
   9; 5; 9; 12; 3; 2; 6]%Z.

(** The class attributes as a [Catan56Map] object reads them. *)
Definition attrs : CatanMap.class_attrs :=
  CatanMap.mk_attrs (PInt <$> begin_num) begin_port begin_terr (PInt <$> standard_num).

(** [[self.ports[index] for index in self.frame_ports]] *)
Fixpoint pick (ports : list nat) (indices : list nat) : result (list nat) :=
  match indices with
  | [] => Ok []
  | index :: rest =>
      match ports !! index with
      | None => Raise IndexError
      | Some tile => picked ← pick ports rest; Ok (tile :: picked)
      end
  end.

(** The map after the five growths, with the four start tiles in the
    middle; [top = start.neighbors[0].neighbors[0]] is evaluated and not
    used. *)
Definition build_terrain (b : HexMap.t) : result HexMap.t :=
  let '(b0, start) := HexMap.start_hex b None in
  '(b1, _) ← HexMap.grow_map b0 [120%Z] None;
  '(b2, _) ← HexMap.grow_map b1 [180%Z] None;
  '(b3, _) ← HexMap.surround_map b2 None;
  '(b4, _) ← HexMap.surround_map b3 None;
  match neighbor (HexMap.heap b4) start 0 with
  | None => Raise AttributeError
  | Some _ => Ok b4
  end.

(** The port candidates, sorted. *)
Definition build_candidates (b : HexMap.t) : result (HexMap.t * list nat * list nat) :=
  b4 ← build_terrain b;
  let terrain := HexMap.hexes b4 in
  '(b5, candidates) ← HexMap.surround_map b4 (Some port_params);
  Ok (b5, terrain, sort_desc (HexMap.heap b5) candidates).

Definition build (m : CatanMap.t) : result CatanMap.t :=
  '(b5, terrain, sorted) ← build_candidates (CatanMap.base m);
  ports ← (if CatanMap.use_frame m then pick sorted frame_ports
           else Ok (every_other sorted));
  Ok (CatanMap.mk (HexMap.set_hexes (terrain ++ ports) b5) (CatanMap.use_frame m)
                  terrain ports (CatanMap.columns m) (CatanMap.spiral m)
                  (CatanMap.intersections m) (CatanMap.tries m) (CatanMap.klass m)).

(** [Catan56Map(use_frame)] before [build]. *)
Definition fresh (use_frame0 : bool) : CatanMap.t :=
  CatanMap.mk HexMap.empty use_frame0 [] [] [] [] ∅ 0 attrs.

Definition init (fuel : nat) (use_frame0 : bool) : result CatanMap.t :=
  m1 ← build (fresh use_frame0);
  CatanMap.arrange fuel (CatanMap.set_base (HexMap.explore (CatanMap.base m1)) m1).

End Catan56Map.

(** ** Validator factories *)

(** What a factory hands back: a function of one argument, a function of
    no argument, or [None] when the factory has no [return]. *)
Inductive pyobj :=
  | PyNone
  | PyFun1 (f : CatanMap.t -> result bool)
  | PyFun0 (f : result bool).

(** [validator(self)] in [layout]: calling [None], or a function of no
    argument with one argument, raises [TypeError]. *)
Definition call1 (o : pyobj) (catan : CatanMap.t) : result bool :=
  match o with
  | PyFun1 f => f catan
  | PyNone | PyFun0 _ => Raise TypeError
  end.

Definition sum_pips (h : heap) (tiles : list nat) : Z :=
  foldr (fun tile acc => (pips_of h tile + acc)%Z) 0%Z tiles.

(** The neighbors of a tile that are not [None], in the order of
    [range(0, 360, 60)]. *)
Definition adjacent (h : heap) (tile : nat) : list nat :=
  omap (neighbor h tile) Hex.angles.

Definition gr_criteria (n : Z) (catan : CatanMap.t) : result bool :=
  let h := CatanMap.heap catan in
  Ok (n <=? foldl (fun max_pip tile =>
                     if decide (terr_of h tile = "ROCK")
                     then Z.max max_pip (pips_of h tile) else max_pip)
                  0 (CatanMap.terrain catan))%Z.

(** [good_rock] defines [gr_criteria] and ends without returning it. *)
Definition good_rock (n : Z) : result pyobj :=
  let _ := gr_criteria n in Ok PyNone.

Definition mp_criteria (n : Z) (catan : CatanMap.t) : result bool :=
  Ok (forallb (fun settle => negb (n <? sum_pips (CatanMap.heap catan) settle)%Z)
              (elements (CatanMap.intersections catan))).

Definition max_pip (n : Z) : result pyobj := Ok (PyFun1 (mp_criteria n)).

(** [pips += tile.num]: an integer and a string do not add. *)
Definition add_num (pips : Z) (value : pyval) : result Z :=
  match value with
  | PInt n => Ok (pips + n)%Z
  | PStr _ => Raise TypeError
  end.

(** The inner loop of [mpp_criteria]; [PORT_TO_TERR[port.terr]] is only
    evaluated for a neighbor that is not [None]. *)
Definition port_pips (h : heap) (port : nat) : result Z :=
  foldM (fun pips tile =>
           match PORT_TO_TERR !! terr_of h port with
           | None => Raise KeyError
           | Some terr =>
               if decide (terr_of h tile = terr) then add_num pips (num_of h tile)
               else Ok pips
           end)
        0%Z (adjacent h port).

Fixpoint mpp_loop (n : Z) (h : heap) (ports : list nat) : result bool :=
  match ports with
  | [] => Ok true
  | port :: rest =>
      if decide (terr_of h port = "ANY") then mpp_loop n h rest
      else
        pips ← port_pips h port;
        if (n <? pips)%Z then Ok false else mpp_loop n h rest
  end.

Definition mpp_criteria (n : Z) (catan : CatanMap.t) : result bool :=
  mpp_loop n (CatanMap.heap catan) (CatanMap.ports catan).

Definition max_port_pips (n : Z) : result pyobj := Ok (PyFun1 (mpp_criteria n)).

(** The shape shared by [n2B_criteria], [n68_criteria], [nmp_criteria] and
    [nrp_criteria]: no tile of [tiles] has a neighbor in relation [bad]. *)
Definition no_adjacent (bad : heap -> nat -> nat -> bool) (h : heap) (tiles : list nat)
    : bool :=
  forallb (fun tile => forallb (fun adj => negb (bad h tile adj)) (adjacent h tile)) tiles.

Definition num_pair_in (pairs : list (Z * Z)) (h : heap) (tile adj : nat) : bool :=
  bool_decide ((num_of h tile, num_of h adj) ∈ prod_map PInt PInt <$> pairs).

Definition n2B_criteria (catan : CatanMap.t) : result bool :=
  Ok (no_adjacent (num_pair_in [(2, 2); (2, 12); (12, 2); (12, 12)]%Z)
                  (CatanMap.heap catan) (CatanMap.hexes catan)).

(** [no_2_12] returns the name [n68_criteria], which is bound neither in
    its scope nor globally. *)
Definition no_2_12 : result pyobj :=
  let _ := n2B_criteria in Raise NameError.

Definition n68_criteria (catan : CatanMap.t) : result bool :=
  Ok (no_adjacent (num_pair_in [(6, 6); (6, 8); (8, 6); (8, 8)]%Z)
                  (CatanMap.heap catan) (CatanMap.hexes catan)).

Definition no_6_8 : result pyobj := Ok (PyFun1 n68_criteria).

Fixpoint nd68_loop (h : heap) (seen : gset string) (tiles : list nat) : bool :=
  match tiles with
  | [] => true
  | tile :: rest =>
      if (pips_of h tile =? 5)%Z then
        if decide (terr_of h tile ∈ seen) then false
        else nd68_loop h ({[terr_of h tile]} ∪ seen) rest
      else nd68_loop h seen rest
  end.

Definition nd68_criteria (catan : CatanMap.t) : result bool :=
  Ok (nd68_loop (CatanMap.heap catan) ∅ (CatanMap.terrain catan)).

(** [no_double_6_8] has no [return] either. *)
Definition no_double_6_8 : result pyobj :=
  let _ := nd68_criteria in Ok PyNone.

Definition nmp_criteria (catan : CatanMap.t) : result bool :=
  Ok (no_adjacent (fun h tile adj => bool_decide (num_of h tile = num_of h adj))
                  (CatanMap.heap catan) (CatanMap.terrain catan)).

Definition no_num_pairs : result pyobj := Ok (PyFun1 nmp_criteria).

Definition nrp_criteria (catan : CatanMap.t) : result bool :=
  Ok (no_adjacent (fun h tile adj => bool_decide (terr_of h tile = terr_of h adj))
                  (CatanMap.heap catan) (CatanMap.hexes catan)).

Definition no_terr_pairs : result pyobj := Ok (PyFun1 nrp_criteria).

(** [nrt_criteria()] takes no parameter, and its body reads the unbound
    name [catan]. *)
Definition nrt_criteria : result bool := Raise NameError.

Definition no_terr_tri : result pyobj := Ok (PyFun0 nrt_criteria).

Definition reg_criteria (ignore : list string) (catan : CatanMap.t) : result bool :=
  let h := CatanMap.heap catan in
  Ok (forallb (fun tile =>
                 bool_decide (terr_of h tile ∈ ignore)
                 || existsb (fun adj => bool_decide (terr_of h tile = terr_of h adj))
                            (adjacent h tile))
              (CatanMap.hexes catan)).

Definition regions (ignore : list string) : result pyobj :=
  Ok (PyFun1 (reg_criteria ignore)).

(** A factory call followed by the call of what it returned. *)
Definition make_and_call (factory : result pyobj) (catan : CatanMap.t) : result bool :=
  validator ← factory; call1 validator catan.

(** ** Specification vocabulary *)

(** Mutual adjacency over the whole object store. *)
Definition mutual (h : heap) : Prop :=
  forall i a u, a ∈ Hex.angles -> neighbor h i a = Some u ->
    neighbor h u (opposite a) = Some i.

Definition slot_mutualb (h : heap) (i : nat) (a : Z) : bool :=
  match neighbor h i a with
  | None => true
  | Some u => bool_decide (neighbor h u (opposite a) = Some i)
  end.

Definition mutualb (h : heap) : bool :=
  forallb (fun i => forallb (slot_mutualb h i) Hex.angles) (map_to_list h).*1.

(** A slot may be given to [nb] without overwriting another tile. *)
Definition free_or (h : heap) (i : nat) (a : Z) (nb : nat) : Prop :=
  neighbor h i a = None \/ neighbor h i a = Some nb.

(** A link agrees with the coordinates of its two ends. *)
Definition offset_ok (h : heap) (i : nat) (a : Z) (u : nat) : Prop :=
  forall dx dy, Hex.angle_xy !! a = Some (dx, dy) ->
    x_of h u = (x_of h i + dx)%Z /\ y2_of h u = (y2_of h i + dy)%Z.

Definition coherent (h : heap) : Prop :=
  forall i a u, neighbor h i a = Some u -> offset_ok h i a u.

(** No dangling reference. *)
Definition closed (h : heap) : Prop :=
  forall i a u, neighbor h i a = Some u -> is_Some (h !! u).

(** Every tile of [h] is still there in [h'], at the same coordinates. *)
Definition same_place (h h' : heap) : Prop :=
  forall i, is_Some (h !! i) ->
    is_Some (h' !! i) /\ x_of h' i = x_of h i /\ y2_of h' i = y2_of h i.

(** [num] holds an integer, and [pips] is what the setter derives from
    it. *)
Definition pip_rule (t : Hex.t) : Prop :=
  match Hex.num t with
  | PInt n => Hex.pips t = (6 - Z.abs (7 - n))%Z
  | PStr _ => False
  end.

Definition pips_consistent (h : heap) : Prop :=
  map_Forall (fun _ t => pip_rule t) h.

(** One call of the construction interface of [HexMap]. *)
Inductive step : HexMap.t -> HexMap.t -> Prop :=
  | step_start_hex m p :
      step m (HexMap.start_hex m p).1
  | step_grow_hex m tile angles p m' new :
      is_Some (HexMap.heap m !! tile) ->
      HexMap.grow_hex m tile angles p = Ok (m', new) -> step m m'
  | step_grow_map m angles p m' new :
      HexMap.grow_map m angles p = Ok (m', new) -> step m m'
  | step_surround_hex m tile p m' new :
      is_Some (HexMap.heap m !! tile) ->
      HexMap.surround_hex m tile p = Ok (m', new) -> step m m'
  | step_surround_map m p m' new :
      HexMap.surround_map m p = Ok (m', new) -> step m m'.

(** The maps the construction interface can reach from an empty one. *)
Inductive built : HexMap.t -> Prop :=
  | built_empty : built HexMap.empty
  | built_step m m' : built m -> step m m' -> built m'.

(** What the induction over [built] carries. *)
Record sound (m : HexMap.t) : Prop := mk_sound {
  sound_coherent : coherent (HexMap.heap m);
  sound_closed : closed (HexMap.heap m);
  sound_ids : forall i, is_Some (HexMap.heap m !! i) -> i < HexMap.next_id m;
  sound_hexes : forall i, i ∈ HexMap.hexes m -> is_Some (HexMap.heap m !! i);
  sound_pips : pips_consistent (HexMap.heap m)
}.

(** The board [CatanMap()] builds; 100 bounds each [while True] loop, and
    every larger bound gives the same board ([init_standard_any]). *)
Definition standard_board : CatanMap.t :=
  ok_or (CatanMap.init 100 false) (CatanMap.fresh false).

(** The stages of [build] on the way there. *)
Definition ring1 : HexMap.t * list nat :=
  ok_or (CatanMap.build_ring1 HexMap.empty) (HexMap.empty, []).
Definition ring2 : HexMap.t * list nat :=
  ok_or (CatanMap.build_ring2 HexMap.empty) (HexMap.empty, []).
Definition ring3 : HexMap.t * list nat * list nat :=
  ok_or (CatanMap.build_ring3 HexMap.empty) (HexMap.empty, [], []).
Definition sorted_ring3 : list nat :=
  ok_or (CatanMap.sorted_candidates HexMap.empty) [].
Definition built_board : CatanMap.t :=
  ok_or (CatanMap.build (CatanMap.fresh false)) (CatanMap.fresh false).

(** The nine candidates the slice [ports[1::2]] leaves out. *)
Definition discarded (m : CatanMap.t) : list nat :=
  filter (fun i => i ∉ CatanMap.hexes m) (map_to_list (CatanMap.heap m)).*1.

(** Four growths around a start tile 0: tile 1 above it, tile 2 to its
    lower right, tile 3 to the lower right of 1 (corner propagation links 3
    and 0), and tile 4 above 2, the place tile 3 already has. *)
Definition overgrown : result HexMap.t :=
  let '(m0, start) := HexMap.start_hex HexMap.empty None in
  '(m1, _) ← HexMap.grow_hex m0 start [0%Z] None;
  '(m2, _) ← HexMap.grow_hex m1 start [120%Z] None;
  '(m3, _) ← HexMap.grow_hex m2 1 [120%Z] None;
  '(m4, _) ← HexMap.grow_hex m3 2 [0%Z] None;
  Ok m4.

(** Strictly ascending ids. *)
Fixpoint ascending (l : list nat) : bool :=
  match l with
  | a :: (b :: _) as l' => (a <? b) && ascending l'
  | _ => true
  end.

Definition adjacentb (h : heap) (u v : nat) : bool :=
  existsb (fun a => bool_decide (neighbor h u a = Some v)) Hex.angles.

(** Any two different tiles of the group are neighbors. *)
Definition cliqueb (h : heap) (g : list nat) : bool :=
  forallb (fun u => forallb (fun v => (u =? v) || adjacentb h u v) g) g.

(** Descending order of the sort key, strictly. *)
Fixpoint clockwise (h : heap) (l : list nat) : bool :=
  match l with
  | a :: (b :: _) as l' => atan2_ltb (polar_key h b) (polar_key h a) && clockwise h l'
  | _ => true
  end.

(** The coordinates ([x], [2 * y]) of a list of tiles. *)
Definition places (h : heap) (l : list nat) : list (Z * Z) :=
  (fun i => (x_of h i, y2_of h i)) <$> l.

(** The check made on every tuple of [intersections]. *)
Definition group_ok (m : CatanMap.t) (g : list nat) : bool :=
  ascending g
  && forallb (fun i => bool_decide (i ∈ CatanMap.terrain m)
                       && negb (port_of (CatanMap.heap m) i)) g
  && cliqueb (CatanMap.heap m) g
  && bool_decide (length g ∈ [1; 2; 3]).

(** No discarded candidate in any of the three orderings. *)
Definition orderings_skip_discarded (m : CatanMap.t) : Prop :=
  forall i, i ∈ discarded m ->
    (i ∉ CatanMap.columns m) /\ (i ∉ CatanMap.spiral m) /\
    (forall g, g ∈ CatanMap.intersections m -> i ∉ g).

(** Two unlinked tiles, 0 and 1. *)
Definition two_tiles : HexMap.t :=
  (HexMap.start_hex (HexMap.start_hex HexMap.empty None).1 None).1.

(** A tile of its own, with no neighbor. *)
Definition lone_tile : HexMap.t := (HexMap.start_hex HexMap.empty None).1.

(** Any two different tiles of the group are neighbors. *)
Definition clique (h : heap) (g : list nat) : Prop :=
  forall u v, u ∈ g -> v ∈ g -> u ≠ v ->
    exists a, a ∈ Hex.angles /\ neighbor h u a = Some v.

(** All six directions around [cur] are closed to the spiral. *)
Definition dead_end (h : heap) (sp : list nat) (cur : nat) : Prop :=
  forall a, a ∈ Hex.angles -> CatanMap.blocked h sp (neighbor h cur a) = true.

(** The result of the four growths, when they all return. *)
Definition overgrown_map : HexMap.t := ok_or overgrown HexMap.empty.

(** The tiles of a list that take a number: those that are no desert. *)
Fixpoint producing (h : heap) (tiles : list nat) : nat :=
  match tiles with
  | [] => 0
  | tile :: rest =>
      if decide (terr_of h tile = "DSRT") then producing h rest
      else S (producing h rest)
  end.

Definition is_int (v : pyval) : Prop :=
  match v with
  | PInt _ => True
  | PStr _ => False
  end.

#[global] Instance is_int_dec v : Decision (is_int v).
Proof. destruct v; apply _. Defined.

(** The integer a number field holds. *)
Definition int_of (v : pyval) : Z :=
  match v with
  | PInt n => n
  | PStr _ => 0%Z
  end.

(** Nothing but tile attributes may differ between two maps: same lists,
    same class. *)
Definition same_topology (m m' : CatanMap.t) : Prop :=
  CatanMap.hexes m' = CatanMap.hexes m
  /\ CatanMap.terrain m' = CatanMap.terrain m
  /\ CatanMap.ports m' = CatanMap.ports m
  /\ CatanMap.columns m' = CatanMap.columns m
  /\ CatanMap.spiral m' = CatanMap.spiral m
  /\ CatanMap.intersections m' = CatanMap.intersections m
  /\ CatanMap.klass m' = CatanMap.klass m.

(** A generator without state whose shuffle reverses the list. *)
Definition reversing (A : Type) (g : unit) (l : list A) : list A * unit :=
  (reverse l, g).

#[global] Instance pip_rule_dec (t : Hex.t) : Decision (pip_rule t).
Proof. unfold pip_rule. destruct (Hex.num t); apply _. Defined.

(** No two tiles of the store lie on the same place. *)
Definition distinct_places (h : heap) : Prop :=
  forall i j, is_Some (h !! i) -> is_Some (h !! j) ->
    x_of h i = x_of h j -> y2_of h i = y2_of h j -> i = j.

Definition distinct_placesb (h : heap) : bool :=
  bool_decide (NoDup (places h (map_to_list h).*1)).

(** The store-level part of [sound]. *)
Definition tidy (h : heap) : Prop :=
  coherent h /\ closed h /\ pips_consistent h.

(** Same tiles, same coordinates. *)
Definition unmoved (h h' : heap) : Prop :=
  (forall i, is_Some (h' !! i) <-> is_Some (h !! i)) /\
  (forall i, x_of h' i = x_of h i /\ y2_of h' i = y2_of h i).

(** The standard board after [layout('beginner', 'beginner', 'beginner')]. *)
Definition beginner_board : CatanMap.t :=
  (ok_or (CatanMap.layout reversing 1 tt "beginner" "beginner" "beginner" [] standard_board)
         (CatanMap.fresh false, tt)).1.

(** [m] differs from [m0] in the attributes of the tiles of [hexes] and in
    the counter [tries] at most: same lists, same links, same tiles, and
    the terrain of a tile outside [hexes] as it was.  This is what the
    passes of [layout] keep. *)
Definition alike (m0 m : CatanMap.t) : Prop :=
  same_topology m0 m
  /\ (forall i b, neighbor (CatanMap.heap m) i b = neighbor (CatanMap.heap m0) i b)
  /\ (forall i, is_Some (CatanMap.heap m !! i) <-> is_Some (CatanMap.heap m0 !! i))
  /\ (forall i, i ∉ CatanMap.hexes m0 ->
        terr_of (CatanMap.heap m) i = terr_of (CatanMap.heap m0) i).

(** The list [set_numbers] deals from. *)
Definition number_source (num : string) : list pyval :=
  if decide (num = "beginner") then CatanMap.begin_num else CatanMap.standard_num.

(** A generator that counts the shuffles: the first three reverse the
    list, the later ones leave it as it is. *)
Definition three_reversals (A : Type) (g : nat) (l : list A) : list A * nat :=
  (if (g <? 3)%nat then reverse l else l, S g).

(** The board [Catan56Map(use_frame)] builds, and the sorted port
    candidates on the way there. *)
Definition board56 (use_frame : bool) : CatanMap.t :=
  ok_or (Catan56Map.init 100 use_frame) (Catan56Map.fresh use_frame).
Definition candidates56 : list nat :=
  (ok_or (Catan56Map.build_candidates HexMap.empty) (HexMap.empty, [], [])).2.

(** The tiles of a list with a given terrain. *)
Definition with_terr (h : heap) (terr : string) (tiles : list nat) : list nat :=
  filter (fun tile => terr_of h tile = terr) tiles.

(** ** Reading the object store after an update *)

Section HeapFacts.

Implicit Types (h : heap) (i j s u nb : nat) (a b : Z).

Lemma attr_alter {A} (proj : Hex.t -> A) (d : A) (f : Hex.t -> Hex.t) j h i :
  (forall t, proj (f t) = proj t) ->
  from_option proj d (alter f j h !! i) = from_option proj d (h !! i).
Proof.
  intros Hf. rewrite lookup_alter. case_decide as E; [subst i|done].
  destruct (h !! j); simpl; [apply Hf|done].
Qed.

Lemma x_of_alter (f : Hex.t -> Hex.t) j h i :
  (forall t, Hex.x (f t) = Hex.x t) -> x_of (alter f j h) i = x_of h i.
Proof. apply attr_alter. Qed.

Lemma y2_of_alter (f : Hex.t -> Hex.t) j h i :
  (forall t, Hex.y2 (f t) = Hex.y2 t) -> y2_of (alter f j h) i = y2_of h i.
Proof. apply attr_alter. Qed.

Lemma neighbor_alter (f : Hex.t -> Hex.t) j h i b :
  (forall t, Hex.neighbors (f t) = Hex.neighbors t) ->
  neighbor (alter f j h) i b = neighbor h i b.
Proof.
  intros Hf. unfold neighbor. rewrite lookup_alter.
  case_decide as E; [subst i|done].
  destruct (h !! j); simpl; [by rewrite Hf|done].
Qed.

Lemma neighbor_set_slot h j a v i b :
  neighbor (alter (Hex.set_slot a v) j h) i b =
  if decide (i = j /\ b = a) then (h !! j ≫= fun _ => v) else neighbor h i b.
Proof.
  unfold neighbor. rewrite lookup_alter.
  destruct (decide (j = i)) as [->|Hji].
  - destruct (h !! i) as [t|]; simpl.
    + destruct v as [n|]; simpl.
      * rewrite lookup_insert. repeat case_decide; destruct_and?; simplify_eq; tauto.
      * rewrite lookup_delete. repeat case_decide; destruct_and?; simplify_eq; tauto.
    + by case_decide.
  - case_decide; destruct_and?; simplify_eq; tauto.
Qed.

Lemma x_of_set_x (v : Z) j h i :
  x_of (alter (Hex.set_x v) j h) i =
  if decide (i = j /\ is_Some (h !! j)) then v else x_of h i.
Proof.
  unfold x_of. rewrite lookup_alter.
  destruct (decide (j = i)) as [->|Hji].
  - destruct (h !! i) as [t|] eqn:E; simpl.
    + rewrite decide_True; [done|split; [done|by eexists]].
    + rewrite decide_False; [done|]. intros [_ [? ?]]. done.
  - rewrite decide_False; [done|]. intros [-> _]. done.
Qed.

Lemma y2_of_set_y2 (v : Z) j h i :
  y2_of (alter (Hex.set_y2 v) j h) i =
  if decide (i = j /\ is_Some (h !! j)) then v else y2_of h i.
Proof.
  unfold y2_of. rewrite lookup_alter.
  destruct (decide (j = i)) as [->|Hji].
  - destruct (h !! i) as [t|] eqn:E; simpl.
    + rewrite decide_True; [done|split; [done|by eexists]].
    + rewrite decide_False; [done|]. intros [_ [? ?]]. done.
  - rewrite decide_False; [done|]. intros [-> _]. done.
Qed.

Lemma pips_alter (f : Hex.t -> Hex.t) j h :
  (forall t, pip_rule t -> pip_rule (f t)) ->
  pips_consistent h -> pips_consistent (alter f j h).
Proof.
  intros Hf Hh i t. rewrite lookup_alter_Some.
  intros [[-> (t0 & Ht0 & ->)]|[_ Ht]]; [apply Hf|]; by eapply Hh.
Qed.

Lemma opposite_angles a : a ∈ Hex.angles -> opposite a ∈ Hex.angles.
Proof.
  unfold Hex.angles. rewrite !elem_of_cons, elem_of_nil.
  intros H; repeat destruct H as [->|H]; try done; vm_compute; tauto.
Qed.

Lemma opposite_opposite a : a ∈ Hex.angles -> opposite (opposite a) = a.
Proof.
  unfold Hex.angles. rewrite !elem_of_cons, elem_of_nil.
  intros H; repeat destruct H as [->|H]; done.
Qed.

Lemma opposite_ne a : a ∈ Hex.angles -> opposite a ≠ a.
Proof.
  unfold Hex.angles. rewrite !elem_of_cons, elem_of_nil.
  intros H; repeat destruct H as [->|H]; done.
Qed.

Lemma angle_xy_total a : a ∈ Hex.angles -> is_Some (Hex.angle_xy !! a).
Proof.
  unfold Hex.angles. rewrite !elem_of_cons, elem_of_nil.
  intros H; repeat destruct H as [->|H]; try done; by eexists.
Qed.

(** *** [new_neighbor], field by field *)

Lemma new_neighbor_inv h s a nb h' :
  new_neighbor h s a nb = Ok h' ->
  exists dx dy, Hex.angle_xy !! a = Some (dx, dy).
Proof.
  unfold new_neighbor. destruct (Hex.angle_xy !! a) as [[dx dy]|]; [eauto|done].
Qed.

Lemma new_neighbor_total h s a nb :
  a ∈ Hex.angles -> exists h', new_neighbor h s a nb = Ok h'.
Proof.
  intros [[dx dy] E]%angle_xy_total. unfold new_neighbor. rewrite E. eauto.
Qed.

Lemma new_neighbor_dom h s a nb h' i :
  new_neighbor h s a nb = Ok h' -> is_Some (h' !! i) <-> is_Some (h !! i).
Proof.
  unfold new_neighbor. destruct (Hex.angle_xy !! a) as [[dx dy]|]; [|done].
  intros [= <-]. by rewrite !lookup_alter_is_Some.
Qed.

Lemma new_neighbor_links h s a nb h' i b :
  new_neighbor h s a nb = Ok h' ->
  neighbor h' i b =
  if decide (i = nb /\ b = opposite a) then (h !! nb ≫= fun _ => Some s)
  else if decide (i = s /\ b = a) then (h !! s ≫= fun _ => Some nb)
  else neighbor h i b.
Proof.
  unfold new_neighbor. destruct (Hex.angle_xy !! a) as [[dx dy]|]; [|done].
  intros [= <-].
  rewrite !neighbor_alter by done.
  rewrite !neighbor_set_slot.
  case_decide; [|done].
  rewrite lookup_alter. case_decide; [subst|done].
  by destruct (h !! nb).
Qed.

Lemma new_neighbor_x h s a nb h' dx dy i :
  new_neighbor h s a nb = Ok h' -> Hex.angle_xy !! a = Some (dx, dy) ->
  x_of h' i = if decide (i = nb /\ is_Some (h !! nb)) then (x_of h s + dx)%Z else x_of h i.
Proof.
  unfold new_neighbor. intros H E. rewrite E in H. injection H as <-.
  etrans; [apply x_of_alter; done|]. rewrite x_of_set_x.
  rewrite !(x_of_alter (Hex.set_slot _ _)) by done.
  destruct (decide (i = nb /\ is_Some (h !! nb))) as [[-> Hn]|Hn].
  - rewrite decide_True; [done|]. by rewrite !lookup_alter_is_Some.
  - rewrite decide_False; [done|]. by rewrite !lookup_alter_is_Some.
Qed.

Lemma new_neighbor_y2 h s a nb h' dx dy i :
  new_neighbor h s a nb = Ok h' -> Hex.angle_xy !! a = Some (dx, dy) ->
  y2_of h' i = if decide (i = nb /\ is_Some (h !! nb)) then (y2_of h s + dy)%Z else y2_of h i.
Proof.
  unfold new_neighbor. intros H E. rewrite E in H. injection H as <-.
  rewrite y2_of_set_y2.
  rewrite !(y2_of_alter (Hex.set_x _)), !(y2_of_alter (Hex.set_slot _ _)) by done.
  destruct (decide (i = nb /\ is_Some (h !! nb))) as [[-> Hn]|Hn].
  - rewrite decide_True; [done|]. by rewrite !lookup_alter_is_Some.
  - rewrite decide_False; [done|]. by rewrite !lookup_alter_is_Some.
Qed.

Lemma new_neighbor_pips h s a nb h' :
  new_neighbor h s a nb = Ok h' -> pips_consistent h -> pips_consistent h'.
Proof.
  unfold new_neighbor. destruct (Hex.angle_xy !! a) as [[dx dy]|]; [|done].
  intros [= <-] Hh. by repeat apply pips_alter.
Qed.

End HeapFacts.

(** ** Links: what [new_neighbor] and [delete_neighbors] keep *)

Section Links.

Implicit Types (h : heap) (i j s u nb : nat) (a b : Z).

Lemma new_neighbor_linked h s a nb h' :
  a ∈ Hex.angles -> is_Some (h !! s) -> is_Some (h !! nb) ->
  new_neighbor h s a nb = Ok h' ->
  neighbor h' s a = Some nb /\ neighbor h' nb (opposite a) = Some s.
Proof.
  intros Ha [ts Hs] [tn Hn] H. split.
  - rewrite (new_neighbor_links _ _ _ _ _ _ _ H).
    rewrite decide_False.
    + rewrite decide_True by done. by rewrite Hs.
    + intros [_ E]. by apply (opposite_ne a).
  - rewrite (new_neighbor_links _ _ _ _ _ _ _ H).
    rewrite decide_True by done. by rewrite Hn.
Qed.

Lemma new_neighbor_keeps_mutual h s a nb h' :
  mutual h -> a ∈ Hex.angles -> is_Some (h !! s) -> is_Some (h !! nb) ->
  free_or h s a nb -> free_or h nb (opposite a) s ->
  new_neighbor h s a nb = Ok h' -> mutual h'.
Proof.
  intros Hm Ha [ts Hs] [tn Hn] Fs Fn H i b u Hb.
  rewrite !(new_neighbor_links _ _ _ _ _ _ _ H), Hs, Hn. simpl.
  destruct (decide (i = nb /\ b = opposite a)) as [[-> ->]|N1].
  - intros [= <-]. rewrite opposite_opposite by done.
    rewrite decide_False; [by rewrite decide_True|].
    intros [_ E]. by apply (opposite_ne a).
  - destruct (decide (i = s /\ b = a)) as [[-> ->]|N2].
    + intros [= <-]. by rewrite decide_True.
    + intros Hu. pose proof (Hm _ _ _ Hb Hu) as Hback.
      destruct (decide (u = nb /\ opposite b = opposite a)) as [[-> E]|N3].
      * exfalso. rewrite E in Hback.
        destruct Fn as [F|F]; rewrite F in Hback; [done|].
        injection Hback as <-. apply N2. split; [done|].
        rewrite <- (opposite_opposite b), E by done. by apply opposite_opposite.
      * destruct (decide (u = s /\ opposite b = a)) as [[-> E]|N4]; [|done].
        exfalso. rewrite E in Hback.
        destruct Fs as [F|F]; rewrite F in Hback; [done|].
        injection Hback as <-. apply N1. split; [done|].
        rewrite <- E. by rewrite opposite_opposite.
Qed.

Lemma delete_step_keeps_mutual h s a :
  mutual h -> a ∈ Hex.angles -> mutual (delete_step s h a).
Proof.
  intros Hm Ha. unfold delete_step.
  destruct (neighbor h s a) as [target|] eqn:Ht; [|done].
  pose proof (Hm _ _ _ Ha Ht) as Hback.
  intros i b u Hb. rewrite !neighbor_set_slot.
  destruct (decide (i = s /\ b = a)) as [[-> ->]|N1].
  { by destruct (_ !! s). }
  destruct (decide (i = target /\ b = opposite a)) as [[-> ->]|N2].
  { by destruct (h !! target). }
  intros Hu. pose proof (Hm _ _ _ Hb Hu) as Hu'.
  destruct (decide (u = s /\ opposite b = a)) as [[-> E]|N3].
  { exfalso. rewrite E, Ht in Hu'. injection Hu' as <-.
    apply N2. split; [done|]. rewrite <- E. by rewrite opposite_opposite. }
  destruct (decide (u = target /\ opposite b = opposite a)) as [[-> E]|N4]; [|done].
  exfalso. rewrite E, Hback in Hu'. injection Hu' as <-.
  apply N1. split; [done|].
  rewrite <- (opposite_opposite b), E by done. by apply opposite_opposite.
Qed.

Lemma delete_neighbors_keeps_mutual h s :
  mutual h -> mutual (delete_neighbors h s).
Proof.
  unfold delete_neighbors.
  assert (forall l, Forall (fun a => a ∈ Hex.angles) l -> forall h0, mutual h0 ->
            mutual (foldl (delete_step s) h0 l)) as Hl.
  { induction l as [|a l IH]; intros Hall h0 Hm; [done|].
    inversion_clear Hall. simpl. apply IH; [done|].
    by apply delete_step_keeps_mutual. }
  apply Hl. by apply Forall_forall.
Qed.

(** After [delete_neighbors] the tile has no neighbor left, provided the
    links were mutual (a one-sided link into [s] is not found by the
    loop, but this is about the slots of [s] itself). *)
Lemma delete_step_clears h s a b :
  neighbor h s b = None \/ b = a -> neighbor (delete_step s h a) s b = None.
Proof.
  intros Hb. unfold delete_step.
  destruct (neighbor h s a) as [target|] eqn:Ht.
  - rewrite !neighbor_set_slot.
    destruct (decide (s = s /\ b = a)) as [_|N1].
    { by destruct (_ !! s). }
    destruct Hb as [Hb| ->]; [|by destruct N1].
    case_decide; [by destruct (h !! target)|done].
  - destruct Hb as [Hb| ->]; done.
Qed.

Lemma mutualb_sound h : mutualb h = true -> mutual h.
Proof.
  unfold mutualb. rewrite forallb_forall. intros Hall i a u Ha Hu.
  assert (is_Some (h !! i)) as [t Ht].
  { unfold neighbor in Hu. destruct (h !! i); [by eexists|done]. }
  assert (In i (map_to_list h).*1) as Hi.
  { apply list_elem_of_In, list_elem_of_fmap. exists (i, t).
    split; [done|]. by apply elem_of_map_to_list. }
  specialize (Hall i Hi). rewrite forallb_forall in Hall.
  apply list_elem_of_In in Ha. specialize (Hall a Ha).
  unfold slot_mutualb in Hall. rewrite Hu in Hall.
  by apply bool_decide_eq_true in Hall.
Qed.

End Links.

(** ** Coordinates: what linking keeps *)

Ltac angle_cases H :=
  unfold Hex.angles in H; rewrite !elem_of_cons, elem_of_nil in H;
  repeat destruct H as [->|H]; try done.

Section Coordinates.

Implicit Types (h : heap) (i j s u nb : nat) (a b : Z).

Lemma offset_opposite h s a nb :
  a ∈ Hex.angles -> offset_ok h s a nb -> offset_ok h nb (opposite a) s.
Proof.
  intros Ha H dx dy E.
  angle_cases Ha; vm_compute in E; injection E as <- <-;
    (edestruct H as [Hx Hy]; [vm_compute; reflexivity|]); lia.
Qed.

(** The offsets of two angles 120 apart add up to the offset of the angle
    between them: the corner step gives [join] the place it has. *)
Lemma offset_corner h self a target join :
  a ∈ Hex.angles -> offset_ok h self a target ->
  offset_ok h self ((a + 60) mod 360)%Z join ->
  offset_ok h target ((a + 120) mod 360)%Z join.
Proof.
  intros Ha Ht Hj dx dy E.
  angle_cases Ha; vm_compute in E; injection E as <- <-;
    (edestruct Ht as [Hx Hy]; [vm_compute; reflexivity|]);
    (edestruct Hj as [Hx' Hy']; [vm_compute; reflexivity|]); lia.
Qed.

Lemma corner_angles a :
  a ∈ Hex.angles ->
  ((a + 60) mod 360)%Z ∈ Hex.angles /\ ((a + 120) mod 360)%Z ∈ Hex.angles.
Proof. intros Ha. angle_cases Ha; split; compute_done. Qed.

Lemma offset_ok_ext h h' i a u :
  x_of h' i = x_of h i -> y2_of h' i = y2_of h i ->
  x_of h' u = x_of h u -> y2_of h' u = y2_of h u ->
  offset_ok h i a u -> offset_ok h' i a u.
Proof. intros E1 E2 E3 E4 H dx dy E. rewrite E1, E2, E3, E4. by apply H. Qed.

(** Linking two tiles that already sit at the right offset moves
    nothing. *)
Lemma new_neighbor_in_place h s a nb h' i :
  offset_ok h s a nb -> new_neighbor h s a nb = Ok h' ->
  x_of h' i = x_of h i /\ y2_of h' i = y2_of h i.
Proof.
  intros Hoff H. destruct (new_neighbor_inv _ _ _ _ _ H) as (dx & dy & E).
  rewrite (new_neighbor_x _ _ _ _ _ _ _ _ H E), (new_neighbor_y2 _ _ _ _ _ _ _ _ H E).
  destruct (Hoff _ _ E) as [Hx Hy].
  case_decide as D; [destruct D as [-> _]|]; done.
Qed.

Lemma new_neighbor_closed h s a nb h' :
  closed h -> is_Some (h !! s) -> is_Some (h !! nb) ->
  new_neighbor h s a nb = Ok h' -> closed h'.
Proof.
  intros Hc Hs Hn H i b u. rewrite (new_neighbor_links _ _ _ _ _ _ _ H).
  rewrite (new_neighbor_dom _ _ _ _ _ _ H).
  repeat case_decide.
  - destruct (h !! nb); simpl; [|done]. by intros [= <-].
  - destruct (h !! s); simpl; [|done]. by intros [= <-].
  - apply Hc.
Qed.

(** The corner step: [target] and [join] are neighbors of [self] 60
    apart. *)
Lemma new_neighbor_coherent_in_place h s a nb h' :
  a ∈ Hex.angles -> coherent h -> offset_ok h s a nb ->
  new_neighbor h s a nb = Ok h' -> coherent h'.
Proof.
  intros Ha Hc Hoff H i b u.
  pose proof (fun k => new_neighbor_in_place h s a nb h' k Hoff H) as Hsame.
  rewrite (new_neighbor_links _ _ _ _ _ _ _ H).
  destruct (decide (i = nb /\ b = opposite a)) as [[-> ->]|N1].
  - destruct (h !! nb); simpl; [|done]. intros [= <-].
    apply (offset_ok_ext h); try apply Hsame. by apply offset_opposite.
  - destruct (decide (i = s /\ b = a)) as [[-> ->]|N2].
    + destruct (h !! s); simpl; [|done]. intros [= <-].
      apply (offset_ok_ext h); try apply Hsame. done.
    + intros Hu. apply (offset_ok_ext h); try apply Hsame. by apply Hc.
Qed.

(** Linking a tile that nothing refers to yet. *)
Lemma new_neighbor_coherent_fresh h s a nb h' :
  a ∈ Hex.angles -> coherent h -> s ≠ nb -> is_Some (h !! nb) ->
  (forall b, neighbor h nb b = None) ->
  (forall i b, neighbor h i b ≠ Some nb) ->
  new_neighbor h s a nb = Ok h' ->
  coherent h' /\
  (forall i, i ≠ nb -> x_of h' i = x_of h i /\ y2_of h' i = y2_of h i).
Proof.
  intros Ha Hc Hne Hn Hout Hin H.
  destruct (new_neighbor_inv _ _ _ _ _ H) as (dx & dy & E).
  assert (forall i, i ≠ nb -> x_of h' i = x_of h i /\ y2_of h' i = y2_of h i) as Hsame.
  { intros i Hi.
    rewrite (new_neighbor_x _ _ _ _ _ _ _ _ H E), (new_neighbor_y2 _ _ _ _ _ _ _ _ H E).
    rewrite !decide_False; [done|by intros [? _]..]. }
  assert (offset_ok h' s a nb) as Hnew.
  { intros dx' dy' E'. rewrite E in E'. injection E' as <- <-.
    rewrite (new_neighbor_x _ _ _ _ _ _ _ _ H E), (new_neighbor_y2 _ _ _ _ _ _ _ _ H E).
    rewrite !decide_True by done.
    destruct (Hsame s Hne) as [-> ->]. done. }
  split; [|done]. intros i b u.
  rewrite (new_neighbor_links _ _ _ _ _ _ _ H).
  destruct (decide (i = nb /\ b = opposite a)) as [[-> ->]|N1].
  - destruct (h !! nb); simpl; [|done]. intros [= <-]. by apply offset_opposite.
  - destruct (decide (i = s /\ b = a)) as [[-> ->]|N2].
    + destruct (h !! s); simpl; [|done]. by intros [= <-].
    + intros Hu.
      assert (i ≠ nb) as Hi by (intros ->; by rewrite Hout in Hu).
      assert (u ≠ nb) as Hu' by (intros ->; by apply (Hin i b)).
      destruct (Hsame i Hi) as [E1 E2]. destruct (Hsame u Hu') as [E3 E4].
      apply (offset_ok_ext h); try done. by apply Hc.
Qed.

End Coordinates.

(** ** Corner propagation *)

Section Corners.

Implicit Types (h : heap) (i j s u nb : nat) (a b : Z).

Lemma unmoved_refl h : unmoved h h.
Proof. by split. Qed.

Lemma unmoved_trans h1 h2 h3 : unmoved h1 h2 -> unmoved h2 h3 -> unmoved h1 h3.
Proof.
  intros [D1 X1] [D2 X2]. split; intros i.
  - by rewrite D2, D1.
  - destruct (X1 i) as [<- <-]. apply X2.
Qed.

Lemma join_step_keeps h self a h' :
  a ∈ Hex.angles -> tidy h -> join_step self h a = Ok h' ->
  tidy h' /\ unmoved h h'.
Proof.
  intros Ha (Hco & Hcl & Hp). unfold join_step.
  destruct (neighbor h self a) as [target|] eqn:Et;
    [|intros [= <-]; split; [done|apply unmoved_refl]].
  destruct (neighbor h self ((a + 60) mod 360)%Z) as [join|] eqn:Ej;
    [|intros [= <-]; split; [done|apply unmoved_refl]].
  intros H. destruct (corner_angles a Ha) as [Ha1 Ha2].
  assert (offset_ok h target ((a + 120) mod 360)%Z join) as Hoff.
  { apply (offset_corner h self); [done|by apply Hco..]. }
  split; [split; [|split]|split].
  - by eapply new_neighbor_coherent_in_place.
  - eapply new_neighbor_closed; [done| | |done]; by eapply Hcl.
  - by eapply new_neighbor_pips.
  - intros i. by rewrite (new_neighbor_dom _ _ _ _ _ _ H).
  - intros i. by eapply new_neighbor_in_place.
Qed.

Lemma join_loop_keeps self l :
  Forall (fun a => a ∈ Hex.angles) l -> forall h h',
  tidy h -> foldM (join_step self) h l = Ok h' -> tidy h' /\ unmoved h h'.
Proof.
  induction 1 as [|a l Ha _ IH]; intros h h' Ht; simpl.
  - intros [= <-]. split; [done|apply unmoved_refl].
  - destruct (join_step self h a) as [h1|] eqn:E1; simpl; [|done].
    destruct (join_step_keeps _ _ _ _ Ha Ht E1) as [Ht1 Hu1].
    intros H. destruct (IH _ _ Ht1 H) as [Ht' Hu']. split; [done|].
    by eapply unmoved_trans.
Qed.

(** [join_neighbors] on a tidy store: nothing moves. *)
Lemma join_neighbors_keeps h self h' :
  tidy h -> join_neighbors h self = Ok h' -> tidy h' /\ unmoved h h'.
Proof. apply join_loop_keeps. by apply Forall_forall. Qed.

Lemma join_loop_total self l :
  Forall (fun a => a ∈ Hex.angles) l -> forall h,
  exists h', foldM (join_step self) h l = Ok h'.
Proof.
  induction 1 as [|a l Ha _ IH]; intros h; simpl; [by eexists|].
  assert (exists h1, join_step self h a = Ok h1) as [h1 ->].
  { unfold join_step. destruct (neighbor h self a); [|by eexists].
    destruct (neighbor h self _); [|by eexists].
    apply new_neighbor_total, corner_angles, Ha. }
  simpl. apply IH.
Qed.

End Corners.

(** ** The construction interface keeps the map sound *)

Section Growth.

Implicit Types (h : heap) (m : HexMap.t) (i j s u nb tile : nat) (a b : Z).

Lemma same_place_refl h : same_place h h.
Proof. by intros i Hi. Qed.

Lemma same_place_trans h1 h2 h3 :
  same_place h1 h2 -> same_place h2 h3 -> same_place h1 h3.
Proof.
  intros H1 H2 i Hi. destruct (H1 i Hi) as (Hi2 & <- & <-). by apply H2.
Qed.

Lemma unmoved_same_place h h' : unmoved h h' -> same_place h h'.
Proof. intros [D X] i Hi. split; [by apply D|apply X]. Qed.

Lemma neighbor_insert h j (t : Hex.t) i b :
  neighbor (<[j := t]> h) i b =
  if decide (i = j) then Hex.neighbors t !! b else neighbor h i b.
Proof.
  unfold neighbor. rewrite lookup_insert.
  destruct (decide (j = i)) as [->|N]; [by rewrite decide_True|].
  by rewrite decide_False.
Qed.

(** Allocation: the new tile is isolated and nothing else changes. *)
Lemma alloc_tidy h nb terr0 num0 port0 :
  h !! nb = None -> tidy h ->
  let h1 := <[nb := Hex.init nb terr0 num0 port0]> h in
  tidy h1 /\ same_place h h1 /\
  (forall b, neighbor h1 nb b = None) /\
  (forall i b, neighbor h1 i b ≠ Some nb).
Proof.
  intros Hfresh (Hco & Hcl & Hp) h1.
  assert (forall i, i ≠ nb -> h1 !! i = h !! i) as Hold.
  { intros i Hi. unfold h1. by rewrite lookup_insert_ne. }
  assert (forall i b u, neighbor h i b = Some u -> i ≠ nb /\ u ≠ nb) as Hin.
  { intros i b u Hu. split.
    - intros ->. unfold neighbor in Hu. by rewrite Hfresh in Hu.
    - intros ->. destruct (Hcl _ _ _ Hu) as [? E]. by rewrite Hfresh in E. }
  assert (forall b, neighbor h1 nb b = None) as Hout.
  { intros b. unfold h1. rewrite neighbor_insert, decide_True by done. done. }
  assert (forall i b, i ≠ nb -> neighbor h1 i b = neighbor h i b) as Hlinks.
  { intros i b Hi. unfold h1. by rewrite neighbor_insert, decide_False. }
  split; [split; [|split]|split; [|split]].
  - intros i b u Hu.
    destruct (decide (i = nb)) as [->|Hi]; [by rewrite Hout in Hu|].
    rewrite Hlinks in Hu by done. destruct (Hin _ _ _ Hu) as [_ Hu'].
    apply (offset_ok_ext h); unfold x_of, y2_of; rewrite ?Hold by done; try done.
    by apply Hco.
  - intros i b u Hu.
    destruct (decide (i = nb)) as [->|Hi]; [by rewrite Hout in Hu|].
    rewrite Hlinks in Hu by done. destruct (Hin _ _ _ Hu) as [_ Hu'].
    rewrite Hold by done. by eapply Hcl.
  - apply map_Forall_insert_2; [|done]. reflexivity.
  - intros i Hi. assert (i ≠ nb) as N.
    { intros ->. rewrite Hfresh in Hi. by destruct Hi. }
    unfold x_of, y2_of. by rewrite !Hold.
  - done.
  - intros i b Hu.
    destruct (decide (i = nb)) as [->|Hi]; [by rewrite Hout in Hu|].
    rewrite Hlinks in Hu by done. by destruct (Hin _ _ _ Hu).
Qed.

(** One growth: allocate [nb] and link it at a free angle of [tile]. *)
Lemma grow_one_sound m tile a p h :
  sound m -> is_Some (HexMap.heap m !! tile) -> a ∈ Hex.angles ->
  new_neighbor (HexMap.heap (HexMap.new_hex p m).2) tile a (HexMap.next_id m) = Ok h ->
  let m2 := HexMap.set_heap h (HexMap.new_hex p m).2 in
  sound m2 /\ same_place (HexMap.heap m) (HexMap.heap m2) /\
  is_Some (HexMap.heap m2 !! HexMap.next_id m).
Proof.
  intros [Hco Hcl Hids Hhex Hp] Htile Ha H m2.
  set (nb := HexMap.next_id m) in *.
  assert (HexMap.heap m !! nb = None) as Hfresh.
  { apply eq_None_not_Some. intros Hs. apply Hids in Hs. unfold nb in Hs. lia. }
  assert (tile ≠ nb) as Hne.
  { intros ->. rewrite Hfresh in Htile. by destruct Htile. }
  destruct (alloc_tidy (HexMap.heap m) nb (p_terr p) (p_num p) (p_port p) Hfresh)
    as ((Hco1 & Hcl1 & Hp1) & Hsp1 & Hout & Hin); [done|].
  simpl in H.
  assert (is_Some (<[nb := Hex.init nb (p_terr p) (p_num p) (p_port p)]>
                     (HexMap.heap m) !! nb)) as Hnb.
  { rewrite lookup_insert_eq. by eexists. }
  destruct (new_neighbor_coherent_fresh _ _ _ _ _ Ha Hco1 Hne Hnb Hout Hin H)
    as [Hco2 Hxy].
  assert (forall i, is_Some (h !! i) <-> i = nb \/ is_Some (HexMap.heap m !! i)) as Hdom.
  { intros i. rewrite (new_neighbor_dom _ _ _ _ _ _ H), lookup_insert_is_Some'.
    split; (intros [E|E]; [left; by symmetry|by right]). }
  split; [constructor|split]; simpl.
  - done.
  - eapply new_neighbor_closed; [exact Hcl1| |exact Hnb|exact H].
    apply Hsp1, Htile.
  - intros i [->|Hi]%Hdom; [lia|]. apply Hids in Hi. fold nb. lia.
  - intros i Hi. apply Hdom. right. by apply Hhex.
  - by eapply new_neighbor_pips.
  - intros i Hi. destruct (Hsp1 i Hi) as (Hi1 & <- & <-).
    assert (i ≠ nb) as N.
    { intros ->. rewrite Hfresh in Hi. by destruct Hi. }
    split; [apply Hdom; by right|]. by apply Hxy.
  - apply Hdom. by left.
Qed.

Lemma grow_loop_sound tile p angles : forall m acc m' new,
  sound m -> is_Some (HexMap.heap m !! tile) ->
  (forall i, i ∈ acc -> is_Some (HexMap.heap m !! i)) ->
  HexMap.grow_loop tile p angles m acc = Ok (m', new) ->
  sound m' /\ same_place (HexMap.heap m) (HexMap.heap m') /\
  (forall i, i ∈ new -> is_Some (HexMap.heap m' !! i)) /\
  HexMap.hexes m' = HexMap.hexes m.
Proof.
  induction angles as [|a rest IH]; intros m acc m' new Hs Htile Hacc; simpl.
  - intros [= <- <-]. split; [done|]. split; [apply same_place_refl|done].
  - case_decide as Ha; [|done].
    destruct (neighbor (HexMap.heap m) tile a) eqn:En; [by apply IH|].
    destruct (new_neighbor _ tile a (HexMap.next_id m)) as [h|] eqn:Eh; simpl; [|done].
    destruct (grow_one_sound m tile a p h Hs Htile Ha Eh) as (Hs2 & Hsp2 & Hnb).
    intros H. apply IH in H; [| done | by apply Hsp2 |].
    + destruct H as (Hs' & Hsp' & Hnew & Hhex). split; [done|].
      split; [by eapply same_place_trans|]. split; [done|]. by rewrite Hhex.
    + intros i [Hi| ->%list_elem_of_singleton]%elem_of_app; [|done].
      by apply Hsp2, Hacc.
Qed.

Lemma tidy_of_sound m : sound m -> tidy (HexMap.heap m).
Proof. by intros [? ? ? ? ?]. Qed.

Lemma grow_hex_sound m tile angles p m' new :
  sound m -> is_Some (HexMap.heap m !! tile) ->
  HexMap.grow_hex m tile angles p = Ok (m', new) ->
  sound m' /\ same_place (HexMap.heap m) (HexMap.heap m').
Proof.
  intros Hs Htile. unfold HexMap.grow_hex.
  destruct (HexMap.grow_loop _ _ _ _ _) as [[m1 new1]|] eqn:E1; simpl; [|done].
  apply grow_loop_sound in E1; [|done|done|by intros i ?%elem_of_nil].
  destruct E1 as (Hs1 & Hsp1 & Hnew & Hhex).
  destruct (join_neighbors (HexMap.heap m1) tile) as [h|] eqn:E2; simpl; [|done].
  destruct (join_neighbors_keeps _ _ _ (tidy_of_sound _ Hs1) E2)
    as ((Hco & Hcl & Hp) & Hdom & Hxy).
  intros [= <- <-]. destruct Hs1 as [_ _ Hids1 Hhex1 _].
  split; [constructor; simpl|].
  - done.
  - done.
  - intros i Hi. by apply Hids1, Hdom.
  - intros i [Hi|Hi]%elem_of_app; apply Hdom; [by apply Hhex1|by apply Hnew].
  - done.
  - eapply same_place_trans; [exact Hsp1|]. by apply unmoved_same_place.
Qed.

Lemma grow_map_loop_sound angles p snapshot : forall m acc m' new,
  sound m -> (forall i, i ∈ snapshot -> is_Some (HexMap.heap m !! i)) ->
  HexMap.grow_map_loop snapshot angles p m acc = Ok (m', new) ->
  sound m' /\ same_place (HexMap.heap m) (HexMap.heap m').
Proof.
  induction snapshot as [|tile rest IH]; intros m acc m' new Hs Hsnap; simpl.
  - intros [= <- <-]. split; [done|apply same_place_refl].
  - destruct (HexMap.grow_hex m tile angles (Some p)) as [[m1 new1]|] eqn:E1;
      simpl; [|done].
    apply grow_hex_sound in E1; [|done|apply Hsnap; by left].
    destruct E1 as [Hs1 Hsp1]. intros H. apply IH in H; [|done|].
    + destruct H as [Hs' Hsp']. split; [done|by eapply same_place_trans].
    + intros i Hi. apply Hsp1, Hsnap. by right.
Qed.

Lemma grow_map_sound m angles p m' new :
  sound m -> HexMap.grow_map m angles p = Ok (m', new) ->
  sound m' /\ same_place (HexMap.heap m) (HexMap.heap m').
Proof.
  intros Hs. apply grow_map_loop_sound; [done|]. by destruct Hs.
Qed.

Lemma start_hex_sound m p :
  sound m ->
  sound (HexMap.start_hex m p).1 /\
  same_place (HexMap.heap m) (HexMap.heap (HexMap.start_hex m p).1).
Proof.
  intros [Hco Hcl Hids Hhex Hp]. unfold HexMap.start_hex. simpl.
  set (q := HexMap.params_or_base p m).
  set (nb := HexMap.next_id m).
  assert (HexMap.heap m !! nb = None) as Hfresh.
  { apply eq_None_not_Some. intros Hs. apply Hids in Hs. unfold nb in Hs. lia. }
  destruct (alloc_tidy (HexMap.heap m) nb (p_terr q) (p_num q) (p_port q) Hfresh)
    as ((Hco1 & Hcl1 & Hp1) & Hsp1 & _ & _); [done|].
  split; [constructor; simpl|done].
  - done.
  - done.
  - intros i [<-|Hi]%lookup_insert_is_Some'; [lia|]. apply Hids in Hi. fold nb. lia.
  - intros i [Hi| ->%list_elem_of_singleton]%elem_of_app.
    + apply lookup_insert_is_Some'. right. by apply Hhex.
    + rewrite lookup_insert_eq. by eexists.
  - done.
Qed.

Lemma step_sound m m' :
  sound m -> step m m' ->
  sound m' /\ same_place (HexMap.heap m) (HexMap.heap m').
Proof.
  intros Hs Hstep.
  destruct Hstep as [m p|m tile angles p m1 new Ht H|m angles p m1 new H
                    |m tile p m1 new Ht H|m p m1 new H].
  - by apply start_hex_sound.
  - by apply (grow_hex_sound _ _ _ _ _ _ Hs Ht H).
  - by apply (grow_map_sound _ _ _ _ _ Hs H).
  - by apply (grow_hex_sound _ _ _ _ _ _ Hs Ht H).
  - by apply (grow_map_sound _ _ _ _ _ Hs H).
Qed.

Lemma empty_sound : sound HexMap.empty.
Proof.
  constructor; simpl.
  - intros i a u Hu. unfold neighbor in Hu. by rewrite lookup_empty in Hu.
  - intros i a u Hu. unfold neighbor in Hu. by rewrite lookup_empty in Hu.
  - intros i [? Hi]. by rewrite lookup_empty in Hi.
  - by intros i ?%elem_of_nil.
  - apply map_Forall_empty.
Qed.

Lemma built_sound m : built m -> sound m.
Proof.
  induction 1 as [|m m' _ IH Hstep]; [apply empty_sound|].
  by apply (step_sound m m').
Qed.

End Growth.

(** ** The standard board *)

Section Board.

Lemma ok_or_eq {A} (r : result A) (d : A) : is_ok r = true -> r = Ok (ok_or r d).
Proof. by destruct r. Qed.

Lemma left_by_eq {S A} (r : attempt S A) (e : exn) (d : S) :
  has_failed r e = true -> r = Failed e (left_by r d).
Proof.
  destruct r as [a|e' s]; simpl; [done|].
  by intros ->%bool_decide_eq_true.
Qed.

Lemma init_standard : CatanMap.init 100 false = Ok standard_board.
Proof. apply ok_or_eq. vm_compute. reflexivity. Qed.

Lemma standard_class : CatanMap.klass standard_board = CatanMap.attrs.
Proof. vm_compute. reflexivity. Qed.

Lemma standard_terrain : CatanMap.terrain standard_board = seq 0 19.
Proof. vm_compute. reflexivity. Qed.

Lemma standard_ports :
  CatanMap.ports standard_board = [20; 24; 26; 28; 30; 32; 34; 36; 21].
Proof. vm_compute. reflexivity. Qed.

Lemma standard_hexes :
  CatanMap.hexes standard_board
  = CatanMap.terrain standard_board ++ CatanMap.ports standard_board.
Proof. vm_compute. reflexivity. Qed.

Lemma standard_columns :
  CatanMap.columns standard_board
  = [7; 1; 0; 4; 14; 8; 2; 3; 13; 9; 6; 5; 15; 10; 11; 12; 18; 17; 16; 25; 35].
Proof. vm_compute. reflexivity. Qed.

Lemma standard_spiral :
  CatanMap.spiral standard_board
  = [14; 13; 12; 11; 10; 8; 7; 9; 18; 17; 16; 15; 4; 3; 2; 1; 6; 5; 0].
Proof. vm_compute. reflexivity. Qed.

Lemma arrange_intersections_spec fuel m m' :
  CatanMap.arrange fuel m = Ok m' ->
  CatanMap.intersections m'
  = list_to_set (CatanMap.all_groups (CatanMap.heap m') (CatanMap.terrain m')).
Proof.
  unfold CatanMap.arrange.
  destruct (CatanMap.arrange_columns fuel m) as [m1|]; simpl; [|done].
  destruct (CatanMap.arrange_spiral fuel m1) as [m2|]; simpl; [|done].
  by intros [= <-].
Qed.

Lemma standard_intersections :
  CatanMap.intersections standard_board
  = list_to_set (CatanMap.all_groups (CatanMap.heap standard_board)
                                     (CatanMap.terrain standard_board)).
Proof.
  pose proof init_standard as H. unfold CatanMap.init in H.
  destruct (CatanMap.build (CatanMap.fresh false)) as [m1|]; [|discriminate H].
  exact (arrange_intersections_spec _ _ _ H).
Qed.

End Board.

(** ** The bound on the loops does not matter once it is large enough *)

Section Fuel.

Implicit Types (h : heap) (f : nat).

Lemma climb_mono h angles f : forall f' cur r,
  f <= f' -> CatanMap.climb f h cur angles = Ok r ->
  CatanMap.climb f' h cur angles = Ok r.
Proof.
  induction f as [|f IH]; intros f' cur r Hle; simpl; [done|].
  destruct f' as [|f']; [lia|]. simpl.
  destruct (CatanMap.first_open h cur angles); [|done]. apply IH. lia.
Qed.

Lemma toppers_loop_mono h f : forall f' r l toppers res,
  f <= f' -> CatanMap.toppers_loop f h r l toppers = Ok res ->
  CatanMap.toppers_loop f' h r l toppers = Ok res.
Proof.
  induction f as [|f IH]; intros f' r l toppers res Hle; simpl; [done|].
  destruct f' as [|f']; [lia|]. simpl.
  destruct (neighbor h r 120), (neighbor h l 240); simpl; try done; apply IH; lia.
Qed.

Lemma descend_mono h f : forall f' cols last res,
  f <= f' -> CatanMap.descend f h cols last = Ok res ->
  CatanMap.descend f' h cols last = Ok res.
Proof.
  induction f as [|f IH]; intros f' cols last res Hle; simpl; [done|].
  destruct f' as [|f']; [lia|]. simpl.
  destruct (neighbor h last 180); [|done].
  destruct (port_of h _); [done|]. apply IH. lia.
Qed.

Lemma columns_loop_mono h f f' toppers : forall cols res,
  f <= f' ->
  foldM (fun cols topper => CatanMap.descend f h (cols ++ [topper]) topper) cols toppers
  = Ok res ->
  foldM (fun cols topper => CatanMap.descend f' h (cols ++ [topper]) topper) cols toppers
  = Ok res.
Proof.
  induction toppers as [|t toppers IH]; intros cols res Hle; simpl; [done|].
  destruct (CatanMap.descend f h (cols ++ [t]) t) as [c1|] eqn:E; simpl; [|done].
  rewrite (descend_mono h f f' _ _ _ Hle E). simpl. by apply IH.
Qed.

#[local] Arguments CatanMap.spiral_turn : simpl never.

Lemma spiral_loop_mono h n f : forall f' sp angle res,
  f <= f' -> CatanMap.spiral_loop f h n sp angle = Ok res ->
  CatanMap.spiral_loop f' h n sp angle = Ok res.
Proof.
  induction f as [|f IH]; intros f' sp angle res Hle; simpl.
  - destruct (length sp <? n) eqn:E; [done|]. intros [= <-].
    destruct f'; simpl; by rewrite E.
  - destruct f' as [|f']; [lia|]. simpl.
    destruct (length sp <? n); [|done].
    destruct (last sp); [|done].
    destruct (CatanMap.spiral_turn 6 h sp _ angle angle); simpl; [|done].
    destruct (neighbor h _ _); [|done]. apply IH. lia.
Qed.

Lemma arrange_mono f f' m m' :
  f <= f' -> CatanMap.arrange f m = Ok m' -> CatanMap.arrange f' m = Ok m'.
Proof.
  intros Hle. unfold CatanMap.arrange.
  destruct (CatanMap.arrange_columns f m) as [m1|] eqn:E1; simpl; [|done].
  assert (CatanMap.arrange_columns f' m = Ok m1) as ->.
  { revert E1. unfold CatanMap.arrange_columns.
    destruct (CatanMap.hexes m) as [|first rest]; [done|].
    destruct (CatanMap.climb f _ first _) as [top|] eqn:Ec; simpl; [|done].
    rewrite (climb_mono _ _ _ _ _ _ Hle Ec). simpl.
    destruct (neighbor _ top 120) as [r|]; [|done].
    destruct (neighbor _ top 240) as [l|]; [|done].
    destruct (CatanMap.toppers_loop f _ r l _) as [toppers|] eqn:Et; simpl; [|done].
    rewrite (toppers_loop_mono _ _ _ _ _ _ _ Hle Et). simpl.
    destruct (foldM _ _ _) as [cols|] eqn:Ef; simpl; [|done].
    by rewrite (columns_loop_mono _ _ _ _ _ _ Hle Ef). }
  simpl.
  destruct (CatanMap.arrange_spiral f m1) as [m2|] eqn:E2; simpl; [|done].
  assert (CatanMap.arrange_spiral f' m1 = Ok m2) as ->; [|done].
  revert E2. unfold CatanMap.arrange_spiral.
  destruct (CatanMap.hexes m1) as [|first rest]; [done|].
  destruct (CatanMap.climb f _ first _) as [bottom|] eqn:Ec; simpl; [|done].
  rewrite (climb_mono _ _ _ _ _ _ Hle Ec). simpl.
  destruct (CatanMap.spiral_loop f _ _ _ _) as [sp|] eqn:Es; simpl; [|done].
  by rewrite (spiral_loop_mono _ _ _ _ _ _ _ Hle Es).
Qed.

Lemma init_mono f f' use_frame m :
  f <= f' -> CatanMap.init f use_frame = Ok m -> CatanMap.init f' use_frame = Ok m.
Proof.
  intros Hle. unfold CatanMap.init.
  destruct (CatanMap.build (CatanMap.fresh use_frame)) as [m1|]; simpl; [|done].
  by apply arrange_mono.
Qed.

End Fuel.

Lemma init_standard_any fuel :
  100 <= fuel -> CatanMap.init fuel false = Ok standard_board.
Proof. intros Hle. exact (init_mono 100 fuel false _ Hle init_standard). Qed.

(** ** The port tables (C7) *)

(** C7, evaluated where it fails: [PORT_TO_TERR] sends 'BRICK' to 'HILL',
    which is no key of [TERR_TO_PORT] (the key, and the terrain name used by
    [begin_terr], is 'HILLS'); and 'HILLS' goes to 'BRICK' and from there to
    'HILL', not back to 'HILLS'.  The other four labels do round-trip. *)
Theorem port_tables_brick_hill :
  PORT_TO_TERR !! "BRICK" = Some "HILL"
  /\ TERR_TO_PORT !! "HILL" = None
  /\ TERR_TO_PORT !! "HILLS" = Some "BRICK"
  /\ (TERR_TO_PORT !! "HILLS" ≫= fun p => PORT_TO_TERR !! p) = Some "HILL"
  /\ ("HILLS" ∈ CatanMap.begin_terr) /\ ("HILL" ∉ CatanMap.begin_terr)
  /\ (forall p t, p ≠ "BRICK" -> PORT_TO_TERR !! p = Some t -> TERR_TO_PORT !! t = Some p)
  /\ (forall t p, t ≠ "HILLS" -> TERR_TO_PORT !! t = Some p -> PORT_TO_TERR !! p = Some t).
Proof.
  repeat split; try done; try compute_done.
  - intros p t Hp. unfold PORT_TO_TERR.
    rewrite !lookup_insert_Some, lookup_empty.
    intros H.
    repeat (destruct H as [[<- <-]|[_ H]]; [try done; vm_compute; reflexivity|]).
    done.
  - intros t p Ht. unfold TERR_TO_PORT.
    rewrite !lookup_insert_Some, lookup_empty.
    intros H.
    repeat (destruct H as [[<- <-]|[_ H]]; [try done; vm_compute; reflexivity|]).
    done.
Qed.

(** ** The validator factories (C8) *)

(** C8, evaluated where it fails, on any map: [good_rock] and
    [no_double_6_8] return [None], whose call raises [TypeError];
    [no_2_12] raises [NameError] before it returns anything; the function
    [no_terr_tri] returns takes no argument, so calling it with the map
    raises [TypeError].  The six other factories return a function of the
    map. *)
Theorem broken_validator_factories (catan : CatanMap.t) (n : Z) :
  make_and_call (good_rock n) catan = Raise TypeError
  /\ make_and_call no_2_12 catan = Raise NameError
  /\ make_and_call no_double_6_8 catan = Raise TypeError
  /\ make_and_call no_terr_tri catan = Raise TypeError
  /\ make_and_call (max_pip n) catan = mp_criteria n catan
  /\ make_and_call no_6_8 catan = n68_criteria catan
  /\ make_and_call no_num_pairs catan = nmp_criteria catan
  /\ make_and_call no_terr_pairs catan = nrp_criteria catan
  /\ make_and_call (max_port_pips n) catan = mpp_criteria n catan
  /\ (forall ignore, make_and_call (regions ignore) catan = reg_criteria ignore catan).
Proof. repeat split. Qed.

(** ** The construction sequence (C5) *)

(** C5: [build] starts one center tile (id 0), [surround_hex] creates the
    six tiles 1..6, the first [surround_map] the twelve tiles 7..18, so the
    terrain is the first nineteen tiles created; the second [surround_map]
    creates eighteen port candidates, which the sort puts clockwise from
    12 o'clock (first place x = 0 above the center, keys strictly
    descending); every other one is kept, which gives nine ports, all with
    the port flag, and [hexes] is the terrain followed by the kept ports. *)
Theorem build_rings_and_ports :
  CatanMap.build_start HexMap.empty = ((CatanMap.build_start HexMap.empty).1, 0)
  /\ HexMap.hexes (CatanMap.build_start HexMap.empty).1 = [0]
  /\ CatanMap.build_ring1 HexMap.empty = Ok ring1
  /\ ring1.2 = seq 1 6 /\ HexMap.hexes ring1.1 = seq 0 7
  /\ CatanMap.build_ring2 HexMap.empty = Ok ring2
  /\ ring2.2 = seq 7 12 /\ HexMap.hexes ring2.1 = seq 0 19
  /\ CatanMap.build_ring3 HexMap.empty = Ok ring3
  /\ ring3.1.2 = seq 0 19 /\ ring3.2 = seq 19 18
  /\ Forall (fun i => port_of (HexMap.heap ring3.1.1) i = true) (seq 19 18)
  /\ Forall (fun i => port_of (HexMap.heap ring3.1.1) i = false) (seq 0 19)
  /\ CatanMap.sorted_candidates HexMap.empty = Ok sorted_ring3
  /\ sorted_ring3 = [19; 20; 22; 24; 25; 26; 27; 28; 29; 30; 31; 32; 33; 34; 35; 36; 23; 21]
  /\ clockwise (HexMap.heap ring3.1.1) sorted_ring3 = true
  /\ places (HexMap.heap ring3.1.1) sorted_ring3
     = [(0, -6); (1, -5); (2, -4); (3, -3); (3, -1); (3, 1); (3, 3); (2, 4); (1, 5);
        (0, 6); (-1, 5); (-2, 4); (-3, 3); (-3, 1); (-3, -1); (-3, -3); (-2, -4);
        (-1, -5)]%Z
  /\ CatanMap.build (CatanMap.fresh false) = Ok built_board
  /\ CatanMap.terrain built_board = seq 0 19
  /\ CatanMap.ports built_board = every_other sorted_ring3
  /\ CatanMap.ports built_board = [20; 24; 26; 28; 30; 32; 34; 36; 21]
  /\ length (CatanMap.ports built_board) = 9
  /\ Forall (fun i => port_of (CatanMap.heap built_board) i = true)
            (CatanMap.ports built_board)
  /\ CatanMap.hexes built_board = CatanMap.terrain built_board ++ CatanMap.ports built_board
  /\ filter (fun i => port_of (CatanMap.heap built_board) i = true)
            (CatanMap.hexes built_board) = CatanMap.ports built_board
  /\ CatanMap.hexes standard_board = CatanMap.hexes built_board
  /\ CatanMap.terrain standard_board = CatanMap.terrain built_board
  /\ CatanMap.ports standard_board = CatanMap.ports built_board.
Proof.
  repeat apply conj;
    try (apply ok_or_eq; vm_compute; reflexivity);
    try (vm_compute; reflexivity);
    compute_done.
Qed.

(** ** The spiral (C2) *)

Section Spiral.

Lemma spiral_turn_dead_end h sp cur angle :
  angle ∈ Hex.angles -> dead_end h sp cur ->
  CatanMap.spiral_turn 6 h sp cur angle angle = Raise ValueError.
Proof.
  intros Ha Hd.
  assert (forall f a start, a ∈ Hex.angles ->
            CatanMap.spiral_turn (S f) h sp cur a start
            = if (((a - 60) mod 360)%Z =? start)%Z then Raise ValueError
              else CatanMap.spiral_turn f h sp cur ((a - 60) mod 360)%Z start) as Hstep.
  { intros f a start Hin. simpl. by rewrite (Hd a Hin). }
  angle_cases Ha;
    repeat (rewrite Hstep by compute_done;
            match goal with
            | |- context [((?a - 60) mod 360)%Z] =>
                let v := eval vm_compute in ((a - 60) mod 360)%Z in
                change ((a - 60) mod 360)%Z with v
            end;
            match goal with
            | |- context [(?a =? ?b)%Z] =>
                let v := eval vm_compute in (a =? b)%Z in
                change (a =? b)%Z with v
            end; cbv iota);
    reflexivity.
Qed.

(** Six turns are enough: the inner loop either finds a free direction
    or reports the dead end. *)
Lemma spiral_turn_total h sp cur angle :
  angle ∈ Hex.angles ->
  CatanMap.spiral_turn 6 h sp cur angle angle = Raise ValueError
  \/ exists a, a ∈ Hex.angles
               /\ CatanMap.blocked h sp (neighbor h cur a) = false
               /\ CatanMap.spiral_turn 6 h sp cur angle angle = Ok a.
Proof.
  intros Ha.
  assert (forall f a start,
            CatanMap.spiral_turn (S f) h sp cur a start
            = if CatanMap.blocked h sp (neighbor h cur a) then
                if (((a - 60) mod 360)%Z =? start)%Z then Raise ValueError
                else CatanMap.spiral_turn f h sp cur ((a - 60) mod 360)%Z start
              else Ok a) as Hstep by done.
  angle_cases Ha;
    repeat (rewrite Hstep;
            match goal with
            | |- context [CatanMap.blocked h sp (neighbor h cur ?a)] =>
                destruct (CatanMap.blocked h sp (neighbor h cur a)) eqn:?;
                [|right; eexists; split; [|split; [eassumption|reflexivity]];
                  compute_done]
            end;
            match goal with
            | |- context [((?a - 60) mod 360)%Z] =>
                let v := eval vm_compute in ((a - 60) mod 360)%Z in
                change ((a - 60) mod 360)%Z with v
            end;
            match goal with
            | |- context [(?a =? ?b)%Z] =>
                let v := eval vm_compute in (a =? b)%Z in
                change (a =? b)%Z with v
            end; cbv iota);
    by left.
Qed.

#[local] Arguments CatanMap.spiral_turn : simpl never.

Lemma spiral_loop_dead_end fuel h n sp cur angle :
  angle ∈ Hex.angles -> last sp = Some cur -> length sp < n ->
  dead_end h sp cur ->
  CatanMap.spiral_loop (S fuel) h n sp angle = Raise ValueError.
Proof.
  intros Ha Hlast Hlen Hd.
  change (CatanMap.spiral_loop (S fuel) h n sp angle)
    with (if length sp <? n then
            match last sp with
            | None => Raise IndexError
            | Some c =>
                angle1 ← CatanMap.spiral_turn 6 h sp c angle angle;
                match neighbor h c angle1 with
                | Some next => CatanMap.spiral_loop fuel h n (sp ++ [next]) angle1
                | None => Raise AttributeError
                end
            end
          else Ok sp).
  apply Nat.ltb_lt in Hlen. rewrite Hlen, Hlast.
  by rewrite (spiral_turn_dead_end h sp cur angle Ha Hd).
Qed.

Lemma spiral_loop_full fuel : forall h n sp angle sp',
  CatanMap.spiral_loop fuel h n sp angle = Ok sp' -> n <= length sp'.
Proof.
  induction fuel as [|f IH]; intros h n sp angle sp'; simpl;
    destruct (length sp <? n) eqn:E; try done;
    try (intros [= <-]; by apply Nat.ltb_ge).
  destruct (last sp); [|done].
  destruct (CatanMap.spiral_turn _ _ _ _ _ _); simpl; [|done].
  destruct (neighbor _ _ _); [|done]. apply IH.
Qed.

Lemma arrange_spiral_full fuel m m' :
  CatanMap.arrange_spiral fuel m = Ok m' ->
  CatanMap.terrain m' = CatanMap.terrain m
  /\ length (CatanMap.terrain m) <= length (CatanMap.spiral m').
Proof.
  unfold CatanMap.arrange_spiral. destruct (CatanMap.hexes m); [done|].
  destruct (CatanMap.climb _ _ _ _); simpl; [|done].
  destruct (CatanMap.spiral_loop _ _ _ _ _) as [sp|] eqn:E; simpl; [|done].
  intros [= <-]. split; [done|]. simpl. by eapply spiral_loop_full.
Qed.

End Spiral.



(** ** The intersections (C3) *)

Section Intersections.

Lemma ascending_sound g : ascending g = true -> Sorted lt g.
Proof.
  induction g as [|a [|b g] IH]; simpl; intros H.
  - constructor.
  - repeat constructor.
  - apply andb_true_iff in H as [Hab H]. apply Nat.ltb_lt in Hab.
    constructor; [by apply IH|by constructor].
Qed.

Lemma cliqueb_sound h g : cliqueb h g = true -> clique h g.
Proof.
  unfold cliqueb. rewrite forallb_forall. intros H u v Hu Hv Hne.
  apply list_elem_of_In in Hu, Hv. specialize (H u Hu).
  rewrite forallb_forall in H. specialize (H v Hv).
  apply orb_true_iff in H as [H|H].
  - by apply Nat.eqb_eq in H.
  - unfold adjacentb in H. apply existsb_exists in H as (a & Ha & H).
    exists a. split; [by apply list_elem_of_In|by apply bool_decide_eq_true in H].
Qed.

Lemma standard_groups_ok :
  forallb (group_ok standard_board)
          (CatanMap.all_groups (CatanMap.heap standard_board)
                               (CatanMap.terrain standard_board)) = true.
Proof. vm_compute. reflexivity. Qed.

End Intersections.

(** C3, refuted as stated: the tuple holding tile 7 alone is an element of
    [intersections], so not every group has size 2 or 3.  Tile 7 is the top
    corner of the terrain; its neighbors at 0 and 60 are both port
    candidates. *)
Lemma singleton_intersection :
  [7] ∈ CatanMap.intersections standard_board
  /\ ~ (forall g, g ∈ CatanMap.intersections standard_board ->
                  length g = 2 \/ length g = 3).
Proof.
  assert ([7] ∈ CatanMap.intersections standard_board) as H7.
  { rewrite standard_intersections. apply elem_of_list_to_set. compute_done. }
  split; [exact H7|]. intros H. destruct (H [7] H7) as [E|E]; discriminate E.
Qed.

(** C3, amended: every element of [intersections] of the standard board is
    a tuple in strictly ascending id order of non-port terrain tiles, any
    two of which are neighbors, and has size 1, 2 or 3; each of the three
    sizes occurs. *)
Theorem intersections_groups :
  (forall fuel, 100 <= fuel -> CatanMap.init fuel false = Ok standard_board)
  /\ CatanMap.intersections standard_board
     = list_to_set (CatanMap.all_groups (CatanMap.heap standard_board)
                                        (CatanMap.terrain standard_board))
  /\ (forall g, g ∈ CatanMap.intersections standard_board ->
        Sorted lt g
        /\ Forall (fun i => i ∈ CatanMap.terrain standard_board
                            /\ port_of (CatanMap.heap standard_board) i = false) g
        /\ clique (CatanMap.heap standard_board) g
        /\ (length g = 1 \/ length g = 2 \/ length g = 3))
  /\ [7] ∈ CatanMap.intersections standard_board
  /\ [7; 8] ∈ CatanMap.intersections standard_board
  /\ [0; 1; 2] ∈ CatanMap.intersections standard_board.
Proof.
  split; [apply init_standard_any|]. split; [apply standard_intersections|].
  split.
  - intros g. rewrite standard_intersections, elem_of_list_to_set.
    intros Hg%list_elem_of_In. pose proof standard_groups_ok as Hall.
    rewrite forallb_forall in Hall. specialize (Hall g Hg).
    unfold group_ok in Hall.
    apply andb_true_iff in Hall as [Hall Hlen].
    apply andb_true_iff in Hall as [Hall Hcl].
    apply andb_true_iff in Hall as [Hasc Hmem].
    split; [by apply ascending_sound|].
    split; [|split; [by apply cliqueb_sound|]].
    + apply Forall_forall. intros i Hi%list_elem_of_In.
      rewrite forallb_forall in Hmem. specialize (Hmem i Hi).
      apply andb_true_iff in Hmem as [H1 H2].
      split; [by apply bool_decide_eq_true in H1|by apply negb_true_iff in H2].
    + apply bool_decide_eq_true in Hlen.
      rewrite !elem_of_cons, elem_of_nil in Hlen. tauto.
  - rewrite standard_intersections, !elem_of_list_to_set.
    repeat split; compute_done.
Qed.

(** The group of the tiles 0, 1 and 2 around the center. *)
Lemma intersections_groups_witness :
  [0; 1; 2] ∈ CatanMap.intersections standard_board
  /\ Sorted lt [0; 1; 2]
  /\ clique (CatanMap.heap standard_board) [0; 1; 2]
  /\ (length [0; 1; 2] = 1 \/ length [0; 1; 2] = 2 \/ length [0; 1; 2] = 3).
Proof.
  destruct intersections_groups as (_ & _ & Hall & _ & _ & H012).
  split; [exact H012|].
  destruct (Hall [0; 1; 2] H012) as (Hs & _ & Hc & Hl).
  split; [exact Hs|]. split; [exact Hc|exact Hl].
Defined.

(** ** Discarded port candidates (C10) *)

Section Discarded.

Lemma blocked_only_port (h : heap) (sp : list nat) (u : nat) :
  u ∉ sp -> CatanMap.blocked h sp (Some u) = port_of h u.
Proof. intros Hu. simpl. by rewrite bool_decide_eq_false_2. Qed.

Lemma open_at_only_port (h : heap) (tile : nat) (a : Z) (u : nat) :
  neighbor h tile a = Some u ->
  CatanMap.open_at h tile a = if port_of h u then [] else [u].
Proof. intros Hu. unfold CatanMap.open_at. by rewrite Hu. Qed.

End Discarded.




(** ** Coordinates stay (C9) *)

Section Fixed.

Lemma steps_sound m m' :
  sound m -> rtc step m m' ->
  sound m' /\ same_place (HexMap.heap m) (HexMap.heap m').
Proof.
  intros Hs Hsteps. induction Hsteps as [m|m m1 m' H1 _ IH].
  - split; [done|apply same_place_refl].
  - destruct (step_sound m m1 Hs H1) as [Hs1 Hp1].
    destruct (IH Hs1) as [Hs' Hp']. split; [done|by eapply same_place_trans].
Qed.

Lemma new_neighbor_places (h : heap) s a nb h' dx dy :
  is_Some (h !! nb) -> Hex.angle_xy !! a = Some (dx, dy) ->
  new_neighbor h s a nb = Ok h' ->
  x_of h' nb = (x_of h s + dx)%Z /\ y2_of h' nb = (y2_of h s + dy)%Z
  /\ forall i, i ≠ nb -> x_of h' i = x_of h i /\ y2_of h' i = y2_of h i.
Proof.
  intros Hn E H.
  split; [|split].
  - rewrite (new_neighbor_x _ _ _ _ _ _ _ _ H E). by rewrite decide_True.
  - rewrite (new_neighbor_y2 _ _ _ _ _ _ _ _ H E). by rewrite decide_True.
  - intros i Hi.
    rewrite (new_neighbor_x _ _ _ _ _ _ _ _ H E), (new_neighbor_y2 _ _ _ _ _ _ _ _ H E).
    rewrite !decide_False; [done|by intros [? _]..].
Qed.

Lemma delete_neighbors_unmoved (h : heap) s : unmoved h (delete_neighbors h s).
Proof.
  unfold delete_neighbors. generalize Hex.angles. intros l. revert h.
  induction l as [|a l IH]; intros h; simpl; [apply unmoved_refl|].
  eapply unmoved_trans; [|apply IH]. unfold delete_step.
  destruct (neighbor h s a); [|apply unmoved_refl].
  split; intros i.
  - by rewrite !lookup_alter_is_Some.
  - by rewrite !x_of_alter, !y2_of_alter.
Qed.

Lemma arrange_heap fuel m m' :
  CatanMap.arrange fuel m = Ok m' -> CatanMap.heap m' = CatanMap.heap m.
Proof.
  unfold CatanMap.arrange, CatanMap.arrange_columns, CatanMap.arrange_spiral.
  destruct (CatanMap.hexes m) as [|first rest] eqn:Eh; [done|].
  destruct (CatanMap.climb fuel _ first [0; 60; 300]%Z) as [top|]; simpl; [|done].
  destruct (neighbor _ top 120); [|done]. destruct (neighbor _ top 240); [|done].
  destruct (CatanMap.toppers_loop _ _ _ _ _); simpl; [|done].
  destruct (foldM _ _ _); simpl; [|done].
  unfold CatanMap.hexes in *. simpl. rewrite Eh.
  destruct (CatanMap.climb _ _ _ _); simpl; [|done].
  destruct (CatanMap.spiral_loop _ _ _ _ _); simpl; [|done].
  by intros [= <-].
Qed.

Lemma write_terr_unmoved (l : list (nat * string)) : forall h : heap,
  unmoved h (foldl CatanMap.write_terr h l).
Proof.
  induction l as [|[tile terr] l IH]; intros h; simpl; [apply unmoved_refl|].
  eapply unmoved_trans; [|apply IH]. split; intros i.
  - unfold CatanMap.write_terr. apply lookup_alter_is_Some.
  - unfold CatanMap.write_terr. by rewrite x_of_alter, y2_of_alter.
Qed.

Lemma set_num_unmoved (h : heap) tile n : unmoved h (alter (Hex.set_num n) tile h).
Proof.
  split; intros i; [apply lookup_alter_is_Some|by rewrite x_of_alter, y2_of_alter].
Qed.

Lemma numbers_loop_unmoved tiles : forall (h : heap) numbers h',
  CatanMap.numbers_loop h tiles numbers = Done h' -> unmoved h h'.
Proof.
  induction tiles as [|tile tiles IH]; intros h numbers h'; simpl.
  - intros [= <-]. apply unmoved_refl.
  - case_decide as D.
    + intros H. eapply unmoved_trans; [apply set_num_unmoved|by eapply IH].
    + destruct numbers as [|[n|str] numbers]; simpl; [|..|done].
      * intros [= <-]. apply unmoved_refl.
      * intros H. eapply unmoved_trans; [apply set_num_unmoved|by eapply IH].
Qed.

Context {rng : Type} (shuffle : forall A : Type, rng -> list A -> list A * rng).

Lemma layout_pass_inv g num port terr m m' g' :
  CatanMap.layout_pass shuffle g num port terr m = Ok (m', g') ->
  exists rezes numbers ports1 h2,
    CatanMap.numbers_loop
      (foldl CatanMap.write_terr (CatanMap.heap m) (zip (CatanMap.columns m) rezes))
      (CatanMap.spiral m) numbers = Done h2
    /\ CatanMap.heap m' = foldl CatanMap.write_terr h2 (zip (CatanMap.ports m) ports1)
    /\ same_topology m m' /\ CatanMap.tries m' = CatanMap.tries m.
Proof.
  unfold CatanMap.layout_pass, CatanMap.set_terrain, CatanMap.set_numbers,
    CatanMap.set_ports.
  destruct (CatanMap.shuffled shuffle g terr _) as [rezes g1].
  destruct (CatanMap.shuffled shuffle g1 num _) as [numbers g2]. simpl.
  destruct (CatanMap.numbers_loop _ _ _) as [h2|] eqn:E; simpl; [|done].
  destruct (CatanMap.shuffled shuffle g2 port _) as [ports1 g3].
  intros [= <- <-]. exists rezes, numbers, ports1, h2. by repeat split.
Qed.

Lemma layout_pass_unmoved g num port terr m m' g' :
  CatanMap.layout_pass shuffle g num port terr m = Ok (m', g') ->
  unmoved (CatanMap.heap m) (CatanMap.heap m').
Proof.
  intros (rezes & numbers & ports1 & h2 & E & -> & _)%layout_pass_inv.
  eapply unmoved_trans; [apply write_terr_unmoved|].
  eapply unmoved_trans; [by eapply numbers_loop_unmoved|apply write_terr_unmoved].
Qed.

End Fixed.



(** ** Number and pips (C4) *)

Section Pips.

Lemma set_num_rule n t : pip_rule (Hex.set_num n t).
Proof. reflexivity. Qed.

Lemma set_num_read (h : heap) i n :
  is_Some (h !! i) ->
  num_of (alter (Hex.set_num n) i h) i = PInt n
  /\ pips_of (alter (Hex.set_num n) i h) i = (6 - Z.abs (7 - n))%Z.
Proof.
  intros [t Ht]. unfold num_of, pips_of. by rewrite lookup_alter_eq, Ht.
Qed.

Lemma store_num_read (h : heap) i v :
  is_Some (h !! i) ->
  num_of (alter (Hex.store_num v) i h) i = v
  /\ pips_of (alter (Hex.store_num v) i h) i = pips_of h i.
Proof.
  intros [t Ht]. unfold num_of, pips_of. by rewrite lookup_alter_eq, Ht.
Qed.

Lemma write_terr_pips (l : list (nat * string)) : forall h : heap,
  pips_consistent h -> pips_consistent (foldl CatanMap.write_terr h l).
Proof.
  induction l as [|p l IH]; intros h Hh; simpl; [done|].
  apply IH. by apply pips_alter.
Qed.

Lemma assign_num_pips (h : heap) tile v h' :
  pips_consistent h -> CatanMap.assign_num h tile v = Done h' -> pips_consistent h'.
Proof.
  intros Hh. destruct v as [n|str]; simpl; [|done].
  intros [= <-]. apply pips_alter; [|done]. intros t _. apply set_num_rule.
Qed.

(** The setter called with a string on a tile of the store: the store it
    leaves holds the string beside the pips of the number before. *)
Lemma assign_num_string (h : heap) tile str :
  is_Some (h !! tile) ->
  exists h',
    CatanMap.assign_num h tile (PStr str) = Failed TypeError h'
    /\ num_of h' tile = PStr str /\ pips_of h' tile = pips_of h tile
    /\ ~ pips_consistent h'.
Proof.
  intros [t Ht]. eexists. split; [reflexivity|].
  destruct (store_num_read h tile (PStr str)) as [Hn Hp]; [by eexists|].
  split; [exact Hn|]. split; [exact Hp|].
  intros Hall. specialize (Hall tile (Hex.store_num (PStr str) t)).
  rewrite lookup_alter_eq, Ht in Hall. by apply Hall.
Qed.

Lemma numbers_loop_pips tiles : forall (h : heap) numbers h',
  pips_consistent h -> CatanMap.numbers_loop h tiles numbers = Done h' ->
  pips_consistent h'.
Proof.
  induction tiles as [|tile tiles IH]; intros h numbers h' Hh; simpl.
  - by intros [= <-].
  - case_decide as D.
    + apply IH. apply pips_alter; [|done]. intros t _. apply set_num_rule.
    + destruct numbers as [|v numbers]; [by intros [= <-]|].
      destruct (CatanMap.assign_num h tile v) as [h1|] eqn:E; simpl; [|done].
      apply IH. by eapply assign_num_pips.
Qed.

Lemma layout_pass_pips {rng : Type}
    (shuffle : forall A : Type, rng -> list A -> list A * rng)
    g num port terr m m' g' :
  pips_consistent (CatanMap.heap m) ->
  CatanMap.layout_pass shuffle g num port terr m = Ok (m', g') ->
  pips_consistent (CatanMap.heap m').
Proof.
  intros Hh (rezes & numbers & ports1 & h2 & E & -> & _)%layout_pass_inv.
  apply write_terr_pips. eapply numbers_loop_pips; [|exact E].
  by apply write_terr_pips.
Qed.

End Pips.

(** C4, refuted as stated: there is an observable state in which [num]
    and [pips] disagree.  [CatanMap().set_numbers('beginner')] finds no
    desert on the new board, so the nineteenth tile of the spiral, tile 0,
    is given the empty string that ends [begin_num]; the setter stores it
    in [_num], the subtraction raises [TypeError], and the caller finds
    tile 0 with [num] '' beside the pips -1 of its former number 0.  Before
    the call every tile of the board satisfied the equation. *)
Lemma num_string_beside_old_pips :
  pips_consistent (CatanMap.heap standard_board)
  /\ exists m' g',
       CatanMap.set_numbers reversing tt "beginner" standard_board
       = Failed TypeError (m', g')
       /\ num_of (CatanMap.heap m') 0 = PStr ""
       /\ pips_of (CatanMap.heap m') 0 = (-1)%Z
       /\ ~ pips_consistent (CatanMap.heap m').
Proof.
  split; [unfold pips_consistent; compute_done|].
  set (r := CatanMap.set_numbers reversing tt "beginner" standard_board).
  assert (r = Failed TypeError (left_by r (CatanMap.fresh false, tt))) as E
    by (apply left_by_eq; vm_compute; reflexivity).
  assert (num_of (CatanMap.heap (left_by r (CatanMap.fresh false, tt)).1) 0 = PStr "") as En
    by (vm_compute; reflexivity).
  assert (pips_of (CatanMap.heap (left_by r (CatanMap.fresh false, tt)).1) 0 = (-1)%Z) as Ep
    by (vm_compute; reflexivity).
  destruct (left_by r (CatanMap.fresh false, tt)) as [m' g']. simpl in En, Ep.
  exists m', g'. split; [exact E|]. split; [exact En|]. split; [exact Ep|].
  intros Hall. unfold num_of in En.
  destruct (CatanMap.heap m' !! 0) as [t|] eqn:Et; [|done].
  specialize (Hall 0 t Et). unfold pip_rule in Hall. simpl in En.
  by rewrite En in Hall.
Qed.



(** ** Layout without validators (C6) *)

Section Numbers.

Implicit Types (h : heap) (tiles : list nat) (numbers : list pyval).

Lemma terr_of_set_num h j n i : terr_of (alter (Hex.set_num n) j h) i = terr_of h i.
Proof. by apply attr_alter. Qed.

Lemma producing_set_num h j n tiles :
  producing (alter (Hex.set_num n) j h) tiles = producing h tiles.
Proof.
  induction tiles as [|tile tiles IH]; simpl; [done|].
  by rewrite terr_of_set_num, IH.
Qed.

Lemma producing_desert h tiles t :
  t ∈ tiles -> terr_of h t = "DSRT" -> producing h tiles < length tiles.
Proof.
  induction tiles as [|tile tiles IH]; simpl; [by intros ?%elem_of_nil|].
  assert (producing h tiles <= length tiles) as Hle.
  { clear. induction tiles as [|u tiles IH]; simpl; [done|]. case_decide; lia. }
  intros [->|Hin]%elem_of_cons Ht.
  - rewrite decide_True by done. lia.
  - specialize (IH Hin Ht). case_decide; lia.
Qed.

(** With numbers only, [set_numbers] cannot raise: running out of numbers
    is the [StopIteration] the loop catches. *)
Lemma numbers_loop_ints tiles : forall h numbers,
  Forall is_int numbers -> exists h', CatanMap.numbers_loop h tiles numbers = Done h'.
Proof.
  induction tiles as [|tile tiles IH]; intros h numbers Hint; simpl; [by eexists|].
  case_decide as D; [by apply IH|].
  destruct Hint as [|[n|str] numbers Hv Hint]; [by eexists|simpl|done].
  by apply IH.
Qed.

(** The empty string that ends [begin_num] is not reached when the tiles
    taking a number are no more than the numbers before it. *)
Lemma numbers_loop_enough tiles : forall h ints rest,
  Forall is_int ints -> producing h tiles <= length ints ->
  exists h', CatanMap.numbers_loop h tiles (ints ++ rest) = Done h'.
Proof.
  induction tiles as [|tile tiles IH]; intros h ints rest Hint; simpl; [by eexists|].
  case_decide as D.
  - intros Hle. apply IH; [done|]. by rewrite producing_set_num.
  - intros Hle. destruct Hint as [|[n|str] ints Hv Hint]; simpl in *; [lia| |done].
    apply IH; [done|]. rewrite producing_set_num. lia.
Qed.

Lemma terr_of_write h (p : nat * string) i :
  terr_of (CatanMap.write_terr h p) i
  = if decide (i = p.1 /\ is_Some (h !! p.1)) then p.2 else terr_of h i.
Proof.
  unfold terr_of, CatanMap.write_terr. rewrite lookup_alter.
  destruct (decide (p.1 = i)) as [<-|N].
  - destruct (h !! p.1) eqn:E; simpl.
    + rewrite decide_True; [done|]. split; [done|by eexists].
    + rewrite decide_False; [done|]. intros [_ [? ?]]. done.
  - rewrite decide_False; [done|]. intros [-> _]. done.
Qed.

Lemma write_other (l : list (nat * string)) : forall h t,
  t ∉ l.*1 -> terr_of (foldl CatanMap.write_terr h l) t = terr_of h t.
Proof.
  induction l as [|p l IH]; intros h t Ht; simpl; [done|].
  rewrite fmap_cons, not_elem_of_cons in Ht. destruct Ht as [Hne Ht].
  rewrite IH by done. rewrite terr_of_write, decide_False; [done|].
  by intros [? _].
Qed.

(** [zip] pairs the j-th tile with the j-th name, and on a list without
    repeats that is the name the tile ends up with. *)
Lemma zip_write tiles : forall (vals : list string) h j t v,
  NoDup tiles -> tiles !! j = Some t -> vals !! j = Some v -> is_Some (h !! t) ->
  terr_of (foldl CatanMap.write_terr h (zip tiles vals)) t = v.
Proof.
  induction tiles as [|t0 tiles IH]; intros vals h j t v Hnd Ht Hv Hin; [done|].
  destruct vals as [|v0 vals]; [done|]. apply NoDup_cons in Hnd as [Hfresh Hnd].
  destruct j as [|j]; simpl in *.
  - injection Ht as ->. injection Hv as ->.
    rewrite write_other.
    + rewrite terr_of_write, decide_True; done.
    + intros ((t1 & v1) & -> & Hp)%list_elem_of_fmap.
      apply Hfresh. by apply elem_of_zip_l in Hp.
  - apply (IH vals _ j); try done.
    unfold CatanMap.write_terr. by apply lookup_alter_is_Some.
Qed.

Lemma standard_columns_facts :
  NoDup (CatanMap.columns standard_board)
  /\ Forall (fun t => is_Some (CatanMap.heap standard_board !! t))
            (CatanMap.columns standard_board)
  /\ Forall (fun t => t ∈ CatanMap.spiral standard_board)
            (take 19 (CatanMap.columns standard_board))
  /\ length (CatanMap.columns standard_board) = 21
  /\ length (CatanMap.spiral standard_board) = 19.
Proof. repeat apply conj; try compute_done; vm_compute; reflexivity. Qed.

(** Whatever the order of the nineteen terrain names, the desert lands on
    a tile of the spiral. *)
Lemma desert_on_spiral (rezes : list string) :
  rezes ≡ₚ CatanMap.begin_terr ->
  exists t, t ∈ CatanMap.spiral standard_board
    /\ terr_of (foldl CatanMap.write_terr (CatanMap.heap standard_board)
                      (zip (CatanMap.columns standard_board) rezes)) t = "DSRT".
Proof.
  intros Hp. destruct standard_columns_facts as (Hnd & Hin & Hsp & Hlc & _).
  assert ("DSRT" ∈ rezes) as Hd by (rewrite Hp; compute_done).
  apply list_elem_of_lookup in Hd as [j Hj].
  assert (j < 19) as Hlt.
  { apply lookup_lt_Some in Hj. apply Permutation_length in Hp.
    rewrite Hp in Hj. exact Hj. }
  destruct (lookup_lt_is_Some_2 (CatanMap.columns standard_board) j) as [t Ht]; [lia|].
  exists t. split.
  - rewrite Forall_forall in Hsp. apply Hsp, elem_of_take. eauto.
  - apply (zip_write _ _ _ j); [exact Hnd|exact Ht|exact Hj|].
    rewrite Forall_forall in Hin. apply Hin. exact (list_elem_of_lookup_2 _ _ _ Ht).
Qed.

End Numbers.

Section Acceptance.

Context {rng : Type} (shuffle : forall A : Type, rng -> list A -> list A * rng).
Hypothesis shuffle_perm : forall A g (l : list A), (shuffle A g l).1 ≡ₚ l.

Lemma shuffled_perm {A} g order (l : list A) :
  (CatanMap.shuffled shuffle g order l).1 ≡ₚ l.
Proof. unfold CatanMap.shuffled. case_decide; [apply shuffle_perm|done]. Qed.

Lemma shuffled_beginner {A} g (l : list A) :
  CatanMap.shuffled shuffle g "beginner" l = (l, g).
Proof. unfold CatanMap.shuffled. by rewrite decide_False. Qed.

(** With no validator the loop body runs once, whatever it returns. *)
Lemma layout_one_pass fuel g num port terr m :
  CatanMap.layout shuffle (S fuel) g num port terr [] m
  = CatanMap.layout_pass shuffle g num port terr (CatanMap.set_tries 0 m).
Proof.
  unfold CatanMap.layout. simpl.
  by destruct (CatanMap.layout_pass _ _ _ _ _ _) as [[m1 g1]|].
Qed.

Lemma heap_set_heap (h : heap) m : CatanMap.heap (CatanMap.set_heap h m) = h.
Proof. reflexivity. Qed.

Lemma heap_set_tries n m : CatanMap.heap (CatanMap.set_tries n m) = CatanMap.heap m.
Proof. reflexivity. Qed.

(** The pass returns on a map whose spiral has nineteen tiles, one of them
    a desert after any assignment of the terrain names. *)
Lemma pass_returns g num port terr n m :
  CatanMap.klass m = CatanMap.attrs ->
  (forall rezes, rezes ≡ₚ CatanMap.begin_terr ->
     exists t, t ∈ CatanMap.spiral m
       /\ terr_of (foldl CatanMap.write_terr (CatanMap.heap m)
                         (zip (CatanMap.columns m) rezes)) t = "DSRT") ->
  length (CatanMap.spiral m) = 19 ->
  exists m' g',
    CatanMap.layout_pass shuffle g num port terr (CatanMap.set_tries n m) = Ok (m', g')
    /\ CatanMap.tries m' = n /\ same_topology m m'.
Proof.
  intros Hk Hd Hlen.
  unfold CatanMap.layout_pass, CatanMap.set_terrain, CatanMap.set_numbers,
    CatanMap.set_ports.
  change (CatanMap.klass (CatanMap.set_tries n m)) with (CatanMap.klass m).
  rewrite Hk.
  change (CatanMap.cls_begin_terr CatanMap.attrs) with CatanMap.begin_terr.
  pose proof (shuffled_perm g terr CatanMap.begin_terr) as Hp1.
  destruct (CatanMap.shuffled shuffle g terr CatanMap.begin_terr) as [rezes g1].
  simpl in Hp1. cbn [CatanMap.klass CatanMap.set_heap CatanMap.set_base].
  cbn [CatanMap.klass CatanMap.set_tries CatanMap.spiral CatanMap.columns].
  rewrite Hk.
  change (CatanMap.cls_begin_num CatanMap.attrs) with CatanMap.begin_num.
  change (CatanMap.cls_standard_num CatanMap.attrs) with CatanMap.standard_num.
  change (CatanMap.cls_begin_port CatanMap.attrs) with CatanMap.begin_port.
  rewrite ?heap_set_heap, ?heap_set_tries.
  set (h1 := foldl CatanMap.write_terr (CatanMap.heap m) (zip (CatanMap.columns m) rezes)).
  set (src := if decide (num = "beginner") then CatanMap.begin_num
              else CatanMap.standard_num).
  pose proof (shuffled_perm g1 num src) as Hp2.
  destruct (CatanMap.shuffled shuffle g1 num src) as [numbers1 g2] eqn:E2.
  simpl in Hp2.
  assert (exists h2, CatanMap.numbers_loop h1 (CatanMap.spiral m) numbers1 = Done h2)
    as [h2 Eh].
  { destruct (decide (num = "beginner")) as [->|N].
    - rewrite shuffled_beginner in E2. injection E2 as <- <-.
      unfold src. try rewrite decide_True by done. cbv iota.
      unfold CatanMap.begin_num.
      apply numbers_loop_enough.
      + apply Forall_fmap, Forall_true. by intros z.
      + destruct (Hd rezes Hp1) as (t & Ht & Hdes).
        pose proof (producing_desert h1 _ t Ht Hdes) as Hlt.
        rewrite Hlen in Hlt. rewrite length_fmap. simpl. lia.
    - apply numbers_loop_ints. rewrite Hp2. unfold src.
      try rewrite decide_False by done. cbv iota.
      unfold CatanMap.standard_num. apply Forall_fmap, Forall_true. by intros z. }
  change (CatanMap.spiral (CatanMap.set_heap h1 (CatanMap.set_tries n m)))
    with (CatanMap.spiral m).
  rewrite Eh. simpl. rewrite ?Hk.
  destruct (CatanMap.shuffled shuffle g2 port _) as [ports1 g3].
  eexists _, _. split; [reflexivity|]. split; [reflexivity|]. by repeat split.
Qed.

End Acceptance.

(** C6: [layout] with an empty validator list runs the body of its loop
    once, for any map and any generator: [set_terrain], [set_numbers] and
    [set_ports] are applied once each, in this order, and their result is
    what [layout] returns (the model's bound on the loop only has to allow
    one turn).  On the standard board this pass raises nothing, so the
    call returns; it leaves the topology as it was and the counter [tries]
    at 0, the value [layout] gives it when there is no validator. *)
Theorem layout_without_validators
    (rng : Type) (shuffle : forall A : Type, rng -> list A -> list A * rng)
    (shuffle_perm : forall A g (l : list A), (shuffle A g l).1 ≡ₚ l) :
  (forall fuel g num port terr m,
     CatanMap.layout shuffle (S fuel) g num port terr [] m
     = (let '(m1, g1) := CatanMap.set_terrain shuffle g terr (CatanMap.set_tries 0 m) in
        '(m2, g2) ← outcome (CatanMap.set_numbers shuffle g1 num m1);
        Ok (CatanMap.set_ports shuffle g2 port m2)))
  /\ (forall fuel g num port terr,
        exists m' g',
          CatanMap.layout shuffle (S fuel) g num port terr [] standard_board = Ok (m', g')
          /\ CatanMap.tries m' = 0%Z
          /\ same_topology standard_board m').
Proof.
  split.
  - intros fuel g num port terr m. apply layout_one_pass.
  - intros fuel g num port terr. rewrite layout_one_pass.
    apply (pass_returns shuffle shuffle_perm g num port terr 0 standard_board).
    + exact standard_class.
    + exact desert_on_spiral.
    + exact (proj2 (proj2 (proj2 (proj2 standard_columns_facts)))).
Qed.

(** A generator whose shuffle reverses the list, all three modes on
    'shuffle'. *)
Lemma layout_without_validators_witness :
  (forall A g (l : list A), (reversing A g l).1 ≡ₚ l)
  /\ exists m' g',
       CatanMap.layout reversing 1 tt "shuffle" "shuffle" "shuffle" [] standard_board
       = Ok (m', g')
       /\ CatanMap.tries m' = 0%Z.
Proof.
  assert (forall A g (l : list A), (reversing A g l).1 ≡ₚ l) as Hrev.
  { intros A g l. apply reverse_Permutation. }
  split; [exact Hrev|].
  destruct (layout_without_validators unit reversing Hrev) as [_ Hret].
  destruct (Hret 0 tt "shuffle" "shuffle" "shuffle") as (m' & g' & E & Ht & _).
  exists m', g'. split; [exact E|exact Ht].
Defined.

(** ** Mutual adjacency (C1) *)

Section Overgrown.

Lemma bind_Ok {A B} (a : A) (k : A -> result B) : (Ok a ≫= k) = k a.
Proof. reflexivity. Qed.

Lemma bind_Done {S A B} (a : A) (k : A -> attempt S B) : (Done a ≫= k) = k a.
Proof. reflexivity. Qed.

Lemma delete_loop_clears s l : forall (h : heap) b,
  neighbor h s b = None \/ b ∈ l ->
  neighbor (foldl (delete_step s) h l) s b = None.
Proof.
  induction l as [|a l IH]; intros h b Hb; simpl.
  - destruct Hb as [Hb|Hb]; [done|by apply elem_of_nil in Hb].
  - apply IH. destruct Hb as [Hb|[->|Hb]%elem_of_cons].
    + left. apply delete_step_clears. by left.
    + left. apply delete_step_clears. by right.
    + by right.
Qed.

Lemma overgrown_built : overgrown = Ok overgrown_map /\ built overgrown_map.
Proof.
  pose (m0 := (HexMap.start_hex HexMap.empty None).1).
  pose (g1 := ok_or (HexMap.grow_hex m0 0 [0%Z] None) (HexMap.empty, [])).
  pose (g2 := ok_or (HexMap.grow_hex g1.1 0 [120%Z] None) (HexMap.empty, [])).
  pose (g3 := ok_or (HexMap.grow_hex g2.1 1 [120%Z] None) (HexMap.empty, [])).
  pose (g4 := ok_or (HexMap.grow_hex g3.1 2 [0%Z] None) (HexMap.empty, [])).
  assert (HexMap.grow_hex m0 0 [0%Z] None = Ok (g1.1, g1.2)) as E1.
  { rewrite <- surjective_pairing. apply ok_or_eq. vm_compute. reflexivity. }
  assert (HexMap.grow_hex g1.1 0 [120%Z] None = Ok (g2.1, g2.2)) as E2.
  { rewrite <- surjective_pairing. apply ok_or_eq. vm_compute. reflexivity. }
  assert (HexMap.grow_hex g2.1 1 [120%Z] None = Ok (g3.1, g3.2)) as E3.
  { rewrite <- surjective_pairing. apply ok_or_eq. vm_compute. reflexivity. }
  assert (HexMap.grow_hex g3.1 2 [0%Z] None = Ok (g4.1, g4.2)) as E4.
  { rewrite <- surjective_pairing. apply ok_or_eq. vm_compute. reflexivity. }
  assert (overgrown = Ok g4.1) as Hov.
  { unfold overgrown.
    change (HexMap.start_hex HexMap.empty None) with (m0, 0). cbv beta iota.
    rewrite E1, bind_Ok. cbv beta iota.
    rewrite E2, bind_Ok. cbv beta iota.
    rewrite E3, bind_Ok. cbv beta iota.
    rewrite E4, bind_Ok. reflexivity. }
  assert (overgrown_map = g4.1) as Hmap.
  { unfold overgrown_map. exact (f_equal (fun r => ok_or r HexMap.empty) Hov). }
  rewrite Hmap. split; [exact Hov|].
  eapply built_step; [|eapply (step_grow_hex _ 2); [|exact E4]; compute_done].
  eapply built_step; [|eapply (step_grow_hex _ 1); [|exact E3]; compute_done].
  eapply built_step; [|eapply (step_grow_hex _ 0); [|exact E2]; compute_done].
  eapply built_step; [|eapply (step_grow_hex _ 0); [|exact E1]; compute_done].
  eapply built_step; [apply built_empty|apply step_start_hex].
Qed.

End Overgrown.

Section Apart.

Implicit Types (h : heap) (m : HexMap.t) (i j s u nb tile : nat) (a b : Z).

Lemma distinct_places_back h h' :
  same_place h h' -> distinct_places h' -> distinct_places h.
Proof.
  intros Hsp Hd i j Hi Hj Hx Hy.
  destruct (Hsp i Hi) as (Hi' & Hxi & Hyi). destruct (Hsp j Hj) as (Hj' & Hxj & Hyj).
  apply Hd; [done|done|congruence|congruence].
Qed.

Lemma distinct_placesb_sound h : distinct_placesb h = true -> distinct_places h.
Proof.
  unfold distinct_placesb, places. intros Hnd%bool_decide_eq_true i j [ti Hi] [tj Hj] Hx Hy.
  assert (forall l : list nat, NoDup ((fun k => (x_of h k, y2_of h k)) <$> l) ->
            i ∈ l -> j ∈ l -> i = j) as Hinj.
  { induction l as [|k l IH]; [by intros _ ?%elem_of_nil|].
    rewrite fmap_cons, NoDup_cons, !elem_of_cons. intros [Hk Hl] [->|Hil] [->|Hjl].
    - done.
    - exfalso. apply Hk. apply list_elem_of_fmap. exists j. by rewrite Hx, Hy.
    - exfalso. apply Hk. apply list_elem_of_fmap. exists i. by rewrite Hx, Hy.
    - by apply IH. }
  apply (Hinj _ Hnd); apply list_elem_of_fmap.
  - exists (i, ti). split; [done|by apply elem_of_map_to_list].
  - exists (j, tj). split; [done|by apply elem_of_map_to_list].
Qed.

Lemma offset_ok_same h s a u v :
  a ∈ Hex.angles -> offset_ok h s a u -> offset_ok h s a v ->
  x_of h u = x_of h v /\ y2_of h u = y2_of h v.
Proof.
  intros [[dx dy] E]%angle_xy_total Hu Hv.
  destruct (Hu _ _ E) as [-> ->]. destruct (Hv _ _ E) as [-> ->]. done.
Qed.

(** With one tile per place the corner step finds the slots it writes
    empty or already right. *)
Lemma join_step_keeps_mutual h self a h' :
  a ∈ Hex.angles -> tidy h -> distinct_places h -> mutual h ->
  join_step self h a = Ok h' -> mutual h'.
Proof.
  intros Ha (Hco & Hcl & Hp) Hd Hm. unfold join_step.
  destruct (neighbor h self a) as [target|] eqn:Et; [|by intros [= <-]].
  destruct (neighbor h self ((a + 60) mod 360)%Z) as [join|] eqn:Ej; [|by intros [= <-]].
  destruct (corner_angles a Ha) as [Ha1 Ha2].
  assert (offset_ok h target ((a + 120) mod 360)%Z join) as Hoff.
  { apply (offset_corner h self); [done|by apply Hco..]. }
  pose proof (Hcl _ _ _ Et) as Htin. pose proof (Hcl _ _ _ Ej) as Hjin.
  apply new_neighbor_keeps_mutual; try done.
  - unfold free_or.
    destruct (neighbor h target ((a + 120) mod 360)%Z) as [other|] eqn:Eo; [|by left].
    right. f_equal. apply Hd; [by eapply Hcl|done|..];
      by apply (offset_ok_same h target ((a + 120) mod 360)%Z); [|apply Hco|].
  - unfold free_or.
    destruct (neighbor h join (opposite ((a + 120) mod 360)%Z)) as [other|] eqn:Eo;
      [|by left].
    right. f_equal. apply Hd; [by eapply Hcl|done|..];
      apply (offset_ok_same h join (opposite ((a + 120) mod 360)%Z));
      try (by apply opposite_angles); try (by apply Hco); by apply offset_opposite.
Qed.

Lemma join_loop_keeps_mutual self l :
  Forall (fun a => a ∈ Hex.angles) l -> forall h h',
  tidy h -> distinct_places h -> mutual h ->
  foldM (join_step self) h l = Ok h' -> mutual h'.
Proof.
  induction 1 as [|a l Ha _ IH]; intros h h' Ht Hd Hm; simpl.
  - by intros [= <-].
  - destruct (join_step self h a) as [h1|] eqn:E1; simpl; [|done].
    destruct (join_step_keeps _ _ _ _ Ha Ht E1) as [Ht1 [Hdom Hxy]].
    apply IH; [done| |exact (join_step_keeps_mutual h self a h1 Ha Ht Hd Hm E1)].
    intros i j Hi Hj Hx Hy. apply Hd; [by apply Hdom|by apply Hdom|..].
    + destruct (Hxy i) as [<- _]. destruct (Hxy j) as [<- _]. done.
    + destruct (Hxy i) as [_ <-]. destruct (Hxy j) as [_ <-]. done.
Qed.

(** Growth into a free slot keeps adjacency mutual. *)
Lemma grow_one_keeps_mutual m tile a p h :
  sound m -> mutual (HexMap.heap m) -> is_Some (HexMap.heap m !! tile) ->
  a ∈ Hex.angles -> neighbor (HexMap.heap m) tile a = None ->
  new_neighbor (HexMap.heap (HexMap.new_hex p m).2) tile a (HexMap.next_id m) = Ok h ->
  mutual h.
Proof.
  intros [Hco Hcl Hids Hhex Hp] Hm Htile Ha Hfree H. simpl in H.
  set (nb := HexMap.next_id m) in *.
  assert (HexMap.heap m !! nb = None) as Hfresh.
  { apply eq_None_not_Some. intros Hs. apply Hids in Hs. unfold nb in Hs. lia. }
  assert (tile ≠ nb) as Hne.
  { intros ->. rewrite Hfresh in Htile. by destruct Htile. }
  set (h1 := <[nb := Hex.init nb (p_terr p) (p_num p) (p_port p)]> (HexMap.heap m)) in *.
  assert (forall i b, neighbor h1 i b = if decide (i = nb) then None
                                         else neighbor (HexMap.heap m) i b) as Hl.
  { intros i b. unfold h1. rewrite neighbor_insert. by case_decide. }
  assert (forall i b u, neighbor (HexMap.heap m) i b = Some u -> i ≠ nb /\ u ≠ nb) as Hin.
  { intros i b u Hu. split.
    - intros ->. unfold neighbor in Hu. by rewrite Hfresh in Hu.
    - intros ->. destruct (Hcl _ _ _ Hu) as [? E]. by rewrite Hfresh in E. }
  apply (new_neighbor_keeps_mutual h1 tile a nb h); try done.
  - intros i b u Hb. rewrite !Hl. case_decide; [done|]. intros Hu.
    destruct (Hin _ _ _ Hu) as [_ Hu']. rewrite decide_False by done. by apply Hm.
  - unfold h1. rewrite lookup_insert_ne by done. done.
  - unfold h1. rewrite lookup_insert_eq. by eexists.
  - left. by rewrite Hl, decide_False.
  - left. by rewrite Hl, decide_True.
Qed.

Lemma grow_loop_keeps_mutual tile p angles : forall m acc m' new,
  sound m -> mutual (HexMap.heap m) -> is_Some (HexMap.heap m !! tile) ->
  HexMap.grow_loop tile p angles m acc = Ok (m', new) ->
  mutual (HexMap.heap m').
Proof.
  induction angles as [|a rest IH]; intros m acc m' new Hs Hm Htile; simpl.
  - by intros [= <- <-].
  - case_decide as Ha; [|done].
    destruct (neighbor (HexMap.heap m) tile a) eqn:En; [by apply IH|].
    destruct (new_neighbor _ tile a (HexMap.next_id m)) as [h|] eqn:Eh; simpl; [|done].
    destruct (grow_one_sound m tile a p h Hs Htile Ha Eh) as (Hs2 & Hsp2 & Hnb).
    apply IH; [done| |by apply Hsp2].
    by apply (grow_one_keeps_mutual m tile a p h).
Qed.

Lemma grow_hex_keeps_mutual m tile angles p m' new :
  sound m -> mutual (HexMap.heap m) -> is_Some (HexMap.heap m !! tile) ->
  HexMap.grow_hex m tile angles p = Ok (m', new) ->
  distinct_places (HexMap.heap m') -> mutual (HexMap.heap m').
Proof.
  intros Hs Hm Htile. unfold HexMap.grow_hex.
  destruct (HexMap.grow_loop _ _ _ _ _) as [[m1 new1]|] eqn:E1; simpl; [|done].
  pose proof (grow_loop_keeps_mutual _ _ _ _ _ _ _ Hs Hm Htile E1) as Hm1.
  apply grow_loop_sound in E1; [|done|done|by intros i ?%elem_of_nil].
  destruct E1 as (Hs1 & Hsp1 & Hnew & Hhex).
  destruct (join_neighbors (HexMap.heap m1) tile) as [h|] eqn:E2; simpl; [|done].
  intros [= <- <-]. simpl. intros Hd.
  destruct (join_neighbors_keeps _ _ _ (tidy_of_sound _ Hs1) E2) as [_ Hun].
  eapply (join_loop_keeps_mutual tile Hex.angles); [by apply Forall_forall| | | |exact E2].
  - by apply tidy_of_sound.
  - eapply distinct_places_back; [|exact Hd]. by apply unmoved_same_place.
  - done.
Qed.

Lemma grow_map_loop_keeps_mutual angles p snapshot : forall m acc m' new,
  sound m -> mutual (HexMap.heap m) ->
  (forall i, i ∈ snapshot -> is_Some (HexMap.heap m !! i)) ->
  HexMap.grow_map_loop snapshot angles p m acc = Ok (m', new) ->
  distinct_places (HexMap.heap m') -> mutual (HexMap.heap m').
Proof.
  induction snapshot as [|tile rest IH]; intros m acc m' new Hs Hm Hsnap; simpl.
  - by intros [= <- <-].
  - destruct (HexMap.grow_hex m tile angles (Some p)) as [[m1 new1]|] eqn:E1;
      simpl; [|done].
    assert (is_Some (HexMap.heap m !! tile)) as Htile by (apply Hsnap; by left).
    destruct (grow_hex_sound _ _ _ _ _ _ Hs Htile E1) as [Hs1 Hsp1].
    intros H Hd.
    destruct (grow_map_loop_sound _ _ _ _ _ _ _ Hs1
                (fun i Hi => proj1 (Hsp1 i (Hsnap i (list_elem_of_further _ _ _ Hi)))) H)
      as [_ Hsp'].
    eapply IH; [exact Hs1| | |exact H|exact Hd].
    + eapply grow_hex_keeps_mutual; [exact Hs|exact Hm|exact Htile|exact E1|].
      by eapply distinct_places_back.
    + intros i Hi. apply Hsp1, Hsnap. by right.
Qed.

Lemma start_hex_keeps_mutual m p :
  sound m -> mutual (HexMap.heap m) -> mutual (HexMap.heap (HexMap.start_hex m p).1).
Proof.
  intros [Hco Hcl Hids Hhex Hp] Hm. unfold HexMap.start_hex. simpl.
  set (nb := HexMap.next_id m).
  assert (HexMap.heap m !! nb = None) as Hfresh.
  { apply eq_None_not_Some. intros Hs. apply Hids in Hs. unfold nb in Hs. lia. }
  intros i b u Hb. rewrite !neighbor_insert.
  case_decide; [done|]. intros Hu.
  rewrite decide_False; [by apply Hm|].
  intros ->. destruct (Hcl _ _ _ Hu) as [? E]. by rewrite Hfresh in E.
Qed.

Lemma step_keeps_mutual m m' :
  sound m -> mutual (HexMap.heap m) -> step m m' ->
  distinct_places (HexMap.heap m') -> mutual (HexMap.heap m').
Proof.
  intros Hs Hm Hstep.
  destruct Hstep as [m p|m tile angles p m1 new Ht H|m angles p m1 new H
                    |m tile p m1 new Ht H|m p m1 new H].
  - intros _. by apply start_hex_keeps_mutual.
  - by apply (grow_hex_keeps_mutual _ _ _ _ _ _ Hs Hm Ht H).
  - eapply grow_map_loop_keeps_mutual; [exact Hs|exact Hm|by destruct Hs|exact H].
  - by apply (grow_hex_keeps_mutual _ _ _ _ _ _ Hs Hm Ht H).
  - eapply grow_map_loop_keeps_mutual; [exact Hs|exact Hm|by destruct Hs|exact H].
Qed.

(** A map built with one tile per place has mutual adjacency. *)
Lemma built_apart_mutual m :
  built m -> distinct_places (HexMap.heap m) -> mutual (HexMap.heap m).
Proof.
  induction 1 as [|m m' Hb IH Hstep]; intros Hd.
  - intros i a u _ Hu. unfold neighbor in Hu. simpl in Hu.
    by rewrite lookup_empty in Hu.
  - pose proof (built_sound m Hb) as Hs.
    destruct (step_sound m m' Hs Hstep) as [_ Hsp].
    apply (step_keeps_mutual m m' Hs); [|done|done].
    apply IH. by eapply distinct_places_back.
Qed.

Lemma write_terr_links (l : list (nat * string)) : forall h i b,
  neighbor (foldl CatanMap.write_terr h l) i b = neighbor h i b.
Proof.
  induction l as [|p l IH]; intros h i b; simpl; [done|].
  rewrite IH. unfold CatanMap.write_terr. by apply neighbor_alter.
Qed.

Lemma numbers_loop_links tiles : forall h numbers h' i b,
  CatanMap.numbers_loop h tiles numbers = Done h' -> neighbor h' i b = neighbor h i b.
Proof.
  induction tiles as [|tile tiles IH]; intros h numbers h' i b; simpl.
  - by intros [= <-].
  - case_decide as D.
    + intros H. rewrite (IH _ _ _ _ _ H). by apply neighbor_alter.
    + destruct numbers as [|[n|str] numbers]; simpl; [by intros [= <-]| |done].
      intros H. rewrite (IH _ _ _ _ _ H). by apply neighbor_alter.
Qed.

Lemma layout_pass_links {rng : Type}
    (shuffle : forall A : Type, rng -> list A -> list A * rng)
    g num port terr (m m' : CatanMap.t) g' i b :
  CatanMap.layout_pass shuffle g num port terr m = Ok (m', g') ->
  neighbor (CatanMap.heap m') i b = neighbor (CatanMap.heap m) i b.
Proof.
  intros (rezes & numbers & ports1 & h2 & E & -> & _)%layout_pass_inv.
  by rewrite write_terr_links, (numbers_loop_links _ _ _ _ _ _ E), write_terr_links.
Qed.

End Apart.

(** C1, refuted as stated: four calls of [grow_hex] after [start_hex]
    reach a map in which tile 3 has tile 0 at angle 240 while tile 0 has
    tile 4, not tile 3, at angle 60.  Tile 4 was grown from tile 2 onto the
    place tile 3 already had (2 and 3 were not linked; both tiles are at
    x = 1, y = -0.5), and the corner step of that growth overwrote the slot
    of tile 0 without clearing the back link of tile 3. *)
Lemma overgrown_breaks_mutual :
  overgrown = Ok overgrown_map
  /\ built overgrown_map
  /\ HexMap.hexes overgrown_map = [0; 1; 2; 3; 4]
  /\ neighbor (HexMap.heap overgrown_map) 3 240 = Some 0
  /\ neighbor (HexMap.heap overgrown_map) 0 (opposite 240) = Some 4
  /\ places (HexMap.heap overgrown_map) [3; 4] = [(1, -1); (1, -1)]%Z
  /\ ~ mutual (HexMap.heap overgrown_map).
Proof.
  destruct overgrown_built as [Hov Hb].
  assert (neighbor (HexMap.heap overgrown_map) 3 240 = Some 0) as H3
    by (vm_compute; reflexivity).
  assert (neighbor (HexMap.heap overgrown_map) 0 (opposite 240) = Some 4) as H0
    by (vm_compute; reflexivity).
  split; [exact Hov|]. split; [exact Hb|].
  split; [vm_compute; reflexivity|]. split; [exact H3|]. split; [exact H0|].
  split; [vm_compute; reflexivity|].
  intros Hm. assert (240%Z ∈ Hex.angles) as Ha by compute_done.
  specialize (Hm 3 240%Z 0 Ha H3). rewrite H0 in Hm. discriminate Hm.
Qed.

(** C1, amended: adjacency is mutual as long as no link overwrites a slot
    held by another tile.  [new_neighbor] links the two tiles both ways,
    and keeps adjacency mutual when the slot it writes on either tile is
    empty or already holds the other tile; [delete_neighbors] keeps it and
    leaves the tile without neighbors; every map the construction
    interface ([start_hex], [grow_hex], [grow_map], [surround_hex],
    [surround_map]) reaches with no two tiles on one place has mutual
    adjacency; a layout pass changes no link.  The standard board has one
    tile per place, and adjacency is mutual for every tile of its store,
    the left-out port candidates included, after [start_hex], after
    [surround_hex], after each [surround_map] and in the finished map. *)
Theorem mutual_adjacency_without_overwrite :
  (forall (h : heap) s a nb h',
      a ∈ Hex.angles -> is_Some (h !! s) -> is_Some (h !! nb) ->
      new_neighbor h s a nb = Ok h' ->
      neighbor h' s a = Some nb /\ neighbor h' nb (opposite a) = Some s)
  /\ (forall (h : heap) s a nb h',
        mutual h -> a ∈ Hex.angles -> is_Some (h !! s) -> is_Some (h !! nb) ->
        free_or h s a nb -> free_or h nb (opposite a) s ->
        new_neighbor h s a nb = Ok h' -> mutual h')
  /\ (forall (h : heap) s,
        mutual h ->
        mutual (delete_neighbors h s)
        /\ forall a, a ∈ Hex.angles -> neighbor (delete_neighbors h s) s a = None)
  /\ (forall m, built m -> distinct_places (HexMap.heap m) -> mutual (HexMap.heap m))
  /\ (forall (rng : Type) (shuffle : forall A : Type, rng -> list A -> list A * rng)
             g num port terr m m' g',
        mutual (CatanMap.heap m) ->
        CatanMap.layout_pass shuffle g num port terr m = Ok (m', g') ->
        mutual (CatanMap.heap m'))
  /\ distinct_places (CatanMap.heap standard_board)
  /\ mutual (HexMap.heap (CatanMap.build_start HexMap.empty).1)
  /\ mutual (HexMap.heap ring1.1)
  /\ mutual (HexMap.heap ring2.1)
  /\ mutual (HexMap.heap ring3.1.1)
  /\ mutual (CatanMap.heap built_board)
  /\ mutual (CatanMap.heap standard_board).
Proof.
  split; [apply new_neighbor_linked|].
  split; [apply new_neighbor_keeps_mutual|].
  split.
  { intros h s Hm. split; [by apply delete_neighbors_keeps_mutual|].
    intros a Ha. apply delete_loop_clears. by right. }
  split; [apply built_apart_mutual|].
  split.
  { intros rng shuffle g num port terr m m' g' Hm Hpass i b u Hb.
    rewrite !(layout_pass_links shuffle _ _ _ _ _ _ _ _ _ Hpass). by apply Hm. }
  split; [apply distinct_placesb_sound; vm_compute; reflexivity|].
  repeat apply conj; apply mutualb_sound; vm_compute; reflexivity.
Qed.

(** Linking the two tiles of [two_tiles], neither of which has a
    neighbor. *)
Lemma mutual_adjacency_witness :
  exists h', new_neighbor (HexMap.heap two_tiles) 0 0 1 = Ok h'
             /\ mutual h'
             /\ neighbor h' 0 0 = Some 1 /\ neighbor h' 1 (opposite 0) = Some 0.
Proof.
  eexists. split; [reflexivity|].
  destruct mutual_adjacency_without_overwrite as (Hlink & Hkeep & _).
  assert (mutual (HexMap.heap two_tiles)) as Hm
    by (apply mutualb_sound; vm_compute; reflexivity).
  assert ((0%Z : Z) ∈ Hex.angles) as Ha by compute_done.
  assert (is_Some (HexMap.heap two_tiles !! 0)) as H0 by compute_done.
  assert (is_Some (HexMap.heap two_tiles !! 1)) as H1 by compute_done.
  split.
  - apply (Hkeep (HexMap.heap two_tiles) 0 0%Z 1 _ Hm Ha H0 H1);
      [left; vm_compute; reflexivity|left; vm_compute; reflexivity|reflexivity].
  - apply (Hlink (HexMap.heap two_tiles) 0 0%Z 1 _ Ha H0 H1). reflexivity.
Defined.

(** ** Growth: errors, fresh ids, occupied slots *)

Section GrowthMore.

Implicit Types (h : heap) (m : HexMap.t) (i j s u nb tile : nat) (a b : Z).

Lemma angle_xy_None a : a ∉ Hex.angles -> Hex.angle_xy !! a = None.
Proof.
  unfold Hex.angles, Hex.angle_xy. rewrite !not_elem_of_cons.
  intros (? & ? & ? & ? & ? & ? & _).
  rewrite !lookup_insert_ne by done. apply lookup_empty.
Qed.

Lemma new_neighbor_invalid h s a nb :
  a ∉ Hex.angles -> new_neighbor h s a nb = Raise KeyError.
Proof. intros Ha. unfold new_neighbor. by rewrite (angle_xy_None a Ha). Qed.

Lemma grow_loop_total tile p angles :
  Forall (fun a => a ∈ Hex.angles) angles -> forall m acc,
  exists m' new, HexMap.grow_loop tile p angles m acc = Ok (m', new).
Proof.
  induction 1 as [|a angles Ha _ IH]; intros m acc; simpl; [by eexists _, _|].
  rewrite decide_True by done.
  destruct (neighbor (HexMap.heap m) tile a); [apply IH|].
  destruct (new_neighbor_total
              (<[HexMap.next_id m := Hex.init (HexMap.next_id m) (p_terr p) (p_num p)
                                              (p_port p)]> (HexMap.heap m))
              tile a (HexMap.next_id m) Ha) as [h' ->].
  simpl. apply IH.
Qed.

Lemma grow_loop_invalid tile p angles :
  ~ Forall (fun a => a ∈ Hex.angles) angles -> forall m acc,
  HexMap.grow_loop tile p angles m acc = Raise KeyError.
Proof.
  induction angles as [|a angles IH]; intros Hbad m acc; simpl.
  - destruct Hbad. constructor.
  - case_decide as Ha; [|done].
    assert (~ Forall (fun a => a ∈ Hex.angles) angles) as Hrest.
    { intros Hall. apply Hbad. by constructor. }
    destruct (neighbor (HexMap.heap m) tile a); [by apply IH|].
    destruct (new_neighbor_total
                (<[HexMap.next_id m := Hex.init (HexMap.next_id m) (p_terr p) (p_num p)
                                                (p_port p)]> (HexMap.heap m))
                tile a (HexMap.next_id m) Ha) as [h' ->].
    simpl. by apply IH.
Qed.

Lemma join_neighbors_total h self : exists h', join_neighbors h self = Ok h'.
Proof. apply join_loop_total. by apply Forall_forall. Qed.

Lemma join_loop_dom self l : forall h h' i,
  foldM (join_step self) h l = Ok h' -> is_Some (h' !! i) <-> is_Some (h !! i).
Proof.
  induction l as [|a l IH]; intros h h' i; simpl; [by intros [= <-]|].
  destruct (join_step self h a) as [h1|] eqn:E1; simpl; [|done].
  intros H. rewrite (IH _ _ _ H). unfold join_step in E1.
  destruct (neighbor h self a); [|by injection E1 as <-].
  destruct (neighbor h self _); [|by injection E1 as <-].
  by apply (new_neighbor_dom _ _ _ _ _ _ E1).
Qed.

(** The tiles a growth loop creates carry the next ids in order. *)
Lemma grow_loop_ids tile p angles : forall m acc m' new,
  HexMap.grow_loop tile p angles m acc = Ok (m', new) ->
  exists k,
    new = acc ++ seq (HexMap.next_id m) k
    /\ k <= length angles
    /\ HexMap.next_id m' = HexMap.next_id m + k
    /\ HexMap.hexes m' = HexMap.hexes m
    /\ HexMap.base_params m' = HexMap.base_params m
    /\ forall i, is_Some (HexMap.heap m' !! i) <->
         is_Some (HexMap.heap m !! i)
         \/ (HexMap.next_id m <= i /\ i < HexMap.next_id m + k).
Proof.
  induction angles as [|a angles IH]; intros m acc m' new; simpl.
  - intros [= <- <-]. exists 0. rewrite app_nil_r, Nat.add_0_r.
    repeat split; try done. + by left. + intros [?|?]; [done|lia].
  - case_decide as Ha; [|done].
    destruct (neighbor (HexMap.heap m) tile a).
    { intros H. apply IH in H as (k & ? & ? & ?). exists k. split; [done|].
      split; [lia|done]. }
    destruct (new_neighbor _ tile a (HexMap.next_id m)) as [h|] eqn:Eh; simpl; [|done].
    intros H. apply IH in H as (k & -> & Hk & Hid & Hhex & Hbase & Hdom). simpl in *.
    exists (S k). rewrite <- app_assoc. simpl.
    split; [done|]. split; [lia|]. split; [lia|]. split; [done|]. split; [done|].
    intros i. rewrite Hdom, (new_neighbor_dom _ _ _ _ _ _ Eh), lookup_insert_is_Some'.
    split.
    + intros [[<-|?]|?]; [right; lia|by left|right; lia].
    + intros [?|?]; [by left; right|].
      destruct (decide (HexMap.next_id m = i)); [by left; left|right; lia].
Qed.

Lemma grow_hex_ids m tile angles p m' new :
  HexMap.grow_hex m tile angles p = Ok (m', new) ->
  new = seq (HexMap.next_id m) (length new)
  /\ length new <= length angles
  /\ HexMap.next_id m' = HexMap.next_id m + length new
  /\ HexMap.hexes m' = HexMap.hexes m ++ new
  /\ HexMap.base_params m' = HexMap.base_params m
  /\ forall i, is_Some (HexMap.heap m' !! i) <->
       is_Some (HexMap.heap m !! i) \/ i ∈ new.
Proof.
  unfold HexMap.grow_hex.
  destruct (HexMap.grow_loop _ _ _ _ _) as [[m1 new1]|] eqn:E1; simpl; [|done].
  apply grow_loop_ids in E1 as (k & -> & Hk & Hid & Hhex & Hbase & Hdom).
  destruct (join_neighbors (HexMap.heap m1) tile) as [h|] eqn:E2; simpl; [|done].
  intros [= <- <-]. simpl. rewrite length_seq.
  split; [done|]. split; [done|]. split; [done|]. split; [by rewrite Hhex|].
  split; [done|]. intros i.
  rewrite (join_loop_dom _ _ _ _ i E2), Hdom, elem_of_seq. done.
Qed.

Lemma grow_hex_total m tile angles p :
  Forall (fun a => a ∈ Hex.angles) angles ->
  exists m' new, HexMap.grow_hex m tile angles p = Ok (m', new).
Proof.
  intros Hall. unfold HexMap.grow_hex.
  destruct (grow_loop_total tile (HexMap.params_or_base p m) angles Hall m [])
    as (m1 & new1 & ->). simpl.
  destruct (join_neighbors_total (HexMap.heap m1) tile) as [h ->]. simpl.
  by eexists _, _.
Qed.

Lemma grow_hex_invalid m tile angles p :
  ~ Forall (fun a => a ∈ Hex.angles) angles ->
  HexMap.grow_hex m tile angles p = Raise KeyError.
Proof.
  intros Hbad. unfold HexMap.grow_hex. by rewrite grow_loop_invalid.
Qed.

Lemma grow_map_loop_ids angles p snapshot : forall m acc m' new,
  HexMap.grow_map_loop snapshot angles p m acc = Ok (m', new) ->
  exists k,
    new = acc ++ seq (HexMap.next_id m) k
    /\ HexMap.next_id m' = HexMap.next_id m + k
    /\ HexMap.hexes m' = HexMap.hexes m ++ seq (HexMap.next_id m) k
    /\ forall i, is_Some (HexMap.heap m' !! i) <->
         is_Some (HexMap.heap m !! i)
         \/ (HexMap.next_id m <= i /\ i < HexMap.next_id m + k).
Proof.
  induction snapshot as [|tile rest IH]; intros m acc m' new; simpl.
  - intros [= <- <-]. exists 0. rewrite !app_nil_r, Nat.add_0_r.
    repeat split; try done. + by left. + intros [?|?]; [done|lia].
  - destruct (HexMap.grow_hex m tile angles (Some p)) as [[m1 new1]|] eqn:E1;
      simpl; [|done].
    apply grow_hex_ids in E1 as (Hnew & _ & Hid & Hhex & _ & Hdom).
    intros H. apply IH in H as (k & -> & Hid' & Hhex' & Hdom').
    exists (length new1 + k). rewrite seq_app, <- Hnew, Hid.
    split; [by rewrite app_assoc|]. split; [lia|].
    split; [by rewrite Hhex', Hhex, Hid, app_assoc|].
    intros i. rewrite Hdom', Hdom, Hid, Hnew at 1. rewrite elem_of_seq. 
    split; [intros [[?|?]|?]|intros [?|?]]; try (by left; left); try (right; lia).
    + by left.
    + destruct (decide (i < HexMap.next_id m + length new1)); [left; right; lia|right; lia].
Qed.

Lemma grow_map_total m angles p :
  Forall (fun a => a ∈ Hex.angles) angles ->
  exists m' new, HexMap.grow_map m angles p = Ok (m', new).
Proof.
  intros Hall. unfold HexMap.grow_map.
  generalize (HexMap.params_or_base p m) as q. generalize (@nil nat) as acc.
  generalize (HexMap.hexes m) as snapshot. intros snapshot. revert m.
  induction snapshot as [|tile rest IH]; intros m acc q; simpl; [by eexists _, _|].
  destruct (grow_hex_total m tile angles (Some q) Hall) as (m1 & new1 & ->). simpl.
  apply IH.
Qed.

End GrowthMore.



(** X2: [grow_hex] and [grow_map] return exactly the tiles they created:
    these carry the next free ids in order, [next_id] advances by their
    number, [hexes] is extended by them at its end, and the store gains
    them and nothing else.  [grow_hex] creates at most one tile per angle
    asked for. *)
Theorem growth_returns_new_tiles :
  (forall m tile angles p m' new,
     HexMap.grow_hex m tile angles p = Ok (m', new) ->
     new = seq (HexMap.next_id m) (length new)
     /\ length new <= length angles
     /\ HexMap.next_id m' = HexMap.next_id m + length new
     /\ HexMap.hexes m' = HexMap.hexes m ++ new
     /\ forall i, is_Some (HexMap.heap m' !! i) <->
          is_Some (HexMap.heap m !! i) \/ i ∈ new)
  /\ (forall m angles p m' new,
        HexMap.grow_map m angles p = Ok (m', new) ->
        new = seq (HexMap.next_id m) (length new)
        /\ HexMap.next_id m' = HexMap.next_id m + length new
        /\ HexMap.hexes m' = HexMap.hexes m ++ new
        /\ forall i, is_Some (HexMap.heap m' !! i) <->
             is_Some (HexMap.heap m !! i) \/ i ∈ new).
Proof.
  split.
  - intros m tile angles p m' new H.
    destruct (grow_hex_ids _ _ _ _ _ _ H) as (H1 & H2 & H3 & H4 & _ & H5). done.
  - intros m angles p m' new H. unfold HexMap.grow_map in H.
    apply grow_map_loop_ids in H as (k & -> & Hid & Hhex & Hdom). simpl.
    rewrite length_seq. split; [done|]. split; [done|]. split; [done|].
    intros i. by rewrite Hdom, elem_of_seq.
Qed.

(** The ring around the first tile. *)
Lemma growth_returns_witness :
  HexMap.grow_hex lone_tile 0 Hex.angles None = Ok (ring1.1, ring1.2)
  /\ ring1.2 = seq (HexMap.next_id lone_tile) (length ring1.2)
  /\ HexMap.hexes ring1.1 = HexMap.hexes lone_tile ++ ring1.2.
Proof.
  assert (HexMap.grow_hex lone_tile 0 Hex.angles None = Ok (ring1.1, ring1.2)) as E.
  { rewrite <- surjective_pairing.
    apply (ok_or_eq (HexMap.grow_hex lone_tile 0 Hex.angles None) (HexMap.empty, [])).
    vm_compute. reflexivity. }
  split; [exact E|].
  destruct growth_returns_new_tiles as [Hg _].
  destruct (Hg lone_tile 0 Hex.angles None ring1.1 ring1.2 E) as (H1 & _ & _ & H4 & _).
  split; [exact H1|exact H4].
Defined.

Section Slots.

Implicit Types (h : heap) (m : HexMap.t) (i j s u nb tile : nat) (a b : Z).

(** Linking never empties a slot. *)
Lemma new_neighbor_stays h s a nb h' i b :
  new_neighbor h s a nb = Ok h' ->
  is_Some (neighbor h i b) -> is_Some (neighbor h' i b).
Proof.
  intros H Hib. rewrite (new_neighbor_links _ _ _ _ _ _ _ H).
  assert (is_Some (h !! i)) as [ti Hi].
  { destruct Hib as [u Hu]. unfold neighbor in Hu. destruct (h !! i); [by eexists|done]. }
  repeat case_decide; destruct_and?; subst; rewrite ?Hi; simpl; try done; by eexists.
Qed.

Lemma join_loop_stays self l : forall h h' i b,
  foldM (join_step self) h l = Ok h' ->
  is_Some (neighbor h i b) -> is_Some (neighbor h' i b).
Proof.
  induction l as [|a l IH]; intros h h' i b; simpl; [by intros [= <-]|].
  destruct (join_step self h a) as [h1|] eqn:E1; simpl; [|done].
  intros H Hib. apply (IH _ _ _ _ H). unfold join_step in E1.
  destruct (neighbor h self a); [|by injection E1 as <-].
  destruct (neighbor h self _); [|by injection E1 as <-].
  by apply (new_neighbor_stays _ _ _ _ _ _ _ E1).
Qed.

Lemma coherent_no_loop h i a : coherent h -> a ∈ Hex.angles -> neighbor h i a ≠ Some i.
Proof.
  intros Hco Ha Hi. pose proof (Hco _ _ _ Hi) as Hoff.
  angle_cases Ha; (edestruct Hoff as [Hx Hy]; [vm_compute; reflexivity|]); lia.
Qed.

(** The corner step writes on the neighbors of [self], never on [self]. *)
Lemma join_step_self h self a h' :
  a ∈ Hex.angles -> coherent h -> join_step self h a = Ok h' ->
  forall b, neighbor h' self b = neighbor h self b.
Proof.
  intros Ha Hco. unfold join_step.
  destruct (neighbor h self a) as [target|] eqn:Et; [|by intros [= <-]].
  destruct (neighbor h self ((a + 60) mod 360)%Z) as [join|] eqn:Ej; [|by intros [= <-]].
  intros H b. rewrite (new_neighbor_links _ _ _ _ _ _ _ H).
  destruct (corner_angles a Ha) as [Ha1 _].
  rewrite decide_False, decide_False; [done|..].
  - intros [<- _]. by apply (coherent_no_loop h self a).
  - intros [<- _]. by apply (coherent_no_loop h self ((a + 60) mod 360)%Z).
Qed.

Lemma join_loop_self self l :
  Forall (fun a => a ∈ Hex.angles) l -> forall h h',
  tidy h -> foldM (join_step self) h l = Ok h' ->
  forall b, neighbor h' self b = neighbor h self b.
Proof.
  induction 1 as [|a l Ha _ IH]; intros h h' Ht; simpl; [by intros [= <-]|].
  destruct (join_step self h a) as [h1|] eqn:E1; simpl; [|done].
  destruct (join_step_keeps _ _ _ _ Ha Ht E1) as [Ht1 _].
  intros H b. rewrite (IH _ _ Ht1 H). apply (join_step_self h self a); [done| |done].
  by destruct Ht.
Qed.

Lemma grow_loop_slots tile p angles : forall m acc m' new,
  sound m -> is_Some (HexMap.heap m !! tile) ->
  HexMap.grow_loop tile p angles m acc = Ok (m', new) ->
  (forall b u, neighbor (HexMap.heap m) tile b = Some u ->
               neighbor (HexMap.heap m') tile b = Some u)
  /\ (forall a, a ∈ angles -> is_Some (neighbor (HexMap.heap m') tile a))
  /\ (forall i, i ∈ new ->
        i ∈ acc \/ exists a, a ∈ angles /\ neighbor (HexMap.heap m) tile a = None
                             /\ neighbor (HexMap.heap m') tile a = Some i)
  /\ (forall i b, is_Some (neighbor (HexMap.heap m) i b) ->
                  is_Some (neighbor (HexMap.heap m') i b)).
Proof.
  induction angles as [|a rest IH]; intros m acc m' new Hs Htile; simpl.
  - intros [= <- <-]. split; [done|]. split; [by intros a ?%elem_of_nil|].
    split; [by left|done].
  - case_decide as Ha; [|done].
    destruct (neighbor (HexMap.heap m) tile a) as [u0|] eqn:En.
    + intros H. destruct (IH _ _ _ _ Hs Htile H) as (Hkeep & Hfill & Hnew & Hstay).
      split; [done|]. split; [|split; [|done]].
      * intros a' [->|Ha']%elem_of_cons; [|by apply Hfill].
        rewrite (Hkeep _ _ En). by eexists.
      * intros i Hi. destruct (Hnew i Hi) as [?|(a' & Ha' & ? & ?)]; [by left|].
        right. exists a'. split; [by right|done].
    + destruct (new_neighbor _ tile a (HexMap.next_id m)) as [h|] eqn:Eh; simpl; [|done].
      destruct (grow_one_sound m tile a p h Hs Htile Ha Eh) as (Hs2 & Hsp2 & Hnb).
      set (nb := HexMap.next_id m) in *. simpl in Eh.
      assert (HexMap.heap m !! nb = None) as Hfresh.
      { apply eq_None_not_Some. intros Hin. apply (sound_ids m Hs) in Hin.
        unfold nb in Hin. lia. }
      assert (tile ≠ nb) as Hne.
      { intros ->. rewrite Hfresh in Htile. by destruct Htile. }
      assert (forall i b, i ≠ nb -> (i, b) ≠ (tile, a) ->
                neighbor h i b = neighbor (HexMap.heap m) i b) as Hsame.
      { intros i b Hi Hib. rewrite (new_neighbor_links _ _ _ _ _ _ _ Eh).
        rewrite decide_False by (by intros [? _]).
        rewrite decide_False by (intros [-> ->]; by apply Hib).
        by rewrite neighbor_insert, decide_False. }
      assert (neighbor h tile a = Some nb) as Hlinked.
      { apply (new_neighbor_linked _ _ _ _ _ Ha) in Eh as [? _]; [done|..].
        - by rewrite lookup_insert_ne.
        - rewrite lookup_insert_eq. by eexists. }
      intros H.
      destruct (IH _ _ _ _ Hs2 (proj1 (Hsp2 tile Htile)) H)
        as (Hkeep & Hfill & Hnew & Hstay). simpl in *.
      assert (forall b u, neighbor (HexMap.heap m) tile b = Some u ->
                neighbor h tile b = Some u) as Hk1.
      { intros b u Hu. rewrite Hsame; [done|done|].
        intros [= ->]. by rewrite En in Hu. }
      split; [intros b u Hu; by apply Hkeep, Hk1|].
      split; [|split].
      * intros a' [->|Ha']%elem_of_cons; [|by apply Hfill].
        rewrite (Hkeep _ _ Hlinked). by eexists.
      * intros i Hi. destruct (Hnew i Hi) as [[Hacc| ->%list_elem_of_singleton]%elem_of_app
                                             |(a' & Ha' & Hnone & Hsome)].
        -- by left.
        -- right. exists a. split; [by left|]. split; [done|by apply Hkeep].
        -- right. exists a'. split; [by right|]. split; [|done].
           destruct (neighbor (HexMap.heap m) tile a') eqn:E'; [|done].
           by rewrite (Hk1 _ _ E') in Hnone.
      * intros i b Hib. apply Hstay.
        assert (i ≠ nb) as Hi.
        { intros ->. destruct Hib as [u Hu]. unfold neighbor in Hu.
          by rewrite Hfresh in Hu. }
        destruct (decide ((i, b) = (tile, a))) as [[= -> ->]|Hib'];
          [rewrite Hlinked; by eexists|]. by rewrite Hsame.
Qed.

Lemma grow_hex_slots m tile angles p m' new :
  sound m -> is_Some (HexMap.heap m !! tile) ->
  HexMap.grow_hex m tile angles p = Ok (m', new) ->
  (forall b u, neighbor (HexMap.heap m) tile b = Some u ->
               neighbor (HexMap.heap m') tile b = Some u)
  /\ (forall a, a ∈ angles -> is_Some (neighbor (HexMap.heap m') tile a))
  /\ (forall i, i ∈ new ->
        exists a, a ∈ angles /\ neighbor (HexMap.heap m) tile a = None
                  /\ neighbor (HexMap.heap m') tile a = Some i)
  /\ (forall i b, is_Some (neighbor (HexMap.heap m) i b) ->
                  is_Some (neighbor (HexMap.heap m') i b)).
Proof.
  intros Hs Htile. unfold HexMap.grow_hex.
  destruct (HexMap.grow_loop _ _ _ _ _) as [[m1 new1]|] eqn:E1; simpl; [|done].
  destruct (grow_loop_slots _ _ _ _ _ _ _ Hs Htile E1) as (Hkeep & Hfill & Hnew & Hstay).
  apply grow_loop_sound in E1; [|done|done|by intros i ?%elem_of_nil].
  destruct E1 as (Hs1 & _).
  destruct (join_neighbors (HexMap.heap m1) tile) as [h|] eqn:E2; simpl; [|done].
  intros [= <- <-]. simpl.
  assert (forall b, neighbor h tile b = neighbor (HexMap.heap m1) tile b) as Hself.
  { apply (join_loop_self tile Hex.angles); [by apply Forall_forall| |exact E2].
    by apply tidy_of_sound. }
  split; [intros b u Hu; rewrite Hself; by apply Hkeep|].
  split; [intros a Ha; rewrite Hself; by apply Hfill|].
  split.
  - intros i Hi. destruct (Hnew i Hi) as [?%elem_of_nil|(a & Ha & Hnone & Hsome)]; [done|].
    exists a. by rewrite Hself.
  - intros i b Hib. by apply (join_loop_stays tile Hex.angles _ _ _ _ E2), Hstay.
Qed.

Lemma grow_loop_nothing tile p angles : forall m acc,
  Forall (fun a => a ∈ Hex.angles) angles ->
  (forall a, a ∈ angles -> is_Some (neighbor (HexMap.heap m) tile a)) ->
  HexMap.grow_loop tile p angles m acc = Ok (m, acc).
Proof.
  induction angles as [|a rest IH]; intros m acc Hall Hfull; simpl; [done|].
  apply Forall_cons in Hall as [Ha Hall]. rewrite decide_True by done.
  destruct (Hfull a) as [u ->]; [by left|]. apply IH; [done|].
  intros a' Ha'. apply Hfull. by right.
Qed.

Lemma grow_map_loop_slots angles p snapshot : forall m acc m' new,
  sound m -> (forall i, i ∈ snapshot -> is_Some (HexMap.heap m !! i)) ->
  HexMap.grow_map_loop snapshot angles p m acc = Ok (m', new) ->
  (forall t a, t ∈ snapshot -> a ∈ angles -> is_Some (neighbor (HexMap.heap m') t a))
  /\ (forall i b, is_Some (neighbor (HexMap.heap m) i b) ->
                  is_Some (neighbor (HexMap.heap m') i b)).
Proof.
  induction snapshot as [|tile rest IH]; intros m acc m' new Hs Hsnap; simpl.
  - intros [= <- <-]. split; [by intros t a ?%elem_of_nil|done].
  - destruct (HexMap.grow_hex m tile angles (Some p)) as [[m1 new1]|] eqn:E1;
      simpl; [|done].
    assert (is_Some (HexMap.heap m !! tile)) as Htile by (apply Hsnap; by left).
    destruct (grow_hex_sound _ _ _ _ _ _ Hs Htile E1) as [Hs1 Hsp1].
    destruct (grow_hex_slots _ _ _ _ _ _ Hs Htile E1) as (_ & Hfill & _ & Hstay).
    intros H. apply IH in H as [Hfill' Hstay']; [|done|].
    + split.
      * intros t a [->|Ht]%elem_of_cons Ha; [by apply Hstay', Hfill|by apply Hfill'].
      * intros i b Hib. by apply Hstay', Hstay.
    + intros i Hi. apply Hsp1, Hsnap. by right.
Qed.

End Slots.

(** X3: on a map the construction interface has reached, [grow_hex] on a
    tile of the store leaves a neighbor at every angle asked for, keeps the
    neighbors the tile already had (no existing tile is overwritten in
    its slots), and every tile it returns was put into a slot of the tile
    that was empty before.  No slot of any tile that held a neighbor is
    left empty. *)
Theorem grow_hex_fills_free_slots m tile angles p m' new :
  built m -> is_Some (HexMap.heap m !! tile) ->
  HexMap.grow_hex m tile angles p = Ok (m', new) ->
  (forall a, a ∈ angles -> is_Some (neighbor (HexMap.heap m') tile a))
  /\ (forall b u, neighbor (HexMap.heap m) tile b = Some u ->
                  neighbor (HexMap.heap m') tile b = Some u)
  /\ (forall i, i ∈ new ->
        exists a, a ∈ angles /\ neighbor (HexMap.heap m) tile a = None
                  /\ neighbor (HexMap.heap m') tile a = Some i)
  /\ (forall i b, is_Some (neighbor (HexMap.heap m) i b) ->
                  is_Some (neighbor (HexMap.heap m') i b)).
Proof.
  intros Hb Htile H.
  destruct (grow_hex_slots _ _ _ _ _ _ (built_sound m Hb) Htile H) as (H1 & H2 & H3 & H4).
  done.
Qed.

(** Surrounding the first tile. *)
Lemma grow_hex_fills_witness :
  built lone_tile
  /\ HexMap.grow_hex lone_tile 0 Hex.angles None = Ok (ring1.1, ring1.2)
  /\ forall a, a ∈ Hex.angles -> is_Some (neighbor (HexMap.heap ring1.1) 0 a).
Proof.
  assert (built lone_tile) as Hb.
  { eapply built_step; [apply built_empty|apply step_start_hex]. }
  assert (HexMap.grow_hex lone_tile 0 Hex.angles None = Ok (ring1.1, ring1.2)) as E.
  { rewrite <- surjective_pairing.
    apply (ok_or_eq (HexMap.grow_hex lone_tile 0 Hex.angles None) (HexMap.empty, [])).
    vm_compute. reflexivity. }
  assert (is_Some (HexMap.heap lone_tile !! 0)) as H0 by compute_done.
  split; [exact Hb|]. split; [exact E|].
  exact (proj1 (grow_hex_fills_free_slots lone_tile 0 Hex.angles None _ _ Hb H0 E)).
Defined.

(** X4: growing the same tile towards the same angles a second time
    creates nothing: the call returns an empty list and leaves [hexes],
    the id counter and the tiles of the store as they were. *)
Theorem grow_hex_twice m tile angles p m' new :
  built m -> is_Some (HexMap.heap m !! tile) ->
  HexMap.grow_hex m tile angles p = Ok (m', new) ->
  exists m'',
    HexMap.grow_hex m' tile angles p = Ok (m'', [])
    /\ HexMap.hexes m'' = HexMap.hexes m'
    /\ HexMap.next_id m'' = HexMap.next_id m'
    /\ unmoved (HexMap.heap m') (HexMap.heap m'').
Proof.
  intros Hb Htile H.
  pose proof (built_sound m Hb) as Hs.
  destruct (grow_hex_sound _ _ _ _ _ _ Hs Htile H) as [Hs' _].
  destruct (grow_hex_slots _ _ _ _ _ _ Hs Htile H) as (_ & Hfill & _).
  assert (Forall (fun a => a ∈ Hex.angles) angles) as Hall.
  { destruct (decide (Forall (fun a => a ∈ Hex.angles) angles)) as [?|Hbad]; [done|].
    by rewrite (grow_hex_invalid _ _ _ _ Hbad) in H. }
  destruct (grow_hex_ids _ _ _ _ _ _ H) as (_ & _ & _ & _ & Hbase & _).
  unfold HexMap.grow_hex.
  assert (HexMap.params_or_base p m' = HexMap.params_or_base p m) as ->.
  { unfold HexMap.params_or_base. by rewrite Hbase. }
  rewrite (grow_loop_nothing tile _ angles m' [] Hall Hfill). simpl.
  destruct (join_neighbors (HexMap.heap m') tile) as [h|] eqn:E2; simpl.
  - eexists. split; [reflexivity|]. simpl. rewrite app_nil_r.
    split; [done|]. split; [done|].
    by apply (join_neighbors_keeps _ tile h (tidy_of_sound _ Hs')).
  - destruct (join_neighbors_total (HexMap.heap m') tile) as [h' Eh']. congruence.
Qed.

(** Surrounding the first tile twice. *)
Lemma grow_hex_twice_witness :
  exists m'', HexMap.grow_hex ring1.1 0 Hex.angles None = Ok (m'', [])
              /\ HexMap.hexes m'' = HexMap.hexes ring1.1.
Proof.
  assert (built lone_tile) as Hb.
  { eapply built_step; [apply built_empty|apply step_start_hex]. }
  assert (HexMap.grow_hex lone_tile 0 Hex.angles None = Ok (ring1.1, ring1.2)) as E.
  { rewrite <- surjective_pairing.
    apply (ok_or_eq (HexMap.grow_hex lone_tile 0 Hex.angles None) (HexMap.empty, [])).
    vm_compute. reflexivity. }
  assert (is_Some (HexMap.heap lone_tile !! 0)) as H0 by compute_done.
  destruct (grow_hex_twice lone_tile 0 Hex.angles None _ _ Hb H0 E) as (m'' & E2 & Hh & _).
  exists m''. split; [exact E2|exact Hh].
Defined.

(** X5: after [grow_map] (and so after [surround_map]) on a map the
    construction interface has reached, every tile that was in [hexes]
    before the call has a neighbor at every angle asked for: tiles created
    during the pass are not visited, but those of the snapshot all are. *)
Theorem grow_map_fills_snapshot m angles p m' new :
  built m -> HexMap.grow_map m angles p = Ok (m', new) ->
  forall t a, t ∈ HexMap.hexes m -> a ∈ angles ->
    is_Some (neighbor (HexMap.heap m') t a).
Proof.
  intros Hb H. pose proof (built_sound m Hb) as Hs.
  unfold HexMap.grow_map in H.
  by apply (grow_map_loop_slots _ _ _ _ _ _ _ Hs (sound_hexes m Hs) H).
Qed.

(** Growing the seven tiles of the first ring map in all directions. *)
Lemma grow_map_fills_witness :
  built ring1.1
  /\ is_Some (neighbor
                (HexMap.heap (ok_or (HexMap.grow_map ring1.1 Hex.angles None)
                                    (HexMap.empty, [])).1) 3 120).
Proof.
  assert (built lone_tile) as Hb0.
  { eapply built_step; [apply built_empty|apply step_start_hex]. }
  assert (HexMap.grow_hex lone_tile 0 Hex.angles None = Ok (ring1.1, ring1.2)) as E.
  { rewrite <- surjective_pairing.
    apply (ok_or_eq (HexMap.grow_hex lone_tile 0 Hex.angles None) (HexMap.empty, [])).
    vm_compute. reflexivity. }
  assert (built ring1.1) as Hb1.
  { eapply built_step; [exact Hb0|].
    eapply step_grow_hex; [|exact E]. compute_done. }
  split; [exact Hb1|].
  eapply (grow_map_fills_snapshot ring1.1 Hex.angles None); [exact Hb1| |compute_done..].
  rewrite <- surjective_pairing. apply ok_or_eq. vm_compute. reflexivity.
Defined.

(** ** find_hex, _explore, delete_neighbors *)

Section Lookup.

Implicit Types (h : heap) (m : HexMap.t) (i j s u nb tile : nat) (a b : Z).

Lemma find_hex_Ok m x y t :
  HexMap.find_hex m x y = Ok t ->
  t ∈ HexMap.hexes m /\ x_of (HexMap.heap m) t = x /\ y2_of (HexMap.heap m) t = y.
Proof.
  unfold HexMap.find_hex.
  destruct (filter _ (HexMap.hexes m)) as [|t0 l] eqn:E; [done|].
  intros [= <-].
  assert (t0 ∈ filter (fun tile => x_of (HexMap.heap m) tile = x
                                   /\ y2_of (HexMap.heap m) tile = y) (HexMap.hexes m))
    as Hin by (rewrite E; by left).
  apply list_elem_of_filter in Hin as [[Hx Hy] Hin]. done.
Qed.

Lemma find_hex_Raise m x y e :
  HexMap.find_hex m x y = Raise e ->
  e = ValueError
  /\ forall t, t ∈ HexMap.hexes m ->
       ~ (x_of (HexMap.heap m) t = x /\ y2_of (HexMap.heap m) t = y).
Proof.
  unfold HexMap.find_hex.
  destruct (filter _ (HexMap.hexes m)) as [|t0 l] eqn:E; [|done].
  intros [= <-]. split; [done|]. intros t Hin Hxy.
  assert (t ∈ filter (fun tile => x_of (HexMap.heap m) tile = x
                                  /\ y2_of (HexMap.heap m) tile = y) (HexMap.hexes m))
    as Hf by (by apply list_elem_of_filter).
  rewrite E in Hf. by apply elem_of_nil in Hf.
Qed.

Lemma find_hex_place m t :
  t ∈ HexMap.hexes m ->
  exists u, HexMap.find_hex m (x_of (HexMap.heap m) t) (y2_of (HexMap.heap m) t) = Ok u
            /\ u ∈ HexMap.hexes m
            /\ x_of (HexMap.heap m) u = x_of (HexMap.heap m) t
            /\ y2_of (HexMap.heap m) u = y2_of (HexMap.heap m) t.
Proof.
  intros Hin.
  destruct (HexMap.find_hex m _ _) as [u|e] eqn:E.
  - exists u. split; [done|]. by apply find_hex_Ok in E.
  - apply find_hex_Raise in E as [_ Hnone]. by destruct (Hnone t Hin).
Qed.

Lemma min_fold (f : nat -> Z) (l : list nat) : forall z0,
  let r := foldl (fun acc t => Z.min (f t) acc) z0 l in
  (r <= z0)%Z /\ (forall t, t ∈ l -> (r <= f t)%Z)
  /\ (r = z0 \/ exists t, t ∈ l /\ f t = r).
Proof.
  induction l as [|t l IH]; intros z0; simpl.
  - split; [lia|]. split; [by intros t ?%elem_of_nil|by left].
  - destruct (IH (Z.min (f t) z0)) as (H1 & H2 & H3). split; [lia|]. split.
    + intros t' [->|Hin]%elem_of_cons; [lia|by apply H2].
    + destruct H3 as [H3|(t' & Hin & H3)]; [|right; exists t'; split; [by right|done]].
      destruct (Z.min_spec (f t) z0) as [[_ E]|[_ E]]; rewrite E in H3 |- *; [|by left].
      right. exists t. split; [by left|done].
Qed.

Lemma max_fold (f : nat -> Z) (l : list nat) : forall z0,
  let r := foldl (fun acc t => Z.max (f t) acc) z0 l in
  (z0 <= r)%Z /\ (forall t, t ∈ l -> (f t <= r)%Z)
  /\ (r = z0 \/ exists t, t ∈ l /\ f t = r).
Proof.
  induction l as [|t l IH]; intros z0; simpl.
  - split; [lia|]. split; [by intros t ?%elem_of_nil|by left].
  - destruct (IH (Z.max (f t) z0)) as (H1 & H2 & H3). split; [lia|]. split.
    + intros t' [->|Hin]%elem_of_cons; [lia|by apply H2].
    + destruct H3 as [H3|(t' & Hin & H3)]; [|right; exists t'; split; [by right|done]].
      destruct (Z.max_spec (f t) z0) as [[_ E]|[_ E]]; rewrite E in H3 |- *; [by left|].
      right. exists t. split; [by left|done].
Qed.

Lemma explore_fold h l : forall bd0,
  foldl (HexMap.explore_step h) bd0 l
  = HexMap.mk_bounds
      (foldl (fun acc t => Z.min (y2_of h t) acc) (HexMap.top bd0) l)
      (foldl (fun acc t => Z.min (x_of h t) acc) (HexMap.left bd0) l)
      (foldl (fun acc t => Z.max (x_of h t) acc) (HexMap.right bd0) l)
      (foldl (fun acc t => Z.max (y2_of h t) acc) (HexMap.bottom bd0) l).
Proof.
  induction l as [|t l IH]; intros bd0; simpl; [by destruct bd0|].
  by rewrite IH.
Qed.

(** What [delete_neighbors] leaves in place. *)
Lemma delete_step_monotone h s a i b u :
  neighbor (delete_step s h a) i b = Some u -> neighbor h i b = Some u.
Proof.
  unfold delete_step. destruct (neighbor h s a) as [target|]; [|done].
  rewrite !neighbor_set_slot.
  repeat case_decide; try done; intros H'; by apply bind_Some in H' as (? & _ & ?).
Qed.

Lemma delete_loop_monotone s l : forall h i b u,
  neighbor (foldl (delete_step s) h l) i b = Some u -> neighbor h i b = Some u.
Proof.
  induction l as [|a l IH]; intros h i b u; simpl; [done|].
  intros H. by eapply delete_step_monotone, IH.
Qed.

Lemma delete_loop_others s l h0 :
  mutual h0 -> Forall (fun a => a ∈ Hex.angles) l -> forall h,
  (forall i b u, neighbor h i b = Some u -> neighbor h0 i b = Some u) ->
  forall i b, i ≠ s -> neighbor h0 i b ≠ Some s ->
    neighbor (foldl (delete_step s) h l) i b = neighbor h i b.
Proof.
  intros Hm. induction 1 as [|a l Ha _ IH]; intros h Hsub i b Hi Hib; simpl; [done|].
  rewrite IH; [|intros i' b' u' Hu'; by eapply Hsub, delete_step_monotone|done|done].
  unfold delete_step. destruct (neighbor h s a) as [target|] eqn:Et; [|done].
  rewrite !neighbor_set_slot.
  rewrite decide_False by (by intros [? _]).
  rewrite decide_False; [done|]. intros [-> ->]. apply Hib.
  by apply (Hm s a target Ha), Hsub.
Qed.

End Lookup.



(** X7: the bounds [_explore] computes enclose the origin and every tile
    of [hexes], and each of the four is either 0 or the coordinate of a
    tile of [hexes] ([top] and [bottom] in half units); nothing else of
    the map changes. *)
Theorem explore_bounds m :
  let b := HexMap.bounds (HexMap.explore m) in
  HexMap.heap (HexMap.explore m) = HexMap.heap m
  /\ HexMap.hexes (HexMap.explore m) = HexMap.hexes m
  /\ (HexMap.left b <= 0 <= HexMap.right b)%Z
  /\ (HexMap.top b <= 0 <= HexMap.bottom b)%Z
  /\ (forall t, t ∈ HexMap.hexes m ->
        (HexMap.left b <= x_of (HexMap.heap m) t <= HexMap.right b)%Z
        /\ (HexMap.top b <= y2_of (HexMap.heap m) t <= HexMap.bottom b)%Z)
  /\ (HexMap.left b = 0%Z
      \/ exists t, t ∈ HexMap.hexes m /\ x_of (HexMap.heap m) t = HexMap.left b)
  /\ (HexMap.right b = 0%Z
      \/ exists t, t ∈ HexMap.hexes m /\ x_of (HexMap.heap m) t = HexMap.right b)
  /\ (HexMap.top b = 0%Z
      \/ exists t, t ∈ HexMap.hexes m /\ y2_of (HexMap.heap m) t = HexMap.top b)
  /\ (HexMap.bottom b = 0%Z
      \/ exists t, t ∈ HexMap.hexes m /\ y2_of (HexMap.heap m) t = HexMap.bottom b).
Proof.
  unfold HexMap.explore. simpl. rewrite explore_fold. simpl.
  destruct (min_fold (y2_of (HexMap.heap m)) (HexMap.hexes m) 0) as (T1 & T2 & T3).
  destruct (min_fold (x_of (HexMap.heap m)) (HexMap.hexes m) 0) as (L1 & L2 & L3).
  destruct (max_fold (x_of (HexMap.heap m)) (HexMap.hexes m) 0) as (R1 & R2 & R3).
  destruct (max_fold (y2_of (HexMap.heap m)) (HexMap.hexes m) 0) as (B1 & B2 & B3).
  simpl in *.
  split; [done|]. split; [done|]. split; [lia|]. split; [lia|].
  split; [|done].
  intros t Ht. specialize (T2 t Ht). specialize (L2 t Ht).
  specialize (R2 t Ht). specialize (B2 t Ht). lia.
Qed.

(** X8: on a store with mutual adjacency [delete_neighbors] removes the
    links of the tile both ways and no other link: afterwards the tile has
    no neighbor, no tile has it as a neighbor, and a slot of another tile
    that did not hold it holds what it held. *)
Theorem delete_neighbors_isolates (h : heap) (s : nat) :
  mutual h ->
  (forall a, a ∈ Hex.angles -> neighbor (delete_neighbors h s) s a = None)
  /\ (forall i a, a ∈ Hex.angles -> neighbor (delete_neighbors h s) i a ≠ Some s)
  /\ (forall i b, i ≠ s -> neighbor h i b ≠ Some s ->
        neighbor (delete_neighbors h s) i b = neighbor h i b).
Proof.
  intros Hm.
  assert (forall a, a ∈ Hex.angles -> neighbor (delete_neighbors h s) s a = None) as Hclear.
  { intros a Ha. apply delete_loop_clears. by right. }
  split; [exact Hclear|]. split.
  - intros i a Ha Hi.
    pose proof (delete_neighbors_keeps_mutual h s Hm i a s Ha Hi) as Hback.
    rewrite Hclear in Hback; [done|by apply opposite_angles].
  - intros i b Hi Hib. unfold delete_neighbors.
    apply (delete_loop_others s Hex.angles h Hm); [by apply Forall_forall|done..].
Qed.

(** Taking the center tile out of the first ring. *)
Lemma delete_neighbors_witness :
  mutual (HexMap.heap ring1.1)
  /\ (forall i a, a ∈ Hex.angles ->
        neighbor (delete_neighbors (HexMap.heap ring1.1) 0) i a ≠ Some 0)
  /\ neighbor (delete_neighbors (HexMap.heap ring1.1) 0) 1 120 = Some 2.
Proof.
  assert (mutual (HexMap.heap ring1.1)) as Hm
    by (apply mutualb_sound; vm_compute; reflexivity).
  destruct (delete_neighbors_isolates (HexMap.heap ring1.1) 0 Hm) as (_ & Hin & Hother).
  split; [exact Hm|]. split; [exact Hin|].
  rewrite Hother; [vm_compute; reflexivity|lia|].
  vm_compute. discriminate.
Defined.

(** ** The list of tiles of a constructed map *)

Section Listed.

Implicit Types (m : HexMap.t).

Lemma listed_grow m m' k :
  HexMap.hexes m = seq 0 (HexMap.next_id m) ->
  (forall i, is_Some (HexMap.heap m !! i) <-> i < HexMap.next_id m) ->
  HexMap.next_id m' = HexMap.next_id m + k ->
  HexMap.hexes m' = HexMap.hexes m ++ seq (HexMap.next_id m) k ->
  (forall i, is_Some (HexMap.heap m' !! i) <->
     is_Some (HexMap.heap m !! i)
     \/ (HexMap.next_id m <= i /\ i < HexMap.next_id m + k)) ->
  HexMap.hexes m' = seq 0 (HexMap.next_id m')
  /\ forall i, is_Some (HexMap.heap m' !! i) <-> i < HexMap.next_id m'.
Proof.
  intros Hh Hd Hn Hh' Hd'. split.
  - by rewrite Hh', Hh, Hn, seq_app.
  - intros i. rewrite Hd', Hd, Hn. lia.
Qed.

Lemma step_listed m m' :
  step m m' ->
  HexMap.hexes m = seq 0 (HexMap.next_id m) ->
  (forall i, is_Some (HexMap.heap m !! i) <-> i < HexMap.next_id m) ->
  HexMap.hexes m' = seq 0 (HexMap.next_id m')
  /\ forall i, is_Some (HexMap.heap m' !! i) <-> i < HexMap.next_id m'.
Proof.
  assert (forall m tile angles p m' new,
            HexMap.grow_hex m tile angles p = Ok (m', new) ->
            HexMap.hexes m = seq 0 (HexMap.next_id m) ->
            (forall i, is_Some (HexMap.heap m !! i) <-> i < HexMap.next_id m) ->
            HexMap.hexes m' = seq 0 (HexMap.next_id m')
            /\ forall i, is_Some (HexMap.heap m' !! i) <-> i < HexMap.next_id m')
    as Hhex.
  { clear. intros m tile angles p m' new E Hh Hd.
    apply grow_hex_ids in E as (Hnew & _ & Hn & Hh' & _ & Hd').
    apply (listed_grow m m' (length new)); try done.
    - by rewrite <- Hnew.
    - intros i. rewrite Hd'. rewrite Hnew at 1. rewrite elem_of_seq. tauto. }
  assert (forall m angles p m' new,
            HexMap.grow_map m angles p = Ok (m', new) ->
            HexMap.hexes m = seq 0 (HexMap.next_id m) ->
            (forall i, is_Some (HexMap.heap m !! i) <-> i < HexMap.next_id m) ->
            HexMap.hexes m' = seq 0 (HexMap.next_id m')
            /\ forall i, is_Some (HexMap.heap m' !! i) <-> i < HexMap.next_id m')
    as Hmap.
  { clear. intros m angles p m' new E Hh Hd. unfold HexMap.grow_map in E.
    apply grow_map_loop_ids in E as (k & _ & Hn & Hh' & Hd').
    by apply (listed_grow m m' k). }
  intros [m0 p|m0 tile angles p m1 new _ E|m0 angles p m1 new E
          |m0 tile p m1 new _ E|m0 p m1 new E] Hh Hd.
  - split.
    + change (HexMap.hexes m0 ++ [HexMap.next_id m0] = seq 0 (S (HexMap.next_id m0))).
      by rewrite seq_S, Hh.
    + intros i. simpl. rewrite lookup_insert_is_Some, Hd. lia.
  - by eapply Hhex.
  - by eapply Hmap.
  - by eapply Hhex.
  - by eapply Hmap.
Qed.

Lemma built_listed m :
  built m ->
  HexMap.hexes m = seq 0 (HexMap.next_id m)
  /\ forall i, is_Some (HexMap.heap m !! i) <-> i < HexMap.next_id m.
Proof.
  induction 1 as [|m m' _ [IH1 IH2] Hstep].
  - split; [done|]. intros i. simpl. rewrite lookup_empty. split; [by intros [? ?]|lia].
  - by apply (step_listed m m').
Qed.

End Listed.

(** X9: a map reached through [start_hex], [grow_hex], [grow_map],
    [surround_hex] and [surround_map] lists every tile it has created, once
    and in the order of creation; its links stay inside that list, and the
    coordinates of the two ends of a link differ by the step of its
    angle. *)
Theorem built_map_lists_its_tiles (m : HexMap.t) :
  built m ->
  NoDup (HexMap.hexes m)
  /\ HexMap.hexes m = seq 0 (HexMap.next_id m)
  /\ (forall i, is_Some (HexMap.heap m !! i) <-> i ∈ HexMap.hexes m)
  /\ (forall t a u, neighbor (HexMap.heap m) t a = Some u ->
        t ∈ HexMap.hexes m /\ u ∈ HexMap.hexes m /\ offset_ok (HexMap.heap m) t a u).
Proof.
  intros Hb. destruct (built_listed m Hb) as [Hh Hd].
  pose proof (built_sound m Hb) as Hs.
  assert (forall i, is_Some (HexMap.heap m !! i) <-> i ∈ HexMap.hexes m) as Hdom.
  { intros i. rewrite Hd, Hh, elem_of_seq. lia. }
  split; [rewrite Hh; apply NoDup_seq|]. split; [exact Hh|]. split; [exact Hdom|].
  intros t a u Hn. split; [|split].
  - apply Hdom. unfold neighbor in Hn. by destruct (HexMap.heap m !! t).
  - apply Hdom. by apply (sound_closed m Hs t a u).
  - by apply (sound_coherent m Hs).
Qed.

(** The first ring around a start tile. *)
Lemma built_map_lists_witness :
  built ring1.1
  /\ HexMap.hexes ring1.1 = seq 0 (HexMap.next_id ring1.1)
  /\ offset_ok (HexMap.heap ring1.1) 0 60 2.
Proof.
  assert (HexMap.grow_hex lone_tile 0 Hex.angles None = Ok (ring1.1, ring1.2)) as E
    by (vm_compute; reflexivity).
  assert (built lone_tile) as Hb0.
  { apply (built_step HexMap.empty); [apply built_empty|].
    apply (step_start_hex HexMap.empty None). }
  assert (built ring1.1) as Hb1.
  { apply (built_step lone_tile); [exact Hb0|].
    eapply step_grow_hex; [|exact E]. compute_done. }
  destruct (built_map_lists_its_tiles ring1.1 Hb1) as (_ & Hh & _ & Hl).
  split; [exact Hb1|]. split; [exact Hh|].
  apply (Hl 0 60%Z 2). vm_compute. reflexivity.
Defined.

(** ** calc_terr_pips *)

Section TerrPips.

Implicit Types (h : heap) (d : gmap string (Z * Z)) (l : list nat).

Lemma constant_map_lookup (keys : list string) (v : Z * Z) (k : string) :
  (list_to_map ((fun terr => (terr, v)) <$> keys) : gmap string (Z * Z)) !! k
  = if decide (k ∈ keys) then Some v else None.
Proof.
  induction keys as [|k0 keys IH].
  - rewrite fmap_nil, list_to_map_nil, lookup_empty.
    case_decide as D; [by apply elem_of_nil in D|done].
  - rewrite fmap_cons, list_to_map_cons.
    destruct (decide (k0 = k)) as [->|N].
    + rewrite lookup_insert_eq.
      destruct (decide (k ∈ k :: keys)) as [D|D]; [reflexivity|]. destruct D. by left.
    + rewrite lookup_insert_ne by done. rewrite IH.
      destruct (decide (k ∈ keys)) as [Hin|Hout];
        destruct (decide (k ∈ k0 :: keys)) as [Hin'|Hout']; try done.
      * destruct Hout'. by right.
      * by apply elem_of_cons in Hin' as [->|?].
Qed.

Lemma terr_pips_loop h l : forall d,
  (forall t, t ∈ l -> is_Some (d !! terr_of h t)) ->
  exists d', foldM (CatanMap.terr_pips_step h) d l = Ok d'
    /\ forall terr,
         d' !! terr
         = (fun np : Z * Z =>
              ((np.1 + Z.of_nat (length (with_terr h terr l)))%Z,
               (np.2 + sum_pips h (with_terr h terr l))%Z)) <$> d !! terr.
Proof.
  induction l as [|t l IH]; intros d Hkeys.
  - exists d. split; [done|]. intros terr. simpl.
    destruct (d !! terr) as [[n p]|]; simpl; [|done]. f_equal. f_equal; lia.
  - destruct (Hkeys t) as [[n p] Hd]; [by left|].
    cbn [foldM].
    assert (CatanMap.terr_pips_step h d t
            = Ok (<[terr_of h t := ((n + 1)%Z, (p + pips_of h t)%Z)]> d)) as ->
      by (unfold CatanMap.terr_pips_step; by rewrite Hd).
    rewrite bind_Ok.
    destruct (IH (<[terr_of h t := ((n + 1)%Z, (p + pips_of h t)%Z)]> d)) as (d' & E & Hd').
    { intros t' Ht'. apply lookup_insert_is_Some'. right. apply Hkeys. by right. }
    exists d'. split; [exact E|]. intros terr. rewrite Hd'. unfold with_terr.
    destruct (decide (terr_of h t = terr)) as [<-|N].
    + rewrite lookup_insert_eq, Hd, filter_cons_True by done. simpl.
      f_equal. f_equal; lia.
    + by rewrite lookup_insert_ne, filter_cons_False by done.
Qed.

Lemma terr_pips_raise h l : forall d e,
  foldM (CatanMap.terr_pips_step h) d l = Raise e ->
  e = KeyError /\ exists t, t ∈ l /\ d !! terr_of h t = None.
Proof.
  induction l as [|t l IH]; intros d e; [done|].
  cbn [foldM].
  destruct (d !! terr_of h t) as [[n p]|] eqn:Hd.
  - assert (CatanMap.terr_pips_step h d t
            = Ok (<[terr_of h t := ((n + 1)%Z, (p + pips_of h t)%Z)]> d)) as ->
      by (unfold CatanMap.terr_pips_step; by rewrite Hd).
    rewrite bind_Ok.
    intros (-> & t' & Hin & Hnone)%IH. split; [done|]. exists t'. split; [by right|].
    by apply lookup_insert_None in Hnone as [? _].
  - assert (CatanMap.terr_pips_step h d t = Raise KeyError) as ->
      by (unfold CatanMap.terr_pips_step; by rewrite Hd).
    intros [= <-]. split; [done|]. exists t. split; [by left|done].
Qed.

(** A tile whose terrain is no key stops the loop with [KeyError]: the
    turns before it add no key. *)
Lemma terr_pips_missing h l : forall d t,
  t ∈ l -> d !! terr_of h t = None ->
  foldM (CatanMap.terr_pips_step h) d l = Raise KeyError.
Proof.
  induction l as [|t0 l IH]; intros d t Hin Hnone; [by apply elem_of_nil in Hin|].
  cbn [foldM].
  destruct (d !! terr_of h t0) as [[n p]|] eqn:Hd.
  - assert (CatanMap.terr_pips_step h d t0
            = Ok (<[terr_of h t0 := ((n + 1)%Z, (p + pips_of h t0)%Z)]> d)) as ->
      by (unfold CatanMap.terr_pips_step; by rewrite Hd).
    rewrite bind_Ok.
    apply elem_of_cons in Hin as [->|Hin]; [congruence|].
    apply (IH _ t Hin). rewrite lookup_insert_ne; [done|].
    intros Heq. rewrite Heq in Hd. congruence.
  - assert (CatanMap.terr_pips_step h d t0 = Raise KeyError) as ->
      by (unfold CatanMap.terr_pips_step; by rewrite Hd).
    reflexivity.
Qed.

End TerrPips.

(** X10: [calc_terr_pips] gives, for each terrain name of the class's
    [begin_terr] and for no other key, the number of tiles of [terrain]
    with that name and the sum of their pips, in this order.  It raises
    [KeyError] exactly when the terrain of some tile of [terrain] is not
    such a name, it raises no other exception, and it returns the table
    exactly when the terrain of every tile of [terrain] is such a name. *)
Theorem calc_terr_pips_counts (m : CatanMap.t) :
  (CatanMap.calc_terr_pips m = Raise KeyError
   <-> exists t, t ∈ CatanMap.terrain m
         /\ terr_of (CatanMap.heap m) t ∉ CatanMap.cls_begin_terr (CatanMap.klass m))
  /\ (forall e, CatanMap.calc_terr_pips m = Raise e -> e = KeyError)
  /\ ((exists d, CatanMap.calc_terr_pips m = Ok d)
      <-> forall t, t ∈ CatanMap.terrain m ->
            terr_of (CatanMap.heap m) t ∈ CatanMap.cls_begin_terr (CatanMap.klass m))
  /\ (forall d, CatanMap.calc_terr_pips m = Ok d ->
        forall terr,
          d !! terr
          = if decide (terr ∈ CatanMap.cls_begin_terr (CatanMap.klass m))
            then Some (Z.of_nat (length (with_terr (CatanMap.heap m) terr
                                                   (CatanMap.terrain m))),
                       sum_pips (CatanMap.heap m)
                                (with_terr (CatanMap.heap m) terr (CatanMap.terrain m)))
            else None).
Proof.
  unfold CatanMap.calc_terr_pips, CatanMap.terr_pips_start.
  set (table := CatanMap.cls_begin_terr (CatanMap.klass m)).
  set (start := list_to_map ((fun terr => (terr, (0, 0)%Z)) <$> table)
                : gmap string (Z * Z)).
  assert (forall e, foldM (CatanMap.terr_pips_step (CatanMap.heap m)) start
                      (CatanMap.terrain m) = Raise e ->
            e = KeyError
            /\ exists t, t ∈ CatanMap.terrain m /\ terr_of (CatanMap.heap m) t ∉ table)
    as Hraise.
  { intros e (-> & t & Hin & Hnone)%terr_pips_raise. split; [done|].
    exists t. split; [done|]. unfold start in Hnone.
    rewrite constant_map_lookup in Hnone.
    by destruct (decide (terr_of (CatanMap.heap m) t ∈ table)). }
  assert ((exists t, t ∈ CatanMap.terrain m /\ terr_of (CatanMap.heap m) t ∉ table) ->
          foldM (CatanMap.terr_pips_step (CatanMap.heap m)) start (CatanMap.terrain m)
          = Raise KeyError) as Hmiss.
  { intros (t & Hin & Hout). apply (terr_pips_missing _ _ _ t Hin).
    unfold start. rewrite constant_map_lookup. by rewrite decide_False. }
  assert ((forall t, t ∈ CatanMap.terrain m -> terr_of (CatanMap.heap m) t ∈ table) ->
          exists d, foldM (CatanMap.terr_pips_step (CatanMap.heap m)) start
                      (CatanMap.terrain m) = Ok d
            /\ forall terr,
                 d !! terr
                 = if decide (terr ∈ table)
                   then Some (Z.of_nat (length (with_terr (CatanMap.heap m) terr
                                                          (CatanMap.terrain m))),
                              sum_pips (CatanMap.heap m)
                                (with_terr (CatanMap.heap m) terr (CatanMap.terrain m)))
                   else None) as Hok.
  { intros Hall.
    destruct (terr_pips_loop (CatanMap.heap m) (CatanMap.terrain m) start)
      as (d & E & Hd).
    { intros t Ht. unfold start.
      rewrite constant_map_lookup, decide_True by (by apply Hall). by eexists. }
    exists d. split; [exact E|]. intros terr. rewrite Hd. unfold start.
    rewrite constant_map_lookup.
    by destruct (decide (terr ∈ table)). }
  split; [|split; [|split]].
  - split; [intros E; by destruct (Hraise _ E)|exact Hmiss].
  - intros e E. by destruct (Hraise _ E).
  - split.
    + intros [d E] t Hin.
      destruct (decide (terr_of (CatanMap.heap m) t ∈ table)) as [|Hout]; [done|].
      rewrite Hmiss in E; [done|]. by exists t.
    + intros Hall. destruct (Hok Hall) as (d & E & _). by exists d.
  - intros d E terr.
    destruct (Hok) as (d' & E' & Hd').
    { intros t Hin.
      destruct (decide (terr_of (CatanMap.heap m) t ∈ table)) as [|Hout]; [done|].
      rewrite Hmiss in E; [done|]. by exists t. }
    rewrite E in E'. injection E' as <-. apply Hd'.
Qed.

(** The beginner layout has one desert, without pips to give, and four
    forests; on the board as constructed every terrain is 'NONE', which
    is no key. *)
Lemma calc_terr_pips_witness :
  (exists d, CatanMap.calc_terr_pips beginner_board = Ok d
     /\ d !! "DSRT" = Some (1, -1)%Z
     /\ fst <$> d !! "FRST" = Some 4%Z
     /\ d !! "ROCK" = None)
  /\ CatanMap.calc_terr_pips standard_board = Raise KeyError.
Proof.
  split.
  - destruct (calc_terr_pips_counts beginner_board) as (_ & _ & [_ Hret] & Hval).
    destruct Hret as [d E].
    { apply Forall_forall. apply (bool_decide_unpack _). vm_compute. exact I. }
    exists d. split; [exact E|].
    rewrite !(Hval d E). repeat apply conj; vm_compute; reflexivity.
  - destruct (calc_terr_pips_counts standard_board) as ([_ Hmiss] & _).
    apply Hmiss. exists 0. split; [compute_done|].
    apply (bool_decide_unpack _). vm_compute. exact I.
Defined.

(** ** The retry loop of layout *)

Section Retry.

Context {rng : Type} (shuffle : forall A : Type, rng -> list A -> list A * rng).

Implicit Types (validate : list (CatanMap.t -> result bool)).

Lemma run_validators_true validate (m : CatanMap.t) :
  CatanMap.run_validators validate m = Ok true ->
  forall v, v ∈ validate -> v m = Ok true.
Proof.
  induction validate as [|v0 validate IH]; simpl; [by intros _ v ?%elem_of_nil|].
  destruct (v0 m) as [[|]|] eqn:E; simpl; [|done..].
  intros H v [->|Hin]%elem_of_cons; [done|by apply IH].
Qed.

(** A run of the loop that returns made [k] rejected passes and one
    accepted pass; [k + 1] is the least bound that lets it return. *)
Lemma layout_loop_spec num port terr validate fuel : forall g (m m' : CatanMap.t) g',
  CatanMap.layout_loop shuffle fuel g num port terr validate m = Ok (m', g') ->
  CatanMap.run_validators validate m' = Ok true
  /\ exists k,
       k < fuel
       /\ CatanMap.tries m' = (CatanMap.tries m + Z.of_nat k)%Z
       /\ CatanMap.layout_loop shuffle k g num port terr validate m = Raise NoFuel
       /\ forall fuel', k < fuel' ->
            CatanMap.layout_loop shuffle fuel' g num port terr validate m = Ok (m', g').
Proof.
  induction fuel as [|fuel IH]; intros g m m' g'; [done|].
  cbn [CatanMap.layout_loop].
  destruct (CatanMap.layout_pass shuffle g num port terr m) as [[m1 g1]|] eqn:E1;
    [rewrite bind_Ok|done].
  destruct (CatanMap.run_validators validate m1) as [[|]|] eqn:E2;
    [rewrite bind_Ok..|done].
  - intros [= <- <-]. split; [exact E2|]. exists 0. split; [lia|].
    apply layout_pass_inv in E1 as E1'.
    destruct E1' as (_ & _ & _ & _ & _ & _ & _ & Ht).
    split; [rewrite Ht; lia|]. split; [done|].
    intros [|fuel'] Hlt; [lia|]. cbn [CatanMap.layout_loop].
    by rewrite E1, bind_Ok, E2, bind_Ok.
  - intros H. destruct (IH _ _ _ _ H) as (Hv & k & Hk & Ht & Hno & Hmono).
    split; [exact Hv|]. exists (S k). split; [lia|].
    apply layout_pass_inv in E1 as E1'.
    destruct E1' as (_ & _ & _ & _ & _ & _ & _ & Ht1).
    split; [|split].
    + rewrite Ht. change (CatanMap.tries (CatanMap.set_tries _ m1))
        with (CatanMap.tries m1 + 1)%Z. rewrite Ht1. lia.
    + cbn [CatanMap.layout_loop]. by rewrite E1, bind_Ok, E2, bind_Ok.
    + intros [|fuel'] Hlt; [lia|]. cbn [CatanMap.layout_loop].
      rewrite E1, bind_Ok, E2, bind_Ok. apply Hmono. lia.
Qed.

Lemma layout_loop_raises num port terr validate fuel g (m m1 : CatanMap.t) g1 e :
  CatanMap.layout_pass shuffle g num port terr m = Ok (m1, g1) ->
  CatanMap.run_validators validate m1 = Raise e ->
  CatanMap.layout_loop shuffle (S fuel) g num port terr validate m = Raise e.
Proof.
  intros E1 E2. cbn [CatanMap.layout_loop]. by rewrite E1, bind_Ok, E2.
Qed.

End Retry.

(** X11: when [layout] returns, every validator accepts the map it
    leaves.  The run made some number k of rejected passes before the
    accepted one, [tries] ends at k with no validator given (then k is 0)
    and at 1 + k otherwise, and the bound of the model only has to exceed
    k: a smaller one is used up, every larger one gives the same map and
    generator state. *)
Theorem layout_returns_accepted_map
    (rng : Type) (shuffle : forall A : Type, rng -> list A -> list A * rng)
    fuel g num port terr (validate : list (CatanMap.t -> result bool))
    (m m' : CatanMap.t) g' :
  CatanMap.layout shuffle fuel g num port terr validate m = Ok (m', g') ->
  (forall v, v ∈ validate -> v m' = Ok true)
  /\ exists k,
       k < fuel
       /\ (validate = [] -> k = 0)
       /\ CatanMap.tries m' = ((if validate is [] then 0 else 1) + Z.of_nat k)%Z
       /\ CatanMap.layout shuffle k g num port terr validate m = Raise NoFuel
       /\ forall fuel', k < fuel' ->
            CatanMap.layout shuffle fuel' g num port terr validate m = Ok (m', g').
Proof.
  unfold CatanMap.layout. intros H.
  destruct (layout_loop_spec shuffle _ _ _ _ _ _ _ _ _ H) as (Hv & k & Hk & Ht & Hno & Hmono).
  split; [by apply run_validators_true|].
  exists k. split; [exact Hk|]. split; [|split; [exact Ht|split; [exact Hno|exact Hmono]]].
  intros ->. destruct k as [|k]; [done|]. exfalso.
  cbn [CatanMap.layout_loop] in Hno.
  destruct (CatanMap.layout_pass _ _ _ _ _ _) as [[m1 g1]|] eqn:E1.
  - rewrite bind_Ok in Hno. simpl in Hno. done.
  - specialize (Hmono (S (S k))). cbn [CatanMap.layout_loop] in Hmono.
    rewrite E1 in Hmono. by specialize (Hmono ltac:(lia)).
Qed.

(** The first pass, with everything reversed, puts a 6 beside an 8; the
    second is accepted. *)
Lemma layout_returns_witness :
  exists m',
    CatanMap.layout three_reversals 5 0 "shuffle" "shuffle" "shuffle"
      [n68_criteria; nmp_criteria] standard_board = Ok (m', 6)
    /\ n68_criteria m' = Ok true
    /\ CatanMap.tries m' = 2%Z.
Proof.
  set (r := CatanMap.layout three_reversals 5 0 "shuffle" "shuffle" "shuffle"
              [n68_criteria; nmp_criteria] standard_board).
  assert (r = Ok (ok_or r (CatanMap.fresh false, 0))) as E
    by (apply ok_or_eq; vm_compute; reflexivity).
  assert ((ok_or r (CatanMap.fresh false, 0)).2 = 6) as Eg by (vm_compute; reflexivity).
  assert (CatanMap.tries (ok_or r (CatanMap.fresh false, 0)).1 = 2%Z) as Et
    by (vm_compute; reflexivity).
  destruct (ok_or r (CatanMap.fresh false, 0)) as [m' g']. simpl in Eg, Et. subst g'.
  exists m'. split; [exact E|].
  destruct (layout_returns_accepted_map nat three_reversals _ _ _ _ _ _ _ _ _ E)
    as (Hv & _).
  split; [|exact Et]. apply Hv. by left.
Defined.

(** X12: the validators that [good_rock], [no_double_6_8] and
    [no_terr_tri] return cannot be used: on the standard board, whatever
    the generator and the three modes, [layout] lays the board out once
    and the call of the validator then raises [TypeError]. *)
Theorem layout_with_broken_validator
    (rng : Type) (shuffle : forall A : Type, rng -> list A -> list A * rng)
    (shuffle_perm : forall A g (l : list A), (shuffle A g l).1 ≡ₚ l)
    fuel g num port terr (n : Z) (factory : result pyobj) :
  factory ∈ [good_rock n; no_double_6_8; no_terr_tri] ->
  exists o,
    factory = Ok o
    /\ CatanMap.layout shuffle (S fuel) g num port terr [call1 o] standard_board
       = Raise TypeError.
Proof.
  intros Hf.
  destruct (pass_returns shuffle shuffle_perm g num port terr 1 standard_board
              standard_class desert_on_spiral (proj2 (proj2 (proj2 (proj2 standard_columns_facts)))))
    as (m1 & g1 & E & _).
  assert (forall o, (forall m : CatanMap.t, call1 o m = Raise TypeError) ->
            CatanMap.layout shuffle (S fuel) g num port terr [call1 o] standard_board
            = Raise TypeError) as Hraise.
  { intros o Ho. unfold CatanMap.layout.
    apply (layout_loop_raises shuffle _ _ _ _ _ _ _ m1 g1); [exact E|].
    cbn [CatanMap.run_validators]. by rewrite Ho. }
  apply elem_of_cons in Hf as [->|Hf]; [|apply elem_of_cons in Hf as [->|Hf]];
    [| |apply list_elem_of_singleton in Hf as ->].
  - exists PyNone. split; [reflexivity|]. by apply Hraise.
  - exists PyNone. split; [reflexivity|]. by apply Hraise.
  - exists (PyFun0 nrt_criteria). split; [reflexivity|]. by apply Hraise.
Qed.

Lemma layout_with_broken_witness :
  (forall A g (l : list A), (reversing A g l).1 ≡ₚ l)
  /\ good_rock 4 ∈ [good_rock 4; no_double_6_8; no_terr_tri]
  /\ CatanMap.layout reversing 1 tt "standard" "shuffle" "shuffle" [call1 PyNone]
       standard_board = Raise TypeError.
Proof.
  assert (forall A g (l : list A), (reversing A g l).1 ≡ₚ l) as Hrev.
  { intros A g l. apply reverse_Permutation. }
  assert (good_rock 4 ∈ [good_rock 4; no_double_6_8; no_terr_tri]) as Hin by (by left).
  split; [exact Hrev|]. split; [exact Hin|].
  destruct (layout_with_broken_validator unit reversing Hrev 0 tt
              "standard" "shuffle" "shuffle" 4 (good_rock 4) Hin) as (o & Eo & E).
  injection Eo as <-. exact E.
Defined.

(** ** What a layout pass leaves on the board *)

Section Outcome.

Implicit Types (h : heap) (tiles : list nat) (numbers : list pyval).

Lemma filter_ext_in {A} (P Q : A -> Prop)
    `{!forall x, Decision (P x)} `{!forall x, Decision (Q x)} (l : list A) :
  (forall x, x ∈ l -> P x <-> Q x) -> filter P l = filter Q l.
Proof.
  induction l as [|x l IH]; intros Hpq; [done|].
  assert (filter P l = filter Q l) as E.
  { apply IH. intros y Hy. apply Hpq. by right. }
  assert (P x <-> Q x) as Hx by (apply Hpq; by left).
  destruct (decide (P x)) as [Hp|Hp].
  - rewrite (filter_cons_True P) by done.
    rewrite (filter_cons_True Q) by (by apply Hx). by rewrite E.
  - rewrite (filter_cons_False P) by done.
    rewrite (filter_cons_False Q) by (by rewrite <- Hx). done.
Qed.

Lemma length_filter_fmap {A B} (f : A -> B) (P : B -> Prop)
    `{!forall y, Decision (P y)} (l : list A) :
  length (filter (fun x => P (f x)) l) = length (filter P (f <$> l)).
Proof.
  induction l as [|x l IH]; [done|]. rewrite fmap_cons.
  destruct (decide (P (f x))) as [Hp|Hp].
  - rewrite (filter_cons_True (fun x => P (f x))) by done.
    rewrite (filter_cons_True P) by done. simpl. by rewrite IH.
  - rewrite (filter_cons_False (fun x => P (f x))) by done.
    by rewrite (filter_cons_False P) by done.
Qed.

Lemma producing_filter h tiles :
  producing h tiles = length (filter (fun t => terr_of h t ≠ "DSRT") tiles).
Proof.
  induction tiles as [|t tiles IH]; [done|]. cbn [producing].
  destruct (decide (terr_of h t = "DSRT")) as [D|D].
  - by rewrite filter_cons_False by (by intros ?).
  - rewrite filter_cons_True by done. simpl. by rewrite IH.
Qed.

Lemma num_of_write (l : list (nat * string)) : forall h i,
  num_of (foldl CatanMap.write_terr h l) i = num_of h i.
Proof.
  induction l as [|p l IH]; intros h i; simpl; [done|].
  rewrite IH. unfold CatanMap.write_terr. by apply attr_alter.
Qed.

Lemma numbers_loop_terr tiles : forall h numbers h' i,
  CatanMap.numbers_loop h tiles numbers = Done h' -> terr_of h' i = terr_of h i.
Proof.
  induction tiles as [|tile tiles IH]; intros h numbers h' i; simpl.
  - by intros [= <-].
  - case_decide as D.
    + intros H. rewrite (IH _ _ _ _ H). apply terr_of_set_num.
    + destruct numbers as [|[n|str] numbers]; simpl; [by intros [= <-]| |done].
      intros H. rewrite (IH _ _ _ _ H). apply terr_of_set_num.
Qed.

Lemma numbers_loop_other tiles : forall h numbers h' i,
  CatanMap.numbers_loop h tiles numbers = Done h' -> i ∉ tiles ->
  num_of h' i = num_of h i.
Proof.
  induction tiles as [|tile tiles IH]; intros h numbers h' i; simpl.
  - by intros [= <-].
  - intros H [Hne Hout]%not_elem_of_cons. revert H. case_decide as D.
    + intros H. rewrite (IH _ _ _ _ H Hout). unfold num_of.
      by rewrite lookup_alter_ne.
    + destruct numbers as [|[n|str] numbers]; simpl; [by intros [= <-]| |done].
      intros H. rewrite (IH _ _ _ _ H Hout). unfold num_of.
      by rewrite lookup_alter_ne.
Qed.

(** The numbers go to the tiles that are no desert, in the order of the
    two lists; a desert gets 0. *)
Lemma numbers_loop_places (tr : nat -> string) tiles : forall h numbers h',
  (forall i, terr_of h i = tr i) ->
  NoDup tiles -> (forall t, t ∈ tiles -> is_Some (h !! t)) ->
  length (filter (fun t => tr t ≠ "DSRT") tiles) <= length numbers ->
  CatanMap.numbers_loop h tiles numbers = Done h' ->
  (forall t, t ∈ tiles -> tr t = "DSRT" -> num_of h' t = PInt 0)
  /\ num_of h' <$> filter (fun t => tr t ≠ "DSRT") tiles
     = take (length (filter (fun t => tr t ≠ "DSRT") tiles)) numbers.
Proof.
  induction tiles as [|t tiles IH]; intros h numbers h' Htr Hnd Hin Hlen.
  - intros _. split; [by intros t ?%elem_of_nil|done].
  - apply NoDup_cons in Hnd as [Hfresh Hnd]. cbn [CatanMap.numbers_loop].
    assert (is_Some (h !! t)) as Ht by (apply Hin; by left).
    destruct (decide (terr_of h t = "DSRT")) as [D|D].
    + rewrite Htr in D. rewrite filter_cons_False in Hlen |- * by (by intros ?).
      intros H.
      destruct (IH (alter (Hex.set_num 0) t h) numbers h') as [IH1 IH2]; try done.
      * intros i. by rewrite terr_of_set_num.
      * intros t' Ht'. apply lookup_alter_is_Some. apply Hin. by right.
      * split; [|exact IH2].
        intros t' [->|Ht']%elem_of_cons Hd; [|by apply IH1].
        rewrite (numbers_loop_other _ _ _ _ _ H Hfresh).
        by destruct (set_num_read h t 0 Ht).
    + rewrite Htr in D. rewrite filter_cons_True in Hlen |- * by done.
      cbn [length] in Hlen.
      destruct numbers as [|[n|str] numbers]; cbn [length] in Hlen; [lia| |done].
      cbn [CatanMap.assign_num]. rewrite bind_Done. intros H.
      destruct (IH (alter (Hex.set_num n) t h) numbers h') as [IH1 IH2]; try done.
      * intros i. by rewrite terr_of_set_num.
      * intros t' Ht'. apply lookup_alter_is_Some. apply Hin. by right.
      * lia.
      * split.
        -- intros t' [->|Ht']%elem_of_cons Hd; [done|by apply IH1].
        -- rewrite fmap_cons. cbn [length take]. rewrite IH2.
           rewrite (numbers_loop_other _ _ _ _ _ H Hfresh).
           by destruct (set_num_read h t n Ht) as [-> _].
Qed.

(** [zip] stops at the shorter list: the first tiles get the names, in
    order. *)
Lemma zip_write_all tiles (vals : list string) h :
  NoDup tiles -> (forall t, t ∈ tiles -> is_Some (h !! t)) ->
  terr_of (foldl CatanMap.write_terr h (zip tiles vals)) <$> take (length vals) tiles
  = take (length tiles) vals.
Proof.
  intros Hnd Hin. apply list_eq. intros j.
  rewrite list_lookup_fmap.
  destruct (decide (j < length vals)) as [Hv|Hv];
    destruct (decide (j < length tiles)) as [Ht|Ht].
  - rewrite !lookup_take_lt by done.
    destruct (lookup_lt_is_Some_2 tiles j Ht) as [t Et].
    destruct (lookup_lt_is_Some_2 vals j Hv) as [v Ev].
    rewrite Et, Ev. simpl. f_equal.
    apply (zip_write tiles vals h j); try done.
    apply Hin. by eapply list_elem_of_lookup_2.
  - rewrite (lookup_take_ge vals) by lia.
    rewrite (lookup_ge_None_2 (take _ tiles)); [done|].
    rewrite length_take. lia.
  - rewrite (lookup_take_ge tiles) by lia.
    rewrite (lookup_ge_None_2 (take _ vals)); [done|].
    rewrite length_take. lia.
  - rewrite (lookup_take_ge tiles), (lookup_take_ge vals) by lia. done.
Qed.

End Outcome.

Lemma alike_set_tries n (m0 m : CatanMap.t) :
  alike m0 m -> alike m0 (CatanMap.set_tries n m).
Proof.
  intros (Htop & Hlinks & Hdom & Hout).
  split; [exact Htop|]. split; [exact Hlinks|]. split; [exact Hdom|exact Hout].
Qed.

Section Dealt.

Context {rng : Type} (shuffle : forall A : Type, rng -> list A -> list A * rng).
Hypothesis shuffle_perm : forall A g (l : list A), (shuffle A g l).1 ≡ₚ l.

Variable m0 : CatanMap.t.
Hypothesis cols_nodup : NoDup (CatanMap.columns m0).
Hypothesis cols_stored :
  forall t, t ∈ CatanMap.columns m0 -> is_Some (CatanMap.heap m0 !! t).
Hypothesis cols_enough : 19 <= length (CatanMap.columns m0).
Hypothesis ports_nodup : NoDup (CatanMap.ports m0).
Hypothesis ports_stored :
  forall t, t ∈ CatanMap.ports m0 -> is_Some (CatanMap.heap m0 !! t).
Hypothesis ports_nine : length (CatanMap.ports m0) = 9.
Hypothesis ports_apart :
  forall t, t ∈ take 19 (CatanMap.columns m0) -> t ∉ CatanMap.ports m0.
Hypothesis spiral_terrain : CatanMap.spiral m0 ≡ₚ take 19 (CatanMap.columns m0).
Hypothesis hexes_split :
  forall t, t ∈ CatanMap.hexes m0 <->
    t ∈ take 19 (CatanMap.columns m0) \/ t ∈ CatanMap.ports m0.
Hypothesis ports_face_terrain :
  forall t adj, t ∈ CatanMap.ports m0 -> adj ∈ adjacent (CatanMap.heap m0) t ->
    adj ∈ take 19 (CatanMap.columns m0)
    \/ ((adj ∉ CatanMap.hexes m0)
        /\ (terr_of (CatanMap.heap m0) adj ∉ CatanMap.begin_port)).
Hypothesis class_standard : CatanMap.klass m0 = CatanMap.attrs.

Lemma zip_fst {A B} (l : list A) :
  forall k : list B, ((zip l k).*1) = take (length k) l.
Proof.
  induction l as [|x l IH]; intros [|y k]; simpl; try done.
  by rewrite IH.
Qed.

Lemma shuffled_fixed {A} g order (l : list A) :
  order ≠ "shuffle" -> CatanMap.shuffled shuffle g order l = (l, g).
Proof. intros N. unfold CatanMap.shuffled. by rewrite decide_False. Qed.

Lemma number_source_enough num numbers :
  numbers ≡ₚ number_source num -> 18 <= length numbers.
Proof.
  intros ->%Permutation_length. unfold number_source.
  case_decide; vm_compute; lia.
Qed.

Lemma pass_outcome g num port terr (m : CatanMap.t) :
  alike m0 m ->
  exists m' g' rezes numbers ports1,
    CatanMap.layout_pass shuffle g num port terr m = Ok (m', g')
    /\ alike m0 m' /\ CatanMap.tries m' = CatanMap.tries m
    /\ rezes ≡ₚ CatanMap.begin_terr
    /\ (terr ≠ "shuffle" -> rezes = CatanMap.begin_terr)
    /\ numbers ≡ₚ number_source num
    /\ (num ≠ "shuffle" -> numbers = number_source num)
    /\ ports1 ≡ₚ CatanMap.begin_port
    /\ (port ≠ "shuffle" -> ports1 = CatanMap.begin_port)
    /\ terr_of (CatanMap.heap m') <$> take 19 (CatanMap.columns m0) = rezes
    /\ terr_of (CatanMap.heap m') <$> CatanMap.ports m0 = ports1
    /\ num_of (CatanMap.heap m')
         <$> filter (fun t => terr_of (CatanMap.heap m') t ≠ "DSRT") (CatanMap.spiral m0)
       = take 18 numbers
    /\ (forall t, t ∈ CatanMap.spiral m0 ->
          terr_of (CatanMap.heap m') t = "DSRT" -> num_of (CatanMap.heap m') t = PInt 0).
Proof.
  intros ((Hhex & Hterr & Hports & Hcols & Hsp & Hint & Hk) & Hlinks & Hdom & Hout).
  rewrite class_standard in Hk.
  unfold CatanMap.layout_pass, CatanMap.set_terrain, CatanMap.set_numbers,
    CatanMap.set_ports.
  rewrite Hk.
  change (CatanMap.cls_begin_terr CatanMap.attrs) with CatanMap.begin_terr.
  pose proof (shuffled_perm shuffle shuffle_perm g terr CatanMap.begin_terr) as Hp1.
  pose proof (shuffled_fixed g terr CatanMap.begin_terr) as Hf1.
  destruct (CatanMap.shuffled shuffle g terr CatanMap.begin_terr) as [rezes g1].
  simpl in Hp1. cbn beta iota. rewrite !heap_set_heap.
  change (CatanMap.columns (CatanMap.set_heap _ m)) with (CatanMap.columns m).
  change (CatanMap.spiral (CatanMap.set_heap _ m)) with (CatanMap.spiral m).
  change (CatanMap.klass (CatanMap.set_heap _ m)) with (CatanMap.klass m).
  rewrite Hcols, Hsp, Hk.
  change (if decide (num = "beginner") then CatanMap.cls_begin_num CatanMap.attrs
          else CatanMap.cls_standard_num CatanMap.attrs) with (number_source num).
  set (h1 := foldl CatanMap.write_terr (CatanMap.heap m)
                   (zip (CatanMap.columns m0) rezes)).
  pose proof (shuffled_perm shuffle shuffle_perm g1 num (number_source num)) as Hp2.
  pose proof (shuffled_fixed g1 num (number_source num)) as Hf2.
  destruct (CatanMap.shuffled shuffle g1 num (number_source num)) as [numbers g2].
  simpl in Hp2. cbn beta iota.
  assert (length rezes = 19) as Hlr by (by rewrite (Permutation_length Hp1)).
  assert (forall t, is_Some (h1 !! t) <-> is_Some (CatanMap.heap m0 !! t)) as Hdom1.
  { intros t. rewrite <- Hdom. apply (write_terr_unmoved _ (CatanMap.heap m)). }
  assert (terr_of h1 <$> take 19 (CatanMap.columns m0) = rezes) as Hterr1.
  { rewrite <- Hlr. unfold h1. rewrite zip_write_all.
    - apply take_ge. lia.
    - exact cols_nodup.
    - intros t Ht. apply Hdom. by apply cols_stored. }
  assert (length (filter (fun t => terr_of h1 t ≠ "DSRT") (CatanMap.spiral m0)) = 18)
    as Hcount.
  { rewrite spiral_terrain.
    transitivity (length (filter (fun s : string => s ≠ "DSRT")
                                 (terr_of h1 <$> take 19 (CatanMap.columns m0)))).
    - exact (length_filter_fmap (terr_of h1) (fun s : string => s ≠ "DSRT")
                                (take 19 (CatanMap.columns m0))).
    - rewrite Hterr1, Hp1. reflexivity. }
  assert (NoDup (CatanMap.spiral m0)) as Hnds.
  { rewrite spiral_terrain. eapply sublist_NoDup; [exact cols_nodup|apply sublist_take]. }
  assert (forall t, t ∈ CatanMap.spiral m0 -> t ∈ take 19 (CatanMap.columns m0))
    as Hst by (intros t; by rewrite spiral_terrain).
  assert (forall t, t ∈ CatanMap.spiral m0 -> is_Some (h1 !! t)) as Hss.
  { intros t Ht. apply Hdom1, cols_stored. by eapply subseteq_take, Hst. }
  assert (exists h2, CatanMap.numbers_loop h1 (CatanMap.spiral m0) numbers = Done h2)
    as [h2 Eh].
  { destruct (decide (num = "beginner")) as [->|N].
    - assert (numbers = number_source "beginner") as ->.
      { assert ("beginner" ≠ "shuffle") as N by done. by injection (Hf2 N). }
      unfold number_source.
      try rewrite decide_True by done. cbv iota. unfold CatanMap.begin_num.
      apply numbers_loop_enough.
      + apply Forall_fmap, Forall_true. by intros z.
      + rewrite producing_filter, Hcount, length_fmap. simpl. lia.
    - apply numbers_loop_ints. rewrite Hp2. unfold number_source.
      try rewrite decide_False by done. cbv iota.
      unfold CatanMap.standard_num. apply Forall_fmap, Forall_true. by intros z. }
  rewrite Eh. cbn [outcome]. rewrite !bind_Ok. cbn beta iota. rewrite !heap_set_heap.
  change (CatanMap.ports (CatanMap.set_heap _ _)) with (CatanMap.ports m).
  change (CatanMap.klass (CatanMap.set_heap _ _)) with (CatanMap.klass m).
  rewrite Hports, Hk.
  change (CatanMap.cls_begin_port CatanMap.attrs) with CatanMap.begin_port.
  pose proof (shuffled_perm shuffle shuffle_perm g2 port CatanMap.begin_port) as Hp3.
  pose proof (shuffled_fixed g2 port CatanMap.begin_port) as Hf3.
  destruct (CatanMap.shuffled shuffle g2 port CatanMap.begin_port) as [ports1 g3].
  simpl in Hp3. cbn beta iota.
  set (h3 := foldl CatanMap.write_terr h2 (zip (CatanMap.ports m0) ports1)).
  assert (length ports1 = 9) as Hlp by (by rewrite (Permutation_length Hp3)).
  destruct (numbers_loop_places (terr_of h1) (CatanMap.spiral m0) h1 numbers h2)
    as [Hdes Hnums]; try done.
  { rewrite Hcount. by eapply number_source_enough. }
  rewrite Hcount in Hnums.
  assert (forall t, t ∈ take 19 (CatanMap.columns m0) -> terr_of h3 t = terr_of h1 t)
    as Hsame.
  { intros t Ht. unfold h3. rewrite write_other.
    - by apply (numbers_loop_terr _ _ _ _ _ Eh).
    - intros ((t1 & v1) & -> & Hp)%list_elem_of_fmap.
      apply (ports_apart _ Ht). by apply elem_of_zip_l in Hp. }
  exists (CatanMap.set_heap h3 (CatanMap.set_heap h2 (CatanMap.set_heap h1 m))), g3,
    rezes, numbers, ports1.
  split; [reflexivity|]. split.
  { split.
    { repeat split; try done.
      change (CatanMap.klass m = CatanMap.klass m0). by rewrite class_standard. }
    split.
    - intros i b. rewrite heap_set_heap. unfold h3.
      rewrite write_terr_links, (numbers_loop_links _ _ _ _ _ _ Eh). unfold h1.
      by rewrite write_terr_links.
    - split.
      + intros i. rewrite heap_set_heap, <- Hdom1. unfold h3.
        etrans; [apply (write_terr_unmoved _ h2)|].
        apply (numbers_loop_unmoved _ _ _ _ Eh).
      + intros i Hi. rewrite heap_set_heap, <- (Hout i Hi). unfold h3.
        rewrite write_other.
        * rewrite (numbers_loop_terr _ _ _ _ i Eh). unfold h1. apply write_other.
          rewrite zip_fst, Hlr. intros Hc. apply Hi, hexes_split. by left.
        * rewrite zip_fst. intros Hc%subseteq_take. apply Hi, hexes_split. by right. }
  split; [reflexivity|].
  split; [exact Hp1|]. split; [by intros [= -> _]%Hf1|].
  split; [exact Hp2|]. split; [by intros [= -> _]%Hf2|].
  split; [exact Hp3|]. split; [by intros [= -> _]%Hf3|].
  rewrite heap_set_heap. split; [|split; [|split]].
  - rewrite <- Hterr1. apply list_fmap_ext. intros i t Hi. apply Hsame.
    by eapply list_elem_of_lookup_2.
  - rewrite <- (take_ge (CatanMap.ports m0) (length ports1)) by lia.
    unfold h3. rewrite zip_write_all.
    + apply take_ge. lia.
    + exact ports_nodup.
    + intros t Ht. apply (numbers_loop_unmoved _ _ _ _ Eh), Hdom1. by apply ports_stored.
  - rewrite <- Hnums.
    rewrite (filter_ext_in (fun t => terr_of h3 t ≠ "DSRT")
                           (fun t => terr_of h1 t ≠ "DSRT")).
    + apply list_fmap_ext. intros i t _. apply num_of_write.
    + intros t Ht. by rewrite (Hsame t (Hst t Ht)).
  - intros t Ht Hd. unfold h3. rewrite num_of_write. apply Hdes; [done|].
    by rewrite <- (Hsame t (Hst t Ht)).
Qed.


Lemma adjacent_links (h h' : heap) t :
  (forall i b, neighbor h' i b = neighbor h i b) -> adjacent h' t = adjacent h t.
Proof. intros Hl. unfold adjacent. simpl. by rewrite !Hl. Qed.

(** A port has no neighbor with its own label, so [reg_criteria] rejects
    the map when one of the labels is not ignored. *)
Lemma pass_rejected g num port terr ignore (m m' : CatanMap.t) g' :
  (exists p, p ∈ CatanMap.begin_port /\ p ∉ ignore) ->
  alike m0 m ->
  CatanMap.layout_pass shuffle g num port terr m = Ok (m', g') ->
  reg_criteria ignore m' = Ok false.
Proof.
  intros (p & Hp & Hign) Hm E.
  destruct (pass_outcome g num port terr m Hm)
    as (m1 & g1 & rezes & numbers & ports1 & E1 & Hm1 & _ & Hp1 & _ & _ & _ & Hp3 & _
        & Hterr & Hports & _).
  rewrite E in E1. injection E1 as <- <-.
  destruct Hm1 as ((Hhex & _) & Hlinks & _ & Hout).
  assert (p ∈ ports1) as Hin by (by rewrite Hp3).
  rewrite <- Hports in Hin. apply list_elem_of_fmap in Hin as (tile & Etile & Htile).
  unfold reg_criteria. f_equal.
  destruct (forallb _ _) eqn:Eall; [exfalso|done].
  rewrite forallb_forall in Eall.
  specialize (Eall tile). rewrite Hhex in Eall.
  assert (tile ∈ CatanMap.hexes m0) as Hlisted by (apply hexes_split; by right).
  specialize (Eall (proj1 (list_elem_of_In _ _) Hlisted)).
  apply orb_true_iff in Eall as [Hi|Hex].
  - apply bool_decide_eq_true in Hi. by rewrite <- Etile in Hi.
  - apply existsb_exists in Hex as (adj & Hadj%list_elem_of_In & Heq).
    apply bool_decide_eq_true in Heq.
    rewrite (adjacent_links (CatanMap.heap m0)) in Hadj by exact Hlinks.
    destruct (ports_face_terrain tile adj Htile Hadj) as [Hcol|[Hno Hlabel]].
    2:{ apply Hlabel. rewrite <- (Hout adj Hno), <- Heq, <- Etile. exact Hp. }
    assert (terr_of (CatanMap.heap m') adj ∈ CatanMap.begin_terr) as Hbt.
    { rewrite <- Hp1, <- Hterr. by apply list_elem_of_fmap_2. }
    rewrite <- Heq, <- Etile in Hbt.
    assert (Forall (fun s => s ∉ CatanMap.begin_terr) CatanMap.begin_port) as Hdis
      by (apply (bool_decide_unpack _); vm_compute; exact I).
    rewrite Forall_forall in Hdis. exact (Hdis p Hp Hbt).
Qed.

Lemma regions_loop num port terr ignore fuel : forall g (m : CatanMap.t),
  (exists p, p ∈ CatanMap.begin_port /\ p ∉ ignore) ->
  alike m0 m ->
  CatanMap.layout_loop shuffle fuel g num port terr [reg_criteria ignore] m
  = Raise NoFuel.
Proof.
  induction fuel as [|fuel IH]; intros g0 m Hign Hm; [done|].
  cbn [CatanMap.layout_loop].
  destruct (pass_outcome g0 num port terr m Hm) as (m1 & g1 & ? & ? & ? & E1 & Hm1 & _).
  rewrite E1, bind_Ok. cbn [CatanMap.run_validators].
  rewrite (pass_rejected g0 num port terr ignore m m1 g1 Hign Hm E1), bind_Ok.
  apply IH; [done|]. by apply alike_set_tries.
Qed.

End Dealt.

Lemma alike_refl (m : CatanMap.t) : alike m m.
Proof. split; [by repeat split|]. split; [done|]. split; [done|done]. Qed.

(** What the passes of [layout] need of the standard board. *)
Lemma standard_board_fit :
  NoDup (CatanMap.columns standard_board)
  /\ (forall t, t ∈ CatanMap.columns standard_board ->
        is_Some (CatanMap.heap standard_board !! t))
  /\ 19 <= length (CatanMap.columns standard_board)
  /\ NoDup (CatanMap.ports standard_board)
  /\ (forall t, t ∈ CatanMap.ports standard_board ->
        is_Some (CatanMap.heap standard_board !! t))
  /\ length (CatanMap.ports standard_board) = 9
  /\ (forall t, t ∈ take 19 (CatanMap.columns standard_board) ->
        t ∉ CatanMap.ports standard_board)
  /\ CatanMap.spiral standard_board ≡ₚ take 19 (CatanMap.columns standard_board)
  /\ (forall t, t ∈ CatanMap.hexes standard_board <->
        t ∈ take 19 (CatanMap.columns standard_board) \/ t ∈ CatanMap.ports standard_board)
  /\ (forall t adj, t ∈ CatanMap.ports standard_board ->
        adj ∈ adjacent (CatanMap.heap standard_board) t ->
        adj ∈ take 19 (CatanMap.columns standard_board)
        \/ ((adj ∉ CatanMap.hexes standard_board)
            /\ (terr_of (CatanMap.heap standard_board) adj ∉ CatanMap.begin_port))).
Proof.
  destruct standard_columns_facts as (Hnd & Hin & _ & Hlc & _).
  split; [exact Hnd|]. split; [by apply Forall_forall|]. split; [rewrite Hlc; lia|].
  split; [apply (bool_decide_unpack _); vm_compute; exact I|].
  split; [apply Forall_forall, (bool_decide_unpack _); vm_compute; exact I|].
  split; [vm_compute; reflexivity|].
  split; [apply Forall_forall, (bool_decide_unpack _); vm_compute; exact I|].
  split.
  { apply list.NoDup_Permutation.
    - apply (bool_decide_unpack _). vm_compute. exact I.
    - apply (bool_decide_unpack _). vm_compute. exact I.
    - assert (CatanMap.spiral standard_board ⊆ take 19 (CatanMap.columns standard_board))
        as H1 by (apply (bool_decide_unpack _); vm_compute; exact I).
      assert (take 19 (CatanMap.columns standard_board) ⊆ CatanMap.spiral standard_board)
        as H2 by (apply (bool_decide_unpack _); vm_compute; exact I).
      intros x. split; [apply H1|apply H2]. }
  split.
  { assert (CatanMap.hexes standard_board
            ⊆ take 19 (CatanMap.columns standard_board) ++ CatanMap.ports standard_board)
      as H1 by (apply (bool_decide_unpack _); vm_compute; exact I).
    assert (take 19 (CatanMap.columns standard_board) ++ CatanMap.ports standard_board
            ⊆ CatanMap.hexes standard_board)
      as H2 by (apply (bool_decide_unpack _); vm_compute; exact I).
    intros t. rewrite <- elem_of_app. split; [apply H1|apply H2]. }
  assert (Forall (fun t =>
            Forall (fun adj =>
                      adj ∈ take 19 (CatanMap.columns standard_board)
                      \/ ((adj ∉ CatanMap.hexes standard_board)
                          /\ (terr_of (CatanMap.heap standard_board) adj
                              ∉ CatanMap.begin_port)))
                   (adjacent (CatanMap.heap standard_board) t))
                 (CatanMap.ports standard_board)) as Hface
    by (apply (bool_decide_unpack _); vm_compute; exact I).
  intros t adj Ht Hadj. rewrite Forall_forall in Hface.
  specialize (Hface t Ht). rewrite Forall_forall in Hface. by apply Hface.
Qed.

(** X13: what [layout] leaves on the standard board, for any generator
    whose shuffle permutes, any three modes, and also when the board has
    been laid out before.  The first nineteen tiles of [columns] carry the
    nineteen terrain names of [begin_terr], in the order of the list or of
    its shuffle; the nine ports carry the labels of [begin_port] likewise;
    the tiles of the spiral that are no desert carry, in spiral order, the
    first eighteen numbers of the number list ([begin_num] for
    'beginner', [standard_num] otherwise, shuffled for 'shuffle'), so the
    empty string that ends [begin_num] is never dealt; the desert has
    number 0.  Links, tiles and the lists of the map stay as they were. *)
Theorem layout_deals_the_board
    (rng : Type) (shuffle : forall A : Type, rng -> list A -> list A * rng)
    (shuffle_perm : forall A g (l : list A), (shuffle A g l).1 ≡ₚ l)
    fuel g num port terr (m : CatanMap.t) :
  alike standard_board m ->
  exists m' g' rezes numbers ports1,
    CatanMap.layout shuffle (S fuel) g num port terr [] m = Ok (m', g')
    /\ alike standard_board m'
    /\ rezes ≡ₚ CatanMap.begin_terr
    /\ (terr ≠ "shuffle" -> rezes = CatanMap.begin_terr)
    /\ numbers ≡ₚ number_source num
    /\ (num ≠ "shuffle" -> numbers = number_source num)
    /\ ports1 ≡ₚ CatanMap.begin_port
    /\ (port ≠ "shuffle" -> ports1 = CatanMap.begin_port)
    /\ terr_of (CatanMap.heap m') <$> take 19 (CatanMap.columns standard_board) = rezes
    /\ terr_of (CatanMap.heap m') <$> CatanMap.ports standard_board = ports1
    /\ num_of (CatanMap.heap m')
         <$> filter (fun t => terr_of (CatanMap.heap m') t ≠ "DSRT") (CatanMap.spiral standard_board)
       = take 18 numbers
    /\ (forall t, t ∈ CatanMap.spiral standard_board ->
          terr_of (CatanMap.heap m') t = "DSRT" -> num_of (CatanMap.heap m') t = PInt 0).
Proof.
  intros Hm. rewrite layout_one_pass.
  destruct standard_board_fit as (F1 & F2 & F3 & F4 & F5 & F6 & F7 & F8 & F9 & F10).
  destruct (pass_outcome shuffle shuffle_perm standard_board F1 F2 F3 F4 F5 F6 F7 F8 F9
              standard_class g num port terr (CatanMap.set_tries 0 m))
    as (m' & g' & rezes & numbers & ports1 & E & Hm' & _ & H).
  { by apply alike_set_tries. }
  exists m', g', rezes, numbers, ports1. split; [exact E|]. split; [exact Hm'|exact H].
Qed.

(** The beginner layout: the center tile is the desert. *)
Lemma layout_deals_witness :
  (forall A g (l : list A), (reversing A g l).1 ≡ₚ l)
  /\ alike standard_board standard_board
  /\ exists m' g',
       CatanMap.layout reversing 1 tt "beginner" "beginner" "beginner" [] standard_board
       = Ok (m', g')
       /\ terr_of (CatanMap.heap m') <$> take 19 (CatanMap.columns standard_board)
          = CatanMap.begin_terr
       /\ terr_of (CatanMap.heap m') <$> CatanMap.ports standard_board
          = CatanMap.begin_port.
Proof.
  assert (forall A g (l : list A), (reversing A g l).1 ≡ₚ l) as Hrev.
  { intros A g l. apply reverse_Permutation. }
  split; [exact Hrev|]. split; [apply alike_refl|].
  destruct (layout_deals_the_board unit reversing Hrev 0 tt
              "beginner" "beginner" "beginner" standard_board (alike_refl _))
    as (m' & g' & rezes & numbers & ports1 & E & _ & _ & Hr & _ & _ & _ & Hp & Ht & Hpo & _).
  exists m', g'. split; [exact E|].
  rewrite Ht, Hpo. split; [by apply Hr|by apply Hp].
Defined.

(** X14: a validator made by [regions] whose [ignore] leaves out a port
    label, as the default ('DSRT',) does, rejects every layout of the
    standard board: [reg_criteria] visits the ports, which are in [hexes],
    and a port has only terrain tiles for neighbors, none with its label.
    So [layout] with such a validator never returns: whatever the bound on
    the number of passes, the model uses it up. *)
Theorem layout_with_regions_never_returns
    (rng : Type) (shuffle : forall A : Type, rng -> list A -> list A * rng)
    (shuffle_perm : forall A g (l : list A), (shuffle A g l).1 ≡ₚ l)
    (ignore : list string) :
  (exists p, p ∈ CatanMap.begin_port /\ p ∉ ignore) ->
  (forall g num port terr (m m' : CatanMap.t) g',
     alike standard_board m ->
     CatanMap.layout_pass shuffle g num port terr m = Ok (m', g') ->
     reg_criteria ignore m' = Ok false)
  /\ (forall fuel g num port terr,
        CatanMap.layout shuffle fuel g num port terr [reg_criteria ignore] standard_board
        = Raise NoFuel).
Proof.
  intros Hign.
  destruct standard_board_fit as (F1 & F2 & F3 & F4 & F5 & F6 & F7 & F8 & F9 & F10).
  split.
  - intros g num port terr m m' g' Hm E.
    exact (pass_rejected shuffle shuffle_perm standard_board F1 F2 F3 F4 F5 F6 F7 F8 F9 F10
             standard_class g num port terr ignore m m' g' Hign Hm E).
  - intros fuel g num port terr. unfold CatanMap.layout.
    apply (regions_loop shuffle shuffle_perm standard_board F1 F2 F3 F4 F5 F6 F7 F8 F9 F10
             standard_class num port terr ignore fuel g); [exact Hign|].
    apply alike_set_tries. apply alike_refl.
Qed.

Lemma layout_with_regions_witness :
  (forall A g (l : list A), (reversing A g l).1 ≡ₚ l)
  /\ (exists p, p ∈ CatanMap.begin_port /\ p ∉ ["DSRT"])
  /\ CatanMap.layout reversing 3 tt "standard" "shuffle" "shuffle"
       [reg_criteria ["DSRT"]] standard_board = Raise NoFuel.
Proof.
  assert (forall A g (l : list A), (reversing A g l).1 ≡ₚ l) as Hrev.
  { intros A g l. apply reverse_Permutation. }
  assert (exists p, p ∈ CatanMap.begin_port /\ p ∉ ["DSRT"]) as Hign.
  { exists "ANY". split; [compute_done|compute_done]. }
  split; [exact Hrev|]. split; [exact Hign|].
  destruct (layout_with_regions_never_returns unit reversing Hrev ["DSRT"] Hign)
    as [_ Hloop].
  apply Hloop.
Defined.

(** ** set_numbers on its own *)

Section Beginner.

Context {rng : Type} (shuffle : forall A : Type, rng -> list A -> list A * rng).
Hypothesis shuffle_perm : forall A g (l : list A), (shuffle A g l).1 ≡ₚ l.

(** When the numbers before the empty string do not suffice, the string is
    dealt to a tile. *)
Lemma numbers_loop_short tiles : forall (h : heap) ints str rest,
  Forall is_int ints -> length ints < producing h tiles ->
  exists h', CatanMap.numbers_loop h tiles (ints ++ PStr str :: rest)
             = Failed TypeError h'.
Proof.
  induction tiles as [|tile tiles IH]; intros h ints str rest Hint; simpl; [lia|].
  case_decide as D.
  - intros Hlt. apply IH; [done|]. by rewrite producing_set_num.
  - intros Hlt. destruct Hint as [|[n|s] ints Hv Hint]; simpl in *; [by eexists| |done].
    apply IH; [done|]. rewrite producing_set_num. lia.
Qed.

(** A number list of integers only is dealt without an exception. *)
Lemma set_numbers_ints g order (m : CatanMap.t) :
  Forall is_int (if decide (order = "beginner")
                 then CatanMap.cls_begin_num (CatanMap.klass m)
                 else CatanMap.cls_standard_num (CatanMap.klass m)) ->
  exists m' g', CatanMap.set_numbers shuffle g order m = Done (m', g').
Proof.
  intros Hint. unfold CatanMap.set_numbers.
  set (src := if decide (order = "beginner")
              then CatanMap.cls_begin_num (CatanMap.klass m)
              else CatanMap.cls_standard_num (CatanMap.klass m)) in *.
  pose proof (shuffled_perm shuffle shuffle_perm g order src) as Hp.
  destruct (CatanMap.shuffled shuffle g order src) as [numbers g1].
  simpl in Hp.
  destruct (numbers_loop_ints (CatanMap.spiral m) (CatanMap.heap m) numbers) as [h' E].
  { by rewrite Hp. }
  rewrite E. by eexists _, _.
Qed.

Lemma set_numbers_beginner g (m : CatanMap.t) :
  CatanMap.klass m = CatanMap.attrs ->
  (producing (CatanMap.heap m) (CatanMap.spiral m) <= 18 ->
   exists m', CatanMap.set_numbers shuffle g "beginner" m = Done (m', g))
  /\ (18 < producing (CatanMap.heap m) (CatanMap.spiral m) ->
      exists m', CatanMap.set_numbers shuffle g "beginner" m = Failed TypeError (m', g)).
Proof.
  intros Hk. unfold CatanMap.set_numbers. rewrite decide_True by done.
  rewrite shuffled_beginner, Hk.
  change (CatanMap.cls_begin_num CatanMap.attrs)
    with ((PInt <$> [5; 6; 11; 5; 8; 10; 9; 2; 10; 12; 9; 8; 3; 4; 3; 4; 6; 11]%Z)
          ++ [PStr ""]).
  split; intros Hp.
  - destruct (numbers_loop_enough (CatanMap.spiral m) (CatanMap.heap m)
                (PInt <$> [5; 6; 11; 5; 8; 10; 9; 2; 10; 12; 9; 8; 3; 4; 3; 4; 6; 11]%Z)
                [PStr ""]) as [h' E].
    + apply Forall_fmap, Forall_true. by intros z.
    + rewrite length_fmap. simpl. lia.
    + rewrite E. by eexists.
  - destruct (numbers_loop_short (CatanMap.spiral m) (CatanMap.heap m)
                (PInt <$> [5; 6; 11; 5; 8; 10; 9; 2; 10; 12; 9; 8; 3; 4; 3; 4; 6; 11]%Z)
                "" []) as [h' E].
    + apply Forall_fmap, Forall_true. by intros z.
    + rewrite length_fmap. simpl. lia.
    + rewrite E. by eexists.
Qed.

End Beginner.

(** X15: [set_numbers] deals from the number list of the map's class
    ([self.begin_num] for 'beginner', [self.standard_num] otherwise), and
    a list of integers only is dealt without an exception, on every map.
    On a map of class [CatanMap], [set_numbers('beginner')] raises
    [TypeError] exactly when the spiral has more than eighteen tiles that
    are no desert: the nineteenth is given the empty string that ends
    [begin_num], and the setter of [num] computes [abs(7 - '')]; otherwise
    it returns, without drawing from the generator, and with any other
    order it returns.  On a map of class [Catan56Map], whose two lists
    hold integers only, the call returns with every order. *)
Theorem set_numbers_beginner_needs_desert
    (rng : Type) (shuffle : forall A : Type, rng -> list A -> list A * rng)
    (shuffle_perm : forall A g (l : list A), (shuffle A g l).1 ≡ₚ l)
    (g : rng) (m : CatanMap.t) :
  (forall order,
     Forall is_int (if decide (order = "beginner")
                    then CatanMap.cls_begin_num (CatanMap.klass m)
                    else CatanMap.cls_standard_num (CatanMap.klass m)) ->
     exists m' g', CatanMap.set_numbers shuffle g order m = Done (m', g'))
  /\ (CatanMap.klass m = CatanMap.attrs ->
      (producing (CatanMap.heap m) (CatanMap.spiral m) <= 18 ->
       exists m', CatanMap.set_numbers shuffle g "beginner" m = Done (m', g))
      /\ (18 < producing (CatanMap.heap m) (CatanMap.spiral m) ->
          exists m', CatanMap.set_numbers shuffle g "beginner" m
                     = Failed TypeError (m', g))
      /\ (forall order, order ≠ "beginner" ->
            exists m' g', CatanMap.set_numbers shuffle g order m = Done (m', g')))
  /\ (CatanMap.klass m = Catan56Map.attrs ->
      forall order,
        exists m' g', CatanMap.set_numbers shuffle g order m = Done (m', g')).
Proof.
  split; [intros order; by apply set_numbers_ints|]. split.
  - intros Hk. destruct (set_numbers_beginner shuffle g m Hk) as [H1 H2].
    split; [exact H1|]. split; [exact H2|].
    intros order N. apply set_numbers_ints; [done|].
    rewrite decide_False by done. rewrite Hk.
    change (CatanMap.cls_standard_num CatanMap.attrs) with CatanMap.standard_num.
    unfold CatanMap.standard_num. apply Forall_fmap, Forall_true. by intros z.
  - intros Hk order. apply set_numbers_ints; [done|]. rewrite Hk.
    change (CatanMap.cls_begin_num Catan56Map.attrs) with (PInt <$> Catan56Map.begin_num).
    change (CatanMap.cls_standard_num Catan56Map.attrs)
      with (PInt <$> Catan56Map.standard_num).
    case_decide; apply Forall_fmap, Forall_true; by intros z.
Qed.

(** On the board as [CatanMap()] leaves it no terrain is set, so none of
    the nineteen tiles of the spiral is a desert; the board
    [Catan56Map()] leaves takes the beginner numbers all the same. *)
Lemma set_numbers_beginner_witness :
  (forall A g (l : list A), (reversing A g l).1 ≡ₚ l)
  /\ 18 < producing (CatanMap.heap standard_board) (CatanMap.spiral standard_board)
  /\ (exists m', CatanMap.set_numbers reversing tt "beginner" standard_board
                 = Failed TypeError (m', tt))
  /\ (exists m' g', CatanMap.set_numbers reversing tt "beginner" (board56 false)
                    = Done (m', g')).
Proof.
  assert (forall A g (l : list A), (reversing A g l).1 ≡ₚ l) as Hrev.
  { intros A g l. apply reverse_Permutation. }
  assert (18 < producing (CatanMap.heap standard_board) (CatanMap.spiral standard_board))
    as Hp by (vm_compute; lia).
  split; [exact Hrev|]. split; [exact Hp|]. split.
  - destruct (set_numbers_beginner_needs_desert unit reversing Hrev tt standard_board)
      as (_ & Hstd & _).
    destruct (Hstd standard_class) as (_ & Hraise & _).
    exact (Hraise Hp).
  - destruct (set_numbers_beginner_needs_desert unit reversing Hrev tt (board56 false))
      as (_ & _ & H56).
    apply H56. vm_compute. reflexivity.
Defined.

(** ** get_n_pips and max_pip *)

Section NPips.

Implicit Types (h : heap) (m : CatanMap.t).

Lemma sum_pips_fmap h (inter : list nat) :
  foldr Z.add 0%Z (pips_of h <$> inter) = sum_pips h inter.
Proof.
  unfold sum_pips. induction inter as [|t inter IH]; [done|].
  rewrite fmap_cons. cbn [foldr]. by rewrite IH.
Qed.

Lemma get_n_pips_elem m n v :
  v ∈ CatanMap.get_n_pips m n <->
  exists inter,
    inter ∈ CatanMap.intersections m /\ length inter = n
    /\ (forall t, t ∈ inter -> pips_of (CatanMap.heap m) t ≠ (-1)%Z)
    /\ v = sum_pips (CatanMap.heap m) inter.
Proof.
  unfold CatanMap.get_n_pips. rewrite list_elem_of_fmap. split.
  - intros (sub & -> & Hsub). apply list_elem_of_filter in Hsub as [Hno Hsub].
    apply list_elem_of_fmap in Hsub as (inter & -> & Hin).
    apply list_elem_of_filter in Hin as [Hlen Hin]. apply elem_of_elements in Hin.
    exists inter. split; [done|]. split; [done|]. split; [|by rewrite sum_pips_fmap].
    intros t Ht Hp. apply Hno. rewrite <- Hp. by apply list_elem_of_fmap_2.
  - intros (inter & Hin & Hlen & Hno & ->).
    exists (pips_of (CatanMap.heap m) <$> inter). split; [by rewrite sum_pips_fmap|].
    apply list_elem_of_filter. split.
    + intros (t & Hp & Ht)%list_elem_of_fmap. by apply (Hno t Ht).
    + apply list_elem_of_fmap. exists inter. split; [done|].
      apply list_elem_of_filter. split; [done|]. by apply elem_of_elements.
Qed.

Lemma mp_criteria_spec (k : Z) m :
  exists ok, mp_criteria k m = Ok ok
    /\ (ok = true <->
        forall inter, inter ∈ CatanMap.intersections m ->
          (sum_pips (CatanMap.heap m) inter <= k)%Z).
Proof.
  unfold mp_criteria. eexists. split; [reflexivity|].
  rewrite forallb_forall. split.
  - intros H inter Hin. apply elem_of_elements, list_elem_of_In in Hin.
    specialize (H inter Hin). apply negb_true_iff, Z.ltb_ge in H. exact H.
  - intros H inter Hin%list_elem_of_In%elem_of_elements.
    apply negb_true_iff, Z.ltb_ge. by apply H.
Qed.

End NPips.

(** X16: [get_n_pips(n)] holds exactly the pip sums of the intersections
    of [n] tiles none of which has -1 pips (as a desert has), whatever the
    iteration order of the set; and the validator of [max_pip(k)] accepts
    a map exactly when no intersection has a pip sum above k, so on a map
    it accepts no value of [get_n_pips] is above k. *)
Theorem get_n_pips_and_max_pip (m : CatanMap.t) (k : Z) :
  (forall n v,
     v ∈ CatanMap.get_n_pips m n <->
     exists inter,
       inter ∈ CatanMap.intersections m /\ length inter = n
       /\ (forall t, t ∈ inter -> pips_of (CatanMap.heap m) t ≠ (-1)%Z)
       /\ v = sum_pips (CatanMap.heap m) inter)
  /\ (exists ok, mp_criteria k m = Ok ok
        /\ (ok = true <->
            forall inter, inter ∈ CatanMap.intersections m ->
              (sum_pips (CatanMap.heap m) inter <= k)%Z))
  /\ (mp_criteria k m = Ok true ->
      forall n v, v ∈ CatanMap.get_n_pips m n -> (v <= k)%Z).
Proof.
  split; [intros n v; apply get_n_pips_elem|]. split; [apply mp_criteria_spec|].
  intros Hk n v (inter & Hin & _ & _ & ->)%get_n_pips_elem.
  destruct (mp_criteria_spec k m) as (ok & E & Hok).
  rewrite Hk in E. injection E as <-. by apply Hok.
Qed.

(** On the beginner layout no corner gives more than 13 pips. *)
Lemma get_n_pips_witness :
  mp_criteria 13 beginner_board = Ok true
  /\ Forall (fun v => (v <= 13)%Z) (CatanMap.get_n_pips beginner_board 3).
Proof.
  assert (mp_criteria 13 beginner_board = Ok true) as E by (vm_compute; reflexivity).
  split; [exact E|]. apply Forall_forall. intros v Hv.
  destruct (get_n_pips_and_max_pip beginner_board 13) as (_ & _ & Hle).
  exact (Hle E 3 v Hv).
Defined.

(** ** The 5-6 player board *)

Lemma init56 (use_frame : bool) : Catan56Map.init 100 use_frame = Ok (board56 use_frame).
Proof.
  unfold board56.
  apply (ok_or_eq (Catan56Map.init 100 use_frame) (Catan56Map.fresh use_frame)).
  destruct use_frame; vm_compute; reflexivity.
Qed.

Lemma init56_mono f f' use_frame (m : CatanMap.t) :
  f <= f' -> Catan56Map.init f use_frame = Ok m -> Catan56Map.init f' use_frame = Ok m.
Proof.
  intros Hle. unfold Catan56Map.init.
  destruct (Catan56Map.build (Catan56Map.fresh use_frame)) as [m1|]; simpl; [|done].
  by apply arrange_mono.
Qed.

(** X17: [Catan56Map(use_frame)] returns for both values of the flag, and
    the board fits the tables of the class.  The terrain is the first
    thirty tiles created, as many as [begin_terr] has names; the numbers of
    [begin_num] are as many as the names that are no desert; there are
    twenty-two port candidates, every index of [frame_ports] is below that
    (the selection raises no [IndexError]), and either selection keeps
    eleven of them, as many as [begin_port] has labels, all with the port
    flag; [hexes] is the terrain followed by the ports.  The first thirty
    tiles of [columns] and the spiral are each an arrangement of the
    terrain, so [set_terrain] reaches every terrain tile and
    [set_numbers] visits each once. *)
Theorem catan56_board_fits_tables (use_frame : bool) :
  (forall fuel, 100 <= fuel -> Catan56Map.init fuel use_frame = Ok (board56 use_frame))
  /\ CatanMap.terrain (board56 use_frame) = seq 0 30
  /\ length (CatanMap.terrain (board56 use_frame)) = length Catan56Map.begin_terr
  /\ length Catan56Map.begin_num
     = length (filter (fun terr => terr ≠ "DSRT") Catan56Map.begin_terr)
  /\ length candidates56 = 22
  /\ Forall (fun index => index < length candidates56) Catan56Map.frame_ports
  /\ CatanMap.ports (board56 use_frame)
     = (if use_frame
        then ok_or (Catan56Map.pick candidates56 Catan56Map.frame_ports) []
        else every_other candidates56)
  /\ length (CatanMap.ports (board56 use_frame)) = length Catan56Map.begin_port
  /\ Forall (fun tile => port_of (CatanMap.heap (board56 use_frame)) tile = true)
            (CatanMap.ports (board56 use_frame))
  /\ CatanMap.hexes (board56 use_frame)
     = CatanMap.terrain (board56 use_frame) ++ CatanMap.ports (board56 use_frame)
  /\ take 30 (CatanMap.columns (board56 use_frame)) ≡ₚ CatanMap.terrain (board56 use_frame)
  /\ CatanMap.spiral (board56 use_frame) ≡ₚ CatanMap.terrain (board56 use_frame).
Proof.
  assert (forall l k : list nat, NoDup l -> NoDup k -> l ⊆ k -> k ⊆ l -> l ≡ₚ k) as Hperm.
  { intros l k Hl Hk H1 H2. apply list.NoDup_Permutation; [done..|].
    intros x. split; [apply H1|apply H2]. }
  split.
  { intros fuel Hle. exact (init56_mono 100 fuel use_frame _ Hle (init56 use_frame)). }
  split; [destruct use_frame; vm_compute; reflexivity|].
  split; [destruct use_frame; vm_compute; reflexivity|].
  split; [vm_compute; reflexivity|].
  split; [vm_compute; reflexivity|].
  split; [apply (bool_decide_unpack _); vm_compute; exact I|].
  split; [destruct use_frame; vm_compute; reflexivity|].
  split; [destruct use_frame; vm_compute; reflexivity|].
  split; [destruct use_frame; apply (bool_decide_unpack _); vm_compute; exact I|].
  split; [destruct use_frame; vm_compute; reflexivity|].
  split; destruct use_frame; apply Hperm; apply (bool_decide_unpack _); vm_compute; exact I.
Qed.

(** The frame version, with a larger bound on the loops. *)
Lemma catan56_board_witness :
  100 <= 150 /\ Catan56Map.init 150 true = Ok (board56 true).
Proof.
  assert (100 <= 150) as Hle by lia.
  split; [exact Hle|].
  destruct (catan56_board_fits_tables true) as [Hinit _].
  exact (Hinit 150 Hle).
Defined.

(** ** max_port_pips *)

Section PortPips.

Implicit Types (h : heap).

Lemma port_pips_loop h (terr : string) (l : list nat) : forall acc : Z,
  Forall is_int (num_of h <$> with_terr h terr l) ->
  foldM (fun pips tile =>
           match Some terr with
           | None => Raise KeyError
           | Some terr =>
               if decide (terr_of h tile = terr) then add_num pips (num_of h tile)
               else Ok pips
           end) acc l
  = Ok (acc + foldr Z.add 0 (int_of <$> (num_of h <$> with_terr h terr l)))%Z.
Proof.
  induction l as [|adj l IH]; intros acc; cbn [foldM].
  - intros _. unfold with_terr. simpl. f_equal. lia.
  - unfold with_terr. destruct (decide (terr_of h adj = terr)) as [D|D].
    + rewrite filter_cons_True by done. rewrite !fmap_cons.
      intros [Hv Hint]%Forall_cons.
      destruct (num_of h adj) as [n|str]; [|done].
      cbn [add_num]. rewrite bind_Ok, (IH _ Hint). cbn [foldr int_of]. f_equal.
      unfold with_terr. lia.
    + rewrite filter_cons_False by done. intros Hint.
      by rewrite bind_Ok, (IH _ Hint).
Qed.

Lemma port_pips_loop_str h (terr : string) (l : list nat) : forall acc : Z,
  ~ Forall is_int (num_of h <$> with_terr h terr l) ->
  foldM (fun pips tile =>
           match Some terr with
           | None => Raise KeyError
           | Some terr =>
               if decide (terr_of h tile = terr) then add_num pips (num_of h tile)
               else Ok pips
           end) acc l
  = Raise TypeError.
Proof.
  induction l as [|adj l IH]; intros acc; cbn [foldM].
  - intros Hno. destruct Hno. unfold with_terr. by apply Forall_nil.
  - unfold with_terr. destruct (decide (terr_of h adj = terr)) as [D|D].
    + rewrite filter_cons_True by done. rewrite fmap_cons. intros Hno.
      destruct (num_of h adj) as [n|str]; [|done].
      cbn [add_num]. rewrite bind_Ok. apply IH. intros Hint. apply Hno.
      by apply Forall_cons.
    + rewrite filter_cons_False by done. intros Hno.
      rewrite bind_Ok. by apply IH.
Qed.

Lemma port_pips_known h port terr :
  PORT_TO_TERR !! terr_of h port = Some terr ->
  (Forall is_int (num_of h <$> with_terr h terr (adjacent h port)) ->
   port_pips h port
   = Ok (foldr Z.add 0 (int_of <$> (num_of h <$> with_terr h terr (adjacent h port))))%Z)
  /\ (~ Forall is_int (num_of h <$> with_terr h terr (adjacent h port)) ->
      port_pips h port = Raise TypeError).
Proof.
  intros Hk. unfold port_pips. rewrite Hk. split; intros Hint.
  - rewrite (port_pips_loop h terr _ 0 Hint). f_equal.
  - by rewrite (port_pips_loop_str h terr _ 0 Hint).
Qed.

Lemma port_pips_unknown h port :
  PORT_TO_TERR !! terr_of h port = None ->
  port_pips h port = if adjacent h port is [] then Ok 0%Z else Raise KeyError.
Proof.
  intros Hk. unfold port_pips. destruct (adjacent h port) as [|adj l]; [done|].
  cbn [foldM]. by rewrite Hk.
Qed.

End PortPips.

(** X18: what [mpp_criteria] counts for a port.  When the label of the
    port is a key of [PORT_TO_TERR], it is the sum of the numbers ([num],
    not [pips]) of the neighbors whose terrain is the value of the key,
    and adding the string a failed [set_numbers] has left on such a
    neighbor raises [TypeError]; when the label is no key, the lookup
    raises [KeyError] as soon as the port has a neighbor.  For 'BRICK' the value is 'HILL', a terrain no tile of a
    laid out standard board has, so the count for the brick port is 0
    after every layout pass, whatever numbers lie on the hills beside
    it. *)
Theorem max_port_pips_counts
    (rng : Type) (shuffle : forall A : Type, rng -> list A -> list A * rng)
    (shuffle_perm : forall A g (l : list A), (shuffle A g l).1 ≡ₚ l) :
  (forall (h : heap) port terr,
     PORT_TO_TERR !! terr_of h port = Some terr ->
     (Forall is_int (num_of h <$> with_terr h terr (adjacent h port)) ->
      port_pips h port
      = Ok (foldr Z.add 0
              (int_of <$> (num_of h <$> with_terr h terr (adjacent h port))))%Z)
     /\ (~ Forall is_int (num_of h <$> with_terr h terr (adjacent h port)) ->
         port_pips h port = Raise TypeError))
  /\ (forall (h : heap) port,
        PORT_TO_TERR !! terr_of h port = None ->
        port_pips h port = if adjacent h port is [] then Ok 0%Z else Raise KeyError)
  /\ (forall g num port terr (m m' : CatanMap.t) g' p,
        alike standard_board m ->
        CatanMap.layout_pass shuffle g num port terr m = Ok (m', g') ->
        p ∈ CatanMap.ports m' -> terr_of (CatanMap.heap m') p = "BRICK" ->
        port_pips (CatanMap.heap m') p = Ok 0%Z).
Proof.
  split; [apply port_pips_known|]. split; [apply port_pips_unknown|].
  intros g num port terr m m' g' p Hm E Hp Hbrick.
  destruct standard_board_fit as (F1 & F2 & F3 & F4 & F5 & F6 & F7 & F8 & F9 & F10).
  destruct (pass_outcome shuffle shuffle_perm standard_board F1 F2 F3 F4 F5 F6 F7 F8 F9
              standard_class g num port terr m Hm)
    as (m1 & g1 & rezes & numbers & ports1 & E1 & Hm1 & _ & Hp1 & _ & _ & _ & _ & _
        & Hterr & _).
  rewrite E in E1. injection E1 as <- <-.
  destruct Hm1 as ((_ & _ & Hports & _) & Hlinks & _ & Hout).
  rewrite Hports in Hp.
  destruct (port_pips_known (CatanMap.heap m') p "HILL") as [Hsum _];
    [by rewrite Hbrick|].
  assert (with_terr (CatanMap.heap m') "HILL" (adjacent (CatanMap.heap m') p) = []) as Enil;
    [|rewrite Enil in Hsum; apply Hsum; apply Forall_nil_2].
  destruct (with_terr _ _ _) as [|adj rest] eqn:Ew; [done|]. exfalso.
  assert (adj ∈ with_terr (CatanMap.heap m') "HILL" (adjacent (CatanMap.heap m') p))
    as Hin by (rewrite Ew; by left).
  clear Ew. apply list_elem_of_filter in Hin as [Hhill Hadj].
  rewrite (adjacent_links (CatanMap.heap standard_board)) in Hadj by exact Hlinks.
  destruct (F10 p adj Hp Hadj) as [Hcol|[Hno Hlabel]].
  - assert (terr_of (CatanMap.heap m') adj ∈ CatanMap.begin_terr) as Hbt.
    { rewrite <- Hp1, <- Hterr. by apply list_elem_of_fmap_2. }
    rewrite Hhill in Hbt. revert Hbt. apply (bool_decide_unpack _). vm_compute. exact I.
  - rewrite (Hout adj Hno) in Hhill. revert Hhill.
    assert (Forall (fun t => Forall (fun adj => terr_of (CatanMap.heap standard_board) adj
                                                ≠ "HILL")
                                    (adjacent (CatanMap.heap standard_board) t))
                   (CatanMap.ports standard_board)) as Hnone
      by (apply (bool_decide_unpack _); vm_compute; exact I).
    rewrite Forall_forall in Hnone. specialize (Hnone p Hp).
    rewrite Forall_forall in Hnone. by apply Hnone.
Qed.

(** The sheep port of the beginner layout lies beside pastures with 11
    and 5, which count 16 (their pips are 2 and 4); the brick port counts
    nothing. *)
Lemma max_port_pips_witness :
  (forall A g (l : list A), (reversing A g l).1 ≡ₚ l)
  /\ PORT_TO_TERR !! terr_of (CatanMap.heap beginner_board) 26 = Some "PSTR"
  /\ port_pips (CatanMap.heap beginner_board) 26 = Ok 16%Z
  /\ terr_of (CatanMap.heap beginner_board) 32 = "BRICK"
  /\ port_pips (CatanMap.heap beginner_board) 32 = Ok 0%Z.
Proof.
  assert (forall A g (l : list A), (reversing A g l).1 ≡ₚ l) as Hrev.
  { intros A g l. apply reverse_Permutation. }
  assert (PORT_TO_TERR !! terr_of (CatanMap.heap beginner_board) 26 = Some "PSTR") as Hk
    by (vm_compute; reflexivity).
  destruct (max_port_pips_counts unit reversing Hrev) as (Hknown & _).
  split; [exact Hrev|]. split; [exact Hk|].
  split; [|split; vm_compute; reflexivity].
  destruct (Hknown (CatanMap.heap beginner_board) 26 "PSTR" Hk) as [Hsum _].
  etrans; [apply Hsum|vm_compute; reflexivity].
  apply (bool_decide_unpack _). vm_compute. exact I.
Defined.

(** ** The corner step links adjacent neighbors *)

Section Joined.

Implicit Types (h : heap) (i j s u v : nat) (a b : Z).

Lemma angle_plus a :
  a ∈ Hex.angles ->
  ((a + 240) mod 360)%Z ∈ Hex.angles /\ ((a + 240) mod 360)%Z ≠ a.
Proof. intros Ha. angle_cases Ha; split; compute_done. Qed.

Lemma angle_shift_inj a b :
  a ∈ Hex.angles -> b ∈ Hex.angles ->
  ((a + 120) mod 360)%Z = ((b + 120) mod 360)%Z -> a = b.
Proof. intros Ha Hb. angle_cases Ha; angle_cases Hb. Qed.

Lemma angle_shift_opp a b :
  a ∈ Hex.angles -> b ∈ Hex.angles ->
  ((a + 120) mod 360)%Z = opposite ((b + 120) mod 360)%Z ->
  ((b + 60) mod 360)%Z = ((a + 240) mod 360)%Z.
Proof. intros Ha Hb. angle_cases Ha; angle_cases Hb. Qed.

(** Two slots of a tile do not hold the same neighbor. *)
Lemma neighbors_apart h s a b u :
  coherent h -> a ∈ Hex.angles -> b ∈ Hex.angles ->
  neighbor h s a = Some u -> neighbor h s b = Some u -> a = b.
Proof.
  intros Hco Ha Hb Hua Hub.
  pose proof (Hco _ _ _ Hua) as Hoa. pose proof (Hco _ _ _ Hub) as Hob.
  angle_cases Ha; angle_cases Hb; exfalso;
    (edestruct Hoa as [Hx Hy]; [vm_compute; reflexivity|]);
    (edestruct Hob as [Hx' Hy']; [vm_compute; reflexivity|]); lia.
Qed.

(** A later turn of the loop does not touch the two slots an earlier
    turn has written. *)
Lemma join_step_other h s a b u v h' :
  coherent h -> closed h -> a ∈ Hex.angles -> b ∈ Hex.angles -> a ≠ b ->
  neighbor h s a = Some u -> neighbor h s ((a + 60) mod 360)%Z = Some v ->
  join_step s h b = Ok h' ->
  neighbor h' u ((a + 120) mod 360)%Z = neighbor h u ((a + 120) mod 360)%Z
  /\ neighbor h' v (opposite ((a + 120) mod 360))%Z
     = neighbor h v (opposite ((a + 120) mod 360))%Z.
Proof.
  intros Hco Hcl Ha Hb Hab Hu Hv. unfold join_step.
  destruct (neighbor h s b) as [tb|] eqn:Etb; [|by intros [= <-]].
  destruct (neighbor h s ((b + 60) mod 360)%Z) as [jb|] eqn:Ejb; [|by intros [= <-]].
  intros H. rewrite !(new_neighbor_links _ _ _ _ _ _ _ H).
  destruct (corner_angles a Ha) as [Ha60 Ha120].
  destruct (corner_angles b Hb) as [Hb60 Hb120].
  destruct (angle_plus a Ha) as (Ha240 & Hane).
  destruct (angle_plus b Hb) as (Hb240 & Hbne).
  split.
  - rewrite decide_False, decide_False; [done|..].
    + intros [-> E]. by apply Hab, angle_shift_inj.
    + intros [-> E]. apply angle_shift_opp in E; try done.
      rewrite E in Ejb. by apply Hane, (neighbors_apart h s _ _ jb).
  - rewrite decide_False, decide_False; [done|..].
    + intros [-> E]. symmetry in E.
      apply angle_shift_opp in E; try done.
      rewrite E in Hv. by apply Hbne, (neighbors_apart h s _ _ tb).
    + intros [-> E]. apply Hab, angle_shift_inj; try done.
      rewrite <- (opposite_opposite _ Ha120), <- (opposite_opposite _ Hb120).
      by rewrite E.
Qed.

Lemma join_loop_other s a u v l : forall h h',
  tidy h -> a ∈ Hex.angles -> Forall (fun b => b ∈ Hex.angles) l -> a ∉ l ->
  neighbor h s a = Some u -> neighbor h s ((a + 60) mod 360)%Z = Some v ->
  foldM (join_step s) h l = Ok h' ->
  neighbor h' u ((a + 120) mod 360)%Z = neighbor h u ((a + 120) mod 360)%Z
  /\ neighbor h' v (opposite ((a + 120) mod 360))%Z
     = neighbor h v (opposite ((a + 120) mod 360))%Z.
Proof.
  induction l as [|b l IH]; intros h h' Ht Ha Hall Hout Hu Hv; cbn [foldM].
  - by intros [= <-].
  - apply Forall_cons in Hall as [Hb Hall]. apply not_elem_of_cons in Hout as [Hab Hout].
    destruct (join_step s h b) as [h1|] eqn:E1; [rewrite bind_Ok|done].
    destruct (join_step_keeps _ _ _ _ Hb Ht E1) as [Ht1 _].
    pose proof Ht as (Hco & Hcl & _).
    pose proof (join_step_self h s b h1 Hb Hco E1) as Hself.
    destruct (join_step_other h s a b u v h1 Hco Hcl Ha Hb Hab Hu Hv E1) as [K1 K2].
    intros H.
    destruct (IH h1 h' Ht1 Ha Hall Hout) as [L1 L2]; [by rewrite Hself..|done|].
    by rewrite L1, L2.
Qed.

Lemma join_loop_corners s l : forall h h',
  tidy h -> NoDup l -> Forall (fun b => b ∈ Hex.angles) l ->
  foldM (join_step s) h l = Ok h' ->
  forall a u v, a ∈ l ->
    neighbor h s a = Some u -> neighbor h s ((a + 60) mod 360)%Z = Some v ->
    neighbor h' u ((a + 120) mod 360)%Z = Some v
    /\ neighbor h' v (opposite ((a + 120) mod 360))%Z = Some u.
Proof.
  induction l as [|b l IH]; intros h h' Ht Hnd Hall; cbn [foldM].
  - intros _ a u v Ha. by apply elem_of_nil in Ha.
  - apply Forall_cons in Hall as [Hb Hall]. apply NoDup_cons in Hnd as [Hfresh Hnd].
    destruct (join_step s h b) as [h1|] eqn:E1; [rewrite bind_Ok|done].
    destruct (join_step_keeps _ _ _ _ Hb Ht E1) as [Ht1 _].
    pose proof Ht as (Hco & Hcl & _).
    pose proof (join_step_self h s b h1 Hb Hco E1) as Hself.
    intros H a u v [->|Ha]%elem_of_cons Hu Hv.
    + destruct (join_loop_other s b u v l h1 h' Ht1 Hb Hall Hfresh) as [L1 L2];
        [by rewrite Hself..|done|].
      rewrite L1, L2. unfold join_step in E1. rewrite Hu, Hv in E1.
      rewrite !(new_neighbor_links _ _ _ _ _ _ _ E1).
      destruct (Hcl _ _ _ Hu) as [tu Etu]. destruct (Hcl _ _ _ Hv) as [tv Etv].
      split.
      * destruct (decide (u = v /\ ((b + 120) mod 360)%Z = opposite ((b + 120) mod 360)%Z))
          as [[_ E]|N].
        { destruct (corner_angles b Hb) as [_ Hb120]. by destruct (opposite_ne _ Hb120). }
        rewrite decide_True by done. by rewrite Etu.
      * rewrite decide_True by done. by rewrite Etv.
    + apply (IH h1 h' Ht1 Hnd Hall H a u v Ha); by rewrite Hself.
Qed.

End Joined.

(** X19: [join_neighbors] does what its name says.  On a store whose
    links agree with the coordinates and point to tiles of the store, any
    two neighbors of the tile at angles 60 degrees apart are linked to each
    other afterwards, in both directions, at the angles of the triangle
    they form with the tile; the links of the tile itself are as before and
    no tile has moved. *)
Theorem join_neighbors_links_corners (h : heap) (s : nat) (h' : heap) :
  tidy h -> join_neighbors h s = Ok h' ->
  (forall a u v, a ∈ Hex.angles ->
     neighbor h s a = Some u -> neighbor h s ((a + 60) mod 360)%Z = Some v ->
     neighbor h' u ((a + 120) mod 360)%Z = Some v
     /\ neighbor h' v (opposite ((a + 120) mod 360))%Z = Some u)
  /\ (forall b, neighbor h' s b = neighbor h s b)
  /\ tidy h' /\ unmoved h h'.
Proof.
  intros Ht H. unfold join_neighbors in H.
  assert (Forall (fun b => b ∈ Hex.angles) Hex.angles) as Hall by (by apply Forall_forall).
  split; [|split].
  - intros a u v Ha. apply (join_loop_corners s Hex.angles h h'); try done.
    apply (bool_decide_unpack _). vm_compute. exact I.
  - by apply (join_loop_self s Hex.angles Hall h h').
  - by apply (join_loop_keeps s Hex.angles Hall h h').
Qed.

(** The center of the first ring: its neighbors at 0 and 60 degrees, tiles
    1 and 2, are linked at 120 and 300 degrees. *)
Lemma join_neighbors_witness :
  tidy (HexMap.heap ring1.1)
  /\ exists h',
       join_neighbors (HexMap.heap ring1.1) 0 = Ok h'
       /\ neighbor h' 1 120 = Some 2 /\ neighbor h' 2 300 = Some 1.
Proof.
  assert (HexMap.grow_hex lone_tile 0 Hex.angles None = Ok (ring1.1, ring1.2)) as E
    by (vm_compute; reflexivity).
  assert (built ring1.1) as Hb.
  { apply (built_step lone_tile).
    - apply (built_step HexMap.empty); [apply built_empty|].
      apply (step_start_hex HexMap.empty None).
    - eapply step_grow_hex; [|exact E]. compute_done. }
  assert (tidy (HexMap.heap ring1.1)) as Ht.
  { destruct (built_sound _ Hb) as [H1 H2 _ _ H3]. split; [exact H1|]. split; [exact H2|exact H3]. }
  split; [exact Ht|].
  destruct (join_neighbors_total (HexMap.heap ring1.1) 0) as [h' Eh].
  exists h'. split; [exact Eh|].
  destruct (join_neighbors_links_corners _ _ _ Ht Eh) as (Hc & _).
  apply (Hc 0%Z 1 2); [compute_done|vm_compute; reflexivity..].
Defined.

(** ** no_num_pairs and the tiles around the board *)

Lemma pass_numbers_frame {rng : Type}
    (shuffle : forall A : Type, rng -> list A -> list A * rng)
    g num port terr (m m' : CatanMap.t) g' i :
  CatanMap.layout_pass shuffle g num port terr m = Ok (m', g') ->
  i ∉ CatanMap.spiral m ->
  num_of (CatanMap.heap m') i = num_of (CatanMap.heap m) i.
Proof.
  intros (rezes & numbers & ports1 & h2 & E & -> & _)%layout_pass_inv Hout.
  by rewrite num_of_write, (numbers_loop_other _ _ _ _ i E Hout), num_of_write.
Qed.

(** X20: the validator of [no_num_pairs] compares the number of a terrain
    tile with that of every neighbor, and the neighbors of a tile on the
    edge of the board include port tiles and discarded port candidates,
    whose number is the 0 they were created with.  So on the standard
    board it rejects every layout that puts the desert, which gets number
    0, on the edge, whatever the other numbers are.  The tiles outside the
    spiral keep their number 0 through the pass, so this holds for each
    pass of a run of [layout]. *)
Theorem no_num_pairs_rejects_coastal_desert
    (rng : Type) (shuffle : forall A : Type, rng -> list A -> list A * rng)
    (shuffle_perm : forall A g (l : list A), (shuffle A g l).1 ≡ₚ l)
    g num port terr (m m' : CatanMap.t) g' (d adj : nat) :
  alike standard_board m ->
  (forall i, i ∉ CatanMap.spiral standard_board -> num_of (CatanMap.heap m) i = PInt 0) ->
  CatanMap.layout_pass shuffle g num port terr m = Ok (m', g') ->
  d ∈ CatanMap.spiral standard_board -> terr_of (CatanMap.heap m') d = "DSRT" ->
  adj ∈ adjacent (CatanMap.heap standard_board) d ->
  adj ∉ CatanMap.spiral standard_board ->
  nmp_criteria m' = Ok false
  /\ (forall i, i ∉ CatanMap.spiral standard_board -> num_of (CatanMap.heap m') i = PInt 0).
Proof.
  intros Hm Hzero E Hd Hdes Hadj Hout.
  assert (forall i, i ∉ CatanMap.spiral standard_board ->
            num_of (CatanMap.heap m') i = PInt 0) as Hzero'.
  { intros i Hi. rewrite <- (Hzero i Hi).
    apply (pass_numbers_frame shuffle g num port terr m m' g' i E).
    destruct Hm as ((_ & _ & _ & _ & -> & _) & _). exact Hi. }
  split; [|exact Hzero'].
  destruct standard_board_fit as (F1 & F2 & F3 & F4 & F5 & F6 & F7 & F8 & F9 & F10).
  destruct (pass_outcome shuffle shuffle_perm standard_board F1 F2 F3 F4 F5 F6 F7 F8 F9
              standard_class g num port terr m Hm)
    as (m1 & g1 & rezes & numbers & ports1 & E1 & Hm1 & H).
  rewrite E in E1. injection E1 as <- <-.
  do 10 destruct H as [_ H]. rename H into Hnum0.
  destruct Hm1 as ((_ & Hterr & _) & Hlinks & _).
  unfold nmp_criteria, no_adjacent. f_equal.
  destruct (forallb _ _) eqn:Eall; [exfalso|done].
  rewrite forallb_forall in Eall.
  assert (d ∈ CatanMap.terrain m') as Hdt.
  { rewrite Hterr.
    assert (Forall (fun t => t ∈ CatanMap.terrain standard_board)
                   (CatanMap.spiral standard_board)) as Hsub
      by (apply (bool_decide_unpack _); vm_compute; exact I).
    rewrite Forall_forall in Hsub. by apply Hsub. }
  specialize (Eall d (proj1 (list_elem_of_In _ _) Hdt)).
  rewrite forallb_forall in Eall.
  rewrite <- (adjacent_links (CatanMap.heap standard_board) (CatanMap.heap m') d Hlinks)
    in Hadj.
  specialize (Eall adj (proj1 (list_elem_of_In _ _) Hadj)).
  rewrite (Hnum0 d Hd Hdes), (Hzero' adj Hout) in Eall. done.
Qed.

(** The reversed terrain list puts the desert on tile 18, on the edge,
    beside the port candidate 23. *)
Lemma no_num_pairs_witness :
  (forall A g (l : list A), (reversing A g l).1 ≡ₚ l)
  /\ alike standard_board standard_board
  /\ (forall i, i ∉ CatanMap.spiral standard_board ->
        num_of (CatanMap.heap standard_board) i = PInt 0)
  /\ exists m',
       CatanMap.layout_pass reversing tt "standard" "shuffle" "shuffle" standard_board
       = Ok (m', tt)
       /\ terr_of (CatanMap.heap m') 18 = "DSRT"
       /\ nmp_criteria m' = Ok false.
Proof.
  assert (forall A g (l : list A), (reversing A g l).1 ≡ₚ l) as Hrev.
  { intros A g l. apply reverse_Permutation. }
  assert (forall i, i ∉ CatanMap.spiral standard_board ->
            num_of (CatanMap.heap standard_board) i = PInt 0) as Hzero.
  { assert (map_Forall (fun _ t => Hex.num t = PInt 0) (CatanMap.heap standard_board)) as Hall
      by (apply (bool_decide_unpack _); vm_compute; exact I).
    intros i _. unfold num_of.
    destruct (CatanMap.heap standard_board !! i) as [t|] eqn:Et; [|done].
    exact (Hall i t Et). }
  split; [exact Hrev|]. split; [apply alike_refl|]. split; [exact Hzero|].
  set (r := CatanMap.layout_pass reversing tt "standard" "shuffle" "shuffle" standard_board).
  assert (r = Ok (ok_or r (CatanMap.fresh false, tt))) as E
    by (apply ok_or_eq; vm_compute; reflexivity).
  assert (terr_of (CatanMap.heap (ok_or r (CatanMap.fresh false, tt)).1) 18 = "DSRT") as Ed
    by (vm_compute; reflexivity).
  destruct (ok_or r (CatanMap.fresh false, tt)) as [m' []]. simpl in Ed.
  exists m'. split; [exact E|]. split; [exact Ed|].
  destruct (no_num_pairs_rejects_coastal_desert unit reversing Hrev tt
              "standard" "shuffle" "shuffle" standard_board m' tt 18 23
              (alike_refl _) Hzero E) as [Hrej _]; try compute_done.
  - exact Ed.
  - exact Hrej.
Defined.
